(** * ChessTactics: a shallow embedding of the puzzle engine

    The development follows the C++ sources:
    - [move.cpp]      the [Move] record and its two text renderings,
    - [position.cpp]  the mutable board with make/undo, attack detection,
                      move generation and the FEN adapters,
    - [engine.cpp]    the alpha-beta evaluator and its drivers.

    Conventions of the embedding.
    - [int] is a 32-bit two's complement integer, carried as a [Z] that every
      arithmetic operation wraps ([wrap32]); [size_t] is a [Z] below [2^64].
    - [char] is [ascii]; [std::string] is [string].
    - A C++ exception, an access outside an array and a dereferenced end
      iterator end the computation: functions that can do so return [res].
    - [std::unordered_multimap<char,int>] is a list of slots.  A slot is the
      node of one entry; an iterator is the index of its slot.  Erasing
      empties the slot, inserting appends a new one, so iterators to other
      entries stay valid, as they do for the node-based container.
    - The order in which an unordered container is iterated is not fixed by
      the language.  The loop over [m_pieces] that collects the moves is
      written for an order given as a list ([pseudo_legal_moves_in]); where
      no order is given it runs in the order of the slots, and what is
      stated about lists of moves is stated up to their order. *)

From Stdlib Require Import ZArith Ascii String List Lia Bool Permutation.
From stdpp Require Import base tactics option list gmap gmultiset pretty.

Local Open Scope string_scope.
Local Open Scope list_scope.
Local Open Scope Z_scope.

(** ** Results of fallible code *)

Inductive err : Type :=
| Thrown (msg : string)     (* a C++ [throw "..."] *)
| Undefined                 (* undefined behaviour: bad index, end iterator *)
| OutOfFuel.                (* a loop of the model ran out of fuel *)

Inductive res (A : Type) : Type :=
| Ok (a : A)
| Err (e : err).

Arguments Ok {A} a.
Arguments Err {A} e.

Definition bind {A B : Type} (r : res A) (k : A -> res B) : res B :=
  match r with
  | Ok a => k a
  | Err e => Err e
  end.

Notation "'do' x <- r ; k" := (bind r (fun x => k))
  (at level 10, x name, r at level 100, k at level 200).
Notation "'do' ' p <- r ; k" := (bind r (fun x => let 'p := x in k))
  (at level 10, p strict pattern, r at level 100, k at level 200).

(** ** Machine integers *)

Definition INT_MAX : Z := 2147483647.
Definition INT_MIN : Z := -2147483648.

Definition wrap32 (z : Z) : Z := (z + 2147483648) mod 4294967296 - 2147483648.
Definition wrap64 (z : Z) : Z := z mod 18446744073709551616.

Definition int_add (a b : Z) : Z := wrap32 (a + b).
Definition int_sub (a b : Z) : Z := wrap32 (a - b).
Definition int_mul (a b : Z) : Z := wrap32 (a * b).
Definition int_neg (a : Z) : Z := wrap32 (- a).
Definition int_abs (a : Z) : Z := wrap32 (Z.abs a).
(* C++ division and remainder truncate toward zero *)
Definition int_div (a b : Z) : Z := wrap32 (Z.quot a b).
Definition int_rem (a b : Z) : Z := Z.rem a b.

Definition is_int (z : Z) : Prop := INT_MIN <= z <= INT_MAX.

(** ** Characters *)

Definition char_code (c : ascii) : Z := Z.of_N (N_of_ascii c).
Definition char_of (z : Z) : ascii := ascii_of_N (Z.to_N (z mod 256)).

Definition is_upper (c : ascii) : bool :=
  (65 <=? char_code c) && (char_code c <=? 90).

Definition tolower (c : ascii) : ascii :=
  if is_upper c then char_of (char_code c + 32) else c.

Definition toupper (c : ascii) : ascii :=
  if (97 <=? char_code c) && (char_code c <=? 122)
  then char_of (char_code c - 32) else c.

Definition NUL : ascii := Ascii.zero.

Definition char_eqb (a b : ascii) : bool := Ascii.eqb a b.
Infix "=c" := char_eqb (at level 70, no associativity).

(** ** move.cpp *)

(** [square_string]: the algebraic name of a square, file letter then rank
    digit. *)
Definition square_string (square : Z) : string :=
  let col := char_of (int_add (int_rem square 8) (char_code "a")) in
  let row := char_of (int_add (int_sub 8 (int_div square 8)) (char_code "0")) in
  String col (String row EmptyString).

Record Move : Type := mkMove {
  m_from : Z;
  m_to : Z;
  m_piece : ascii;
  m_captured : ascii;
  m_special : ascii;
  m_last_enpassant : Z
}.

#[export] Instance Move_eq_dec : EqDecision Move.
Proof. solve_decision. Defined.

(** First character of a string ([s[0]]); the terminating NUL for [""]. *)
Definition str0 (s : string) : ascii :=
  match s with String c _ => c | EmptyString => NUL end.
Definition str1 (s : string) : ascii :=
  match s with String _ (String c _) => c | _ => NUL end.

Definition str2 (a b : ascii) : string := String a (String b EmptyString).

Definition is_pawn (c : ascii) : bool := tolower c =c "p".
Definition is_en_passant_special (c : ascii) : bool := tolower c =c "e".
Definition is_promotion_special (c : ascii) : bool :=
  negb (c =c NUL) && negb (tolower c =c "e").

Definition Move_to_string (m : Move) : string :=
  if tolower (m_piece m) =c "p" then
    let result := "" in
    let result :=
      if negb (m_captured m =c ".") || (tolower (m_special m) =c "e")
      then result +:+ str2 (str0 (square_string (m_from m))) "x"
      else result in
    let result := result +:+ square_string (m_to m) in
    let result :=
      if negb (m_special m =c NUL) && negb (tolower (m_special m) =c "e")
      then result +:+ str2 "=" (m_special m)
      else result in
    result
  else if negb (m_captured m =c ".") then
    String (toupper (m_piece m))
      (String "x" (str2 (str0 (square_string (m_to m)))
                        (str1 (square_string (m_to m)))))
  else
    String (toupper (m_piece m))
      (str2 (str0 (square_string (m_to m))) (str1 (square_string (m_to m)))).

Definition Move_to_full_string (m : Move) : string :=
  if tolower (m_piece m) =c "p" then
    let result := "" in
    let result := result +:+ square_string (m_from m) in
    let result :=
      if negb (m_captured m =c ".") then result +:+ "x" else result +:+ "-" in
    let result := result +:+ square_string (m_to m) in
    let result :=
      if negb (m_special m =c NUL) && negb (tolower (m_special m) =c "e")
      then result +:+ str2 "=" (m_special m)
      else result in
    result
  else if negb (m_captured m =c ".") then
    String (toupper (m_piece m))
      (str2 (str0 (square_string (m_from m))) (str1 (square_string (m_from m)))
       +:+ String "x"
         (str2 (str0 (square_string (m_to m))) (str1 (square_string (m_to m)))))
  else
    String (toupper (m_piece m))
      (str2 (str0 (square_string (m_from m))) (str1 (square_string (m_from m)))
       +:+ String "-"
         (str2 (str0 (square_string (m_to m))) (str1 (square_string (m_to m))))).


(** ** position.cpp: helpers *)

Definition are_valid_coords (col row : Z) : bool :=
  (0 <=? col) && (col <? 8) && (0 <=? row) && (row <? 8).

Definition get_square (col row : Z) : res Z :=
  if negb (are_valid_coords col row)
  then Err (Thrown "invalid square coordinates")
  else Ok (col + 8 * row).

(** [get_square(std::string)] *)
Definition get_square_str (str : string) : res Z :=
  get_square (char_code (tolower (str0 str)) - char_code "a")
             (8 - (char_code (tolower (str1 str)) - char_code "0")).

(** ** The piece multimap

    A slot holds the entry of one node, or nothing once the node is erased. *)

Abbreviation entry := (ascii * Z)%type.
Abbreviation slots := (list (option entry)).

(** The entries, in the order of their slots. *)
Definition live (ps : slots) : list entry := omap id ps.

(** [m_pieces.size()] *)
Definition pieces_size (ps : slots) : Z := Z.of_nat (length (live ps)).

(** [m_pieces.find(key)]: an iterator to an entry with that key, or [end()]. *)
Definition pieces_find (key : ascii) (ps : slots) : option nat :=
  fst <$> list_find (fun s : option entry => fst <$> s = Some key) ps.

(** [Position::get_piece]: the iterator to the entry [(piece, square)], or
    [end()]. *)
Definition get_piece (ps : slots) (piece : ascii) (square : Z) : option nat :=
  fst <$> list_find (fun s : option entry => s = Some (piece, square)) ps.

(** Dereferencing an iterator; the node must still exist. *)
Definition deref (ps : slots) (it : nat) : res entry :=
  match ps !! it with
  | Some (Some e) => Ok e
  | _ => Err Undefined
  end.

(** [m_pieces.erase(it)] *)
Definition pieces_erase (it : nat) (ps : slots) : res slots :=
  do _ <- deref ps it;
  Ok (<[it := None]> ps).

(** [m_pieces.insert({piece, square})]: a new node.  Where the entry comes
    in the iteration of the container is not said by its place among the
    slots (see [pseudo_legal_moves_in]). *)
Definition pieces_insert (e : entry) (ps : slots) : slots := ps ++ [Some e].

(** [it->second = square] *)
Definition set_second (it : nat) (square : Z) (ps : slots) : res slots :=
  do e <- deref ps it;
  Ok (<[it := Some (fst e, square)]> ps).

(** ** The position *)

Record Position : Type := mkPosition {
  m_board : list ascii;        (* the 64 squares; the cell at index 64 holds
                                  the terminating NUL and is left out, unless
                                  the FEN reader overwrote it: then it is the
                                  65th entry *)
  m_to_move : ascii;
  m_en_passant : Z;
  m_pieces : slots;
  m_prev_moves : list Move     (* most recent move first *)
}.

(** [m_board[sq]], read and written; an index outside the 64 squares is
    undefined behaviour. *)
Definition board_at (b : list ascii) (sq : Z) : res ascii :=
  if (0 <=? sq) && (sq <? 64) then
    match b !! Z.to_nat sq with
    | Some c => Ok c
    | None => Err Undefined
    end
  else Err Undefined.

Definition board_set (b : list ascii) (sq : Z) (c : ascii) : res (list ascii) :=
  if (0 <=? sq) && (sq <? 64) && (Z.to_nat sq <? length b)%nat
  then Ok (<[Z.to_nat sq := c]> b)
  else Err Undefined.

(** The standard library functions whose results the sources rely on but do
    not define. *)
Class StdHash : Type := {
  hash_string : string -> Z;   (* std::hash<std::string> *)
  hash_int : Z -> Z;           (* std::hash<int> *)
  hash_char : ascii -> Z       (* std::hash<char> *)
}.

(** [get_hash]: [m_board] is hashed as a C string, which is the text of the
    64 squares as long as the terminating NUL is in place behind them. *)
Definition get_hash `{StdHash} (pos : Position) : Z :=
  let h1 := hash_string (string_of_list_ascii (m_board pos)) in
  let h2 := hash_int (m_en_passant pos) in
  let h3 := hash_char (m_to_move pos) in
  Z.lxor (Z.lxor h1 (wrap64 (Z.shiftl h2 1))) (wrap64 (Z.shiftl h3 2)).

(** [for (x : l) body], with the loop state threaded and errors propagated. *)
Fixpoint for_each {A S : Type} (l : list A) (s : S) (body : A -> S -> res S)
  : res S :=
  match l with
  | [] => Ok s
  | x :: l' => do s' <- body x s; for_each l' s' body
  end.

(** ** Attack detection *)

Definition knight_offsets : list (Z * Z) :=
  [(1,2); (2,1); (-1,2); (-2,1); (-1,-2); (-2,-1); (1,-2); (2,-1)].
Definition king_offsets : list (Z * Z) :=
  [(1,-1); (-1,1); (1,1); (-1,-1); (1,0); (-1,0); (0,1); (0,-1)].
Definition rook_dirs : list (Z * Z) := [(1,0); (-1,0); (0,1); (0,-1)].
Definition bishop_dirs : list (Z * Z) := [(1,1); (-1,1); (1,-1); (-1,-1)].
Definition bishop_move_dirs : list (Z * Z) := [(1,-1); (-1,1); (1,1); (-1,-1)].

(** One of the three non-sliding loops of [square_hit]: is there a piece of
    kind [kind] (lower case) and of the queried colour on one of the offsets? *)
Fixpoint offset_hit (b : list ascii) (col row : Z) (by_white : bool)
    (kind : ascii) (offs : list (Z * Z)) : res bool :=
  match offs with
  | [] => Ok false
  | cds :: offs' =>
      if negb (are_valid_coords (col + fst cds) (row + snd cds))
      then offset_hit b col row by_white kind offs'
      else
        do sq <- get_square (col + fst cds) (row + snd cds);
        do p <- board_at b sq;
        if (tolower p =c kind) && eqb by_white (is_upper p)
        then Ok true
        else offset_hit b col row by_white kind offs'
  end.

(** The [while] loop along one ray: [true] when it returns true, [false]
    when it leaves the board or breaks on a blocking piece. *)
Fixpoint ray_hit (fuel : nat) (b : list ascii) (by_white : bool)
    (k1 k2 : ascii) (cds curr : Z * Z) : res bool :=
  match fuel with
  | O => Err OutOfFuel
  | S fuel' =>
      if are_valid_coords (fst curr) (snd curr) then
        do sq <- get_square (fst curr) (snd curr);
        do p <- board_at b sq;
        if negb (p =c ".") then
          if eqb by_white (is_upper p) &&
             ((tolower p =c k1) || (tolower p =c k2))
          then Ok true
          else Ok false
        else ray_hit fuel' b by_white k1 k2 cds
               (fst curr + fst cds, snd curr + snd cds)
      else Ok false
  end.

Fixpoint rays_hit (b : list ascii) (col row : Z) (by_white : bool)
    (k1 k2 : ascii) (dirs : list (Z * Z)) : res bool :=
  match dirs with
  | [] => Ok false
  | cds :: dirs' =>
      do h <- ray_hit 9 b by_white k1 k2 cds (col + fst cds, row + snd cds);
      if h then Ok true else rays_hit b col row by_white k1 k2 dirs'
  end.

Definition square_hit_board (b : list ascii) (square : Z) (by_white : bool)
  : res bool :=
  let col := int_rem square 8 in
  let row := int_div square 8 in
  do h <- offset_hit b col row by_white "n" knight_offsets;
  if h then Ok true else
  let pawn_dirs : list (Z * Z) :=
    if by_white then [(1,1); (-1,1)] else [(1,-1); (-1,-1)] in
  do h <- offset_hit b col row by_white "p" pawn_dirs;
  if h then Ok true else
  do h <- offset_hit b col row by_white "k" king_offsets;
  if h then Ok true else
  do h <- rays_hit b col row by_white "r" "q" rook_dirs;
  if h then Ok true else
  do h <- rays_hit b col row by_white "b" "q" bishop_dirs;
  if h then Ok true else
  Ok false.

Definition square_hit (pos : Position) (square : Z) (by_white : bool)
  : res bool :=
  square_hit_board (m_board pos) square by_white.

(** ** Pseudo-legal moves *)

(** The promotion fan-out shared by pawn captures and pawn pushes. *)
Definition pawn_arrivals (square sq : Z) (piece captured : ascii) (ep : Z)
    (target_row : Z) : list Move :=
  if target_row =? 0 then
    map (fun p => mkMove square sq piece captured p ep)
        ["Q"; "R"; "N"; "B"]%char
  else if target_row =? 7 then
    map (fun p => mkMove square sq piece captured p ep)
        ["q"; "r"; "n"; "b"]%char
  else [mkMove square sq piece captured NUL ep].

(** The loop over the eight offsets of a knight or a king. *)
Definition step_moves (b : list ascii) (ep : Z) (piece : ascii)
    (square col row : Z) (offs : list (Z * Z)) : res (list Move) :=
  for_each offs [] (fun cds result =>
    if negb (are_valid_coords (col + fst cds) (row + snd cds))
    then Ok result
    else
      do sq <- get_square (col + fst cds) (row + snd cds);
      do t <- board_at b sq;
      if (t =c ".") || negb (eqb (is_upper piece) (is_upper t))
      then
        do sq' <- get_square (col + fst cds) (row + snd cds);
        Ok (result ++ [mkMove square sq' piece t NUL ep])
      else Ok result).

(** The [while] loop of a sliding piece along one direction. *)
Fixpoint ray_moves (fuel : nat) (b : list ascii) (ep : Z) (piece : ascii)
    (square : Z) (cds curr : Z * Z) (result : list Move) : res (list Move) :=
  match fuel with
  | O => Err OutOfFuel
  | S fuel' =>
      if are_valid_coords (fst curr) (snd curr) then
        do sq <- get_square (fst curr) (snd curr);
        do t <- board_at b sq;
        if negb (t =c ".") && eqb (is_upper piece) (is_upper t)
        then Ok result
        else
          do sq' <- get_square (fst curr) (snd curr);
          let result := result ++ [mkMove square sq' piece t NUL ep] in
          if negb (t =c ".") then Ok result
          else ray_moves fuel' b ep piece square cds
                 (fst curr + fst cds, snd curr + snd cds) result
      else Ok result
  end.

Definition slide_moves (b : list ascii) (ep : Z) (piece : ascii)
    (square col row : Z) (dirs : list (Z * Z)) : res (list Move) :=
  for_each dirs [] (fun cds result =>
    ray_moves 9 b ep piece square cds (col + fst cds, row + snd cds) result).

Definition pawn_moves (b : list ascii) (ep : Z) (piece : ascii)
    (square col row : Z) : res (list Move) :=
  let dir := if is_upper piece then -1 else 1 in
  do result <- for_each [1; -1] [] (fun c_dir result =>
    if negb (are_valid_coords (col + c_dir) (row + dir))
    then Ok result
    else
      do sq <- get_square (col + c_dir) (row + dir);
      do t <- board_at b sq;
      if negb (t =c ".") && negb (eqb (is_upper t) (is_upper piece))
      then Ok (result ++ pawn_arrivals square sq piece t ep (row + dir))
      else if sq =? ep
      then Ok (result ++ [mkMove square sq piece t
                            (if is_upper piece then "E" else "e")%char ep])
      else Ok result);
  do sq1 <- get_square col (row + dir);
  do t1 <- board_at b sq1;
  do result <-
    (if t1 =c "."
     then
       do sq <- get_square col (row + dir);
       Ok (result ++ pawn_arrivals square sq piece "." ep (row + dir))
     else Ok result);
  if (is_upper piece && (row =? 6)) || (negb (is_upper piece) && (row =? 1))
  then
    do s1 <- get_square col (row + dir);
    do u1 <- board_at b s1;
    if u1 =c "." then
      do s2 <- get_square col (row + 2 * dir);
      do u2 <- board_at b s2;
      if u2 =c "." then
        do sq <- get_square col (row + 2 * dir);
        Ok (result ++ [mkMove square sq piece "." NUL ep])
      else Ok result
    else Ok result
  else Ok result.

Definition find_pseudo_legal_moves (pos : Position) (piece : ascii)
    (square : Z) : res (list Move) :=
  let b := m_board pos in
  let ep := m_en_passant pos in
  let col := int_rem square 8 in
  let row := int_div square 8 in
  let kind := tolower piece in
  if kind =c "p" then pawn_moves b ep piece square col row
  else if kind =c "n" then step_moves b ep piece square col row knight_offsets
  else if kind =c "k" then step_moves b ep piece square col row king_offsets
  else if kind =c "q" then slide_moves b ep piece square col row king_offsets
  else if kind =c "b" then slide_moves b ep piece square col row bishop_move_dirs
  else if kind =c "r" then slide_moves b ep piece square col row rook_dirs
  else Ok [].

(** ** Make and undo *)

Definition flip_to_move (c : ascii) : ascii :=
  if c =c "w" then "b"%char else "w"%char.

Definition found_or_throw (it : option nat) (msg : string) : res nat :=
  match it with
  | Some i => Ok i
  | None => Err (Thrown msg)
  end.

Definition perform_move (pos : Position) (move : Move) : res Position :=
  let ps := m_pieces pos in
  do moved_piece <-
    found_or_throw (get_piece ps (m_piece move) (m_from move))
                   "moving piece not found";
  do ps <-
    (if negb (m_captured move =c ".") then
       do taken_piece <-
         found_or_throw (get_piece ps (m_captured move) (m_to move))
                        "taken piece not found";
       pieces_erase taken_piece ps
     else Ok ps);
  do ps <- set_second moved_piece (m_to move) ps;
  do b <- board_set (m_board pos) (m_from move) ".";
  do b <- board_set b (m_to move) (m_piece move);
  let prev := move :: m_prev_moves pos in
  do '(ps, b) <-
    (if negb (m_special move =c NUL) then
       if negb (eqb (is_upper (m_piece move)) (is_upper (m_special move)))
       then Err (Thrown "invalid special side")
       else if m_special move =c "e" then
         do taken <-
           found_or_throw (get_piece ps "P" (int_sub (m_to move) 8))
                          "couldn't find target of en passant";
         do ps <- pieces_erase taken ps;
         do b <- board_set b (int_sub (m_to move) 8) ".";
         Ok (ps, b)
       else if m_special move =c "E" then
         do taken <-
           found_or_throw (get_piece ps "p" (int_add (m_to move) 8))
                          "couldn't find target of en passant";
         do ps <- pieces_erase taken ps;
         do b <- board_set b (int_add (m_to move) 8) ".";
         Ok (ps, b)
       else
         do ps <- pieces_erase moved_piece ps;
         let ps := pieces_insert (m_special move, m_to move) ps in
         do b <- board_set b (m_to move) (m_special move);
         Ok (ps, b)
     else Ok (ps, b));
  let ep :=
    if (tolower (m_piece move) =c "p") &&
       (int_abs (int_sub (m_from move) (m_to move)) =? 16)
    then int_div (int_add (m_to move) (m_from move)) 2
    else -1 in
  Ok (mkPosition b (flip_to_move (m_to_move pos)) ep ps prev).

Definition undo_move (pos : Position) : res Position :=
  match m_prev_moves pos with
  | [] => Err Undefined
  | move :: prev =>
      let ps := m_pieces pos in
      do c <- board_at (m_board pos) (m_to move);
      do moved_piece <-
        found_or_throw (get_piece ps c (m_to move)) "moving piece not found";
      let ps :=
        if negb (m_captured move =c ".")
        then pieces_insert (m_captured move, m_to move) ps
        else ps in
      do ps <- set_second moved_piece (m_from move) ps;
      do b <- board_set (m_board pos) (m_from move) (m_piece move);
      do b <- board_set b (m_to move) (m_captured move);
      do '(ps, b) <-
        (if negb (m_special move =c NUL) then
           if negb (eqb (is_upper (m_piece move)) (is_upper (m_special move)))
           then Err (Thrown "invalid special side")
           else if m_special move =c "e" then
             let ps := pieces_insert ("P"%char, int_sub (m_to move) 8) ps in
             do b <- board_set b (int_sub (m_to move) 8) "P";
             Ok (ps, b)
           else if m_special move =c "E" then
             let ps := pieces_insert ("p"%char, int_add (m_to move) 8) ps in
             do b <- board_set b (int_add (m_to move) 8) "p";
             Ok (ps, b)
           else
             do ps <- pieces_erase moved_piece ps;
             let ps := pieces_insert (m_piece move, m_from move) ps in
             do b <- board_set b (m_from move) (m_piece move);
             Ok (ps, b)
         else Ok (ps, b));
      Ok (mkPosition b (flip_to_move (m_to_move pos))
                     (m_last_enpassant move) ps prev)
  end.

(** ** Legal moves *)

(** The first loop of [get_possible_moves], [for (auto piece : m_pieces)]:
    the pseudo-legal moves of every piece of the side to move.  The order
    in which an unordered container hands out its entries is not fixed by
    the language, so the loop is written for an order given as a list. *)
Definition pseudo_legal_moves_in (order : list entry) (pos : Position)
  : res (list Move) :=
  for_each order [] (fun piece pseudo_legal =>
    if negb (eqb (is_upper (fst piece)) (m_to_move pos =c "w"))
    then Ok pseudo_legal
    else
      do moves <- find_pseudo_legal_moves pos (fst piece) (snd piece);
      Ok (pseudo_legal ++ moves)).

(** The loop in the order of the model, the order of the slots. *)
Definition pseudo_legal_moves (pos : Position) : res (list Move) :=
  pseudo_legal_moves_in (live (m_pieces pos)) pos.

(** The test [!square_hit(king->second, !is_upper(king->first))] of the
    second loop. *)
Definition king_not_hit (king : option nat) (pos : Position) : res bool :=
  do k <- (match king with
           | Some it => deref (m_pieces pos) it
           | None => Err Undefined
           end);
  do hit <- square_hit pos (snd k) (negb (is_upper (fst k)));
  Ok (negb hit).

(** The body of the second loop: make the move, look at the king, undo. *)
Definition try_move (king : option nat) (move : Move)
    (st : Position * list Move) : res (Position * list Move) :=
  let '(pos, legal_moves) := st in
  do pos <- perform_move pos move;
  do safe <- king_not_hit king pos;
  let legal_moves := if safe then legal_moves ++ [move] else legal_moves in
  do pos <- undo_move pos;
  Ok (pos, legal_moves).

(** [get_possible_moves] returns the legal moves; the position it worked on
    is returned with them.  First for a given iteration order of
    [m_pieces], then in the order of the model. *)
Definition get_possible_moves_in (order : list entry) (pos : Position)
  : res (Position * list Move) :=
  let king :=
    pieces_find (if m_to_move pos =c "w" then "K" else "k")%char
                (m_pieces pos) in
  do pseudo_legal <- pseudo_legal_moves_in order pos;
  for_each pseudo_legal (pos, []) (try_move king).

Definition get_possible_moves (pos : Position)
  : res (Position * list Move) :=
  get_possible_moves_in (live (m_pieces pos)) pos.

(** ** FEN decode and encode *)

(** [FEN[j]], where [rest] is the text from index [j] on: reading at the end
    of the string gives the terminating NUL. *)
Definition peek (rest : string) : ascii := str0 rest.

(** [j++] followed by a read of [FEN[j]]: moving past the terminating NUL
    leaves the string. *)
Definition advance (rest : string) : res string :=
  match rest with
  | String _ rest' => Ok rest'
  | EmptyString => Err Undefined
  end.

(** [FEN.substr(j, 2)] *)
Definition substr2 (rest : string) : string :=
  match rest with
  | String a (String b _) => str2 a b
  | String a EmptyString => String a EmptyString
  | EmptyString => EmptyString
  end.

(** The inner [for] loop writing [k] empty squares from index [i] on.  The
    squares are written in index order, so the board built so far is the list
    of the first [i] cells.  The loop does not look at [i]: [m_board] has 65
    cells, so a run that passes the last square writes the cell at index 64,
    which held the terminating NUL (the list then has 65 entries); a write
    at index 65 is outside the array. *)
Fixpoint fen_empties (k : nat) (i : Z) (b : list ascii) : res (Z * list ascii) :=
  match k with
  | O => Ok (i, b)
  | S k' =>
      if i <? 65 then fen_empties k' (i + 1) (b ++ ["."%char])
      else Err Undefined
  end.

(** The [while (i < 64)] loop; every iteration consumes one character. *)
Fixpoint fen_board (rest : string) (i : Z) (b : list ascii) (ps : slots)
  : res (string * list ascii * slots) :=
  if negb (i <? 64) then Ok (rest, b, ps) else
  match rest with
  | EmptyString => Err Undefined
  | String c rest' =>
      if c =c "/" then fen_board rest' i b ps
      else if (char_code "0" <=? char_code c) && (char_code c <=? char_code "9")
      then
        do '(i, b) <- fen_empties (Z.to_nat (char_code c - char_code "0")) i b;
        fen_board rest' i b ps
      else
        fen_board rest' (i + 1) (b ++ [c]) (pieces_insert (c, i) ps)
  end.

(** [while (FEN[j] != ' ') j++] *)
Fixpoint skip_castles (rest : string) : res string :=
  match rest with
  | EmptyString => Err Undefined
  | String c rest' => if c =c " " then Ok rest else skip_castles rest'
  end.

(** [Position::Position(std::string FEN)] *)
Definition Position_of_FEN (FEN : string) : res Position :=
  do '(rest, b, ps) <- fen_board FEN 0 [] [];
  do rest <- advance rest;
  let to_move := peek rest in
  do rest <- advance rest;
  do rest <- advance rest;
  do rest <- skip_castles rest;
  do rest <- advance rest;
  do ep <- (if peek rest =c "-" then Ok (-1) else get_square_str (substr2 rest));
  Ok (mkPosition b to_move ep ps []).

(** [std::to_string(int)] *)
Definition std_to_string (z : Z) : string := pretty z.

Definition flush_empty (st : string * Z) : string * Z :=
  let '(result, empty_buffer) := st in
  if 0 <? empty_buffer
  then (result +:+ std_to_string empty_buffer, 0)
  else (result, empty_buffer).

(** The body of the loop of [get_fen] over the squares. *)
Definition fen_square (b : list ascii) (i : Z) (st : string * Z)
  : res (string * Z) :=
  do c <- board_at b i;
  let st :=
    if c =c "."
    then (fst st, int_add (snd st) 1)
    else
      let '(result, empty_buffer) := flush_empty st in
      (result +:+ String c EmptyString, empty_buffer) in
  if int_rem i 8 =? 7 then
    let '(result, empty_buffer) := flush_empty st in
    if negb (i =? 63) then Ok (result +:+ "/", empty_buffer)
    else Ok (result, empty_buffer)
  else Ok st.

Definition get_fen (pos : Position) : res string :=
  do '(result, _) <- for_each (seqZ 0 64) ("", 0) (fen_square (m_board pos));
  let result := result +:+ " " in
  let result := result +:+ String (m_to_move pos) EmptyString in
  let result := result +:+ " - " in
  let result :=
    if m_en_passant pos =? -1 then result +:+ "-"
    else result +:+ square_string (m_en_passant pos) in
  let result := result +:+ " 0 1" in
  Ok result.

(** [Position::Position()] *)
Definition Position_start : res Position :=
  Position_of_FEN "rnbqkbnr/pppppppp/8/8/8/8/PPPPPPPP/RNBQKBNR w KQkq - 0 1".

(** ** The constructor from piece lists *)

(** [get_square(s.substr(1, 2))] for a piece string that is no pawn's:
    [substr] throws [std::out_of_range] on the empty string (written here as
    a thrown value of that name), and [get_square] reads [str[1]] of an
    empty string when the piece string has one character. *)
Definition piece_square (s : string) : res Z :=
  match s with
  | EmptyString => Err (Thrown "std::out_of_range")
  | String _ EmptyString => Err Undefined
  | String _ rest => get_square_str (substr2 rest)
  end.

(** The body of the two loops over the piece strings: a string of two
    characters is a pawn's square, any other is a piece letter followed by
    its square. *)
Definition place_piece (white : bool) (s : string)
    (st : list ascii * slots) : res (list ascii * slots) :=
  let '(b, ps) := st in
  if (String.length s =? 2)%nat then
    do sq <- get_square_str s;
    let c := (if white then "P" else "p")%char in
    let ps := pieces_insert (c, sq) ps in
    do b <- board_set b sq c;
    Ok (b, ps)
  else
    do sq <- piece_square s;
    let c := if white then toupper (str0 s) else tolower (str0 s) in
    let ps := pieces_insert (c, sq) ps in
    do b <- board_set b sq c;
    Ok (b, ps).

(** [Position::Position(white_pieces, black_pieces, to_move,
    en_passant_square)] *)
Definition Position_of_pieces (white_pieces black_pieces : list string)
    (to_move : ascii) (en_passant_square : string) : res Position :=
  do st <- for_each white_pieces (replicate 64 "."%char, []) (place_piece true);
  do '(b, ps) <- for_each black_pieces st (place_piece false);
  do ep <- (if (String.length en_passant_square =? 2)%nat
            then get_square_str en_passant_square
            else Ok (-1));
  Ok (mkPosition b to_move ep ps []).

(** ** The printable board *)

Definition LF : ascii := "010"%char.

(** [Position::to_string] *)
Definition Position_to_string (pos : Position) : res string :=
  let txt := "#  a b c d e f g h  #" +:+ String LF (String LF "") in
  do txt <- for_each (seqZ 0 8) txt (fun i txt =>
    let txt := txt +:+ (std_to_string (int_sub 8 i) +:+ "  ") in
    do txt <- for_each (seqZ 0 8) txt (fun j txt =>
      do sq <- get_square j i;
      do piece <- board_at (m_board pos) sq;
      Ok ((txt +:+ String piece "") +:+ " "));
    Ok (txt +:+ ((" " +:+ std_to_string (int_sub 8 i)) +:+ String LF "")));
  let txt := txt +:+ (String LF "#  a b c d e f g h  #" +:+ String LF "") in
  if m_to_move pos =c "w"
  then Ok (txt +:+ ("white to move" +:+ String LF ""))
  else Ok (txt +:+ ("black to move" +:+ String LF "")).

(** ** engine.cpp *)

(** [std::sort], of which the sources fix only the comparator: it returns
    some rearrangement of its input. *)
Class StdSort : Type := {
  std_sort : (Z * Move -> Z * Move -> bool) -> list (Z * Move) -> list (Z * Move)
}.

Definition sort_permutes `{StdSort} : Prop :=
  forall cmp l, Permutation (std_sort cmp l) l.

Module Engine.

(** [Cache]: position hash to (depth, evaluation). *)
Abbreviation Cache := (gmap Z (Z * Z)).

Definition piece_values (c : ascii) : option Z :=
  if c =c "K" then Some 1000
  else if c =c "Q" then Some 9
  else if c =c "R" then Some 5
  else if c =c "N" then Some 3
  else if c =c "B" then Some 3
  else if c =c "P" then Some 1
  else if c =c "k" then Some (-1000)
  else if c =c "q" then Some (-9)
  else if c =c "r" then Some (-5)
  else if c =c "n" then Some (-3)
  else if c =c "b" then Some (-3)
  else if c =c "p" then Some (-1)
  else None.

Definition MATE : Z := 1000000.
Definition MATE_THRESHOLD : Z := 2000.
Definition MIN_DEPTH : Z := 2.
Definition MAX_DEPTH : Z := 5.

Definition process_eval (num : Z) : Z :=
  if int_abs num <? MATE_THRESHOLD then num
  else if num >=? MATE_THRESHOLD then int_sub num 1
  else int_add num 1.

Definition get_eval_guess (hash : Z) (cache : Cache) : Z :=
  match cache !! hash with
  | Some cached_result => snd cached_result
  | None => 0
  end.

Definition sort_moves (a b : Z * Move) : bool := fst a >? fst b.

(** [cache->insert({hash, v})]: an existing entry is kept. *)
Definition cache_insert (hash : Z) (v : Z * Z) (cache : Cache) : Cache :=
  match cache !! hash with
  | Some _ => cache
  | None => <[hash := v]> cache
  end.

(** The write at the end of a search: through the iterator found on entry
    when there was one, by [insert] otherwise. *)
Definition cache_store (cached_result : option (Z * Z)) (hash : Z)
    (v : Z * Z) (cache : Cache) : Cache :=
  match cached_result with
  | Some _ => <[hash := v]> cache
  | None => cache_insert hash v cache
  end.

(** The test on entry: an entry whose depth is sufficient gives its value. *)
Definition cache_hit (cached_result : option (Z * Z)) (maxdepth : Z)
  : option Z :=
  match cached_result with
  | Some (d, v) => if d >=? maxdepth then Some v else None
  | None => None
  end.

(** The material count over [m_pieces]: a sum, the same in whatever order
    the entries are visited. *)
Definition material (position : Position) : res Z :=
  for_each (live (m_pieces position)) 0 (fun p result =>
    match piece_values (fst p) with
    | Some v => Ok (int_add result v)
    | None => Err Undefined
    end).

(** The loop computing the ordering keys of the moves. *)
Definition guess_moves `{StdHash} (cache : Cache) (possible_moves : list Move)
    (position : Position) : res (Position * list (Z * Move)) :=
  for_each possible_moves (position, []) (fun m st =>
    let '(position, ordered_moves) := st in
    do position <- perform_move position m;
    let guess := get_eval_guess (get_hash position) cache in
    do position <- undo_move position;
    Ok (position, ordered_moves ++ [(guess, m)])).

(** How the search loop is left: by the [return] of the alpha-beta cutoff,
    or by running through all moves with the best evaluation found. *)
Inductive loop_exit : Type :=
| Cutoff (result : Z)
| Completed (eval : Z).

Section search.
Context `{StdHash}.
(** The recursive call [evaluate(position, maxdepth-1, cache, -beta, -alfa)] *)
Variable recurse :
  Position -> Z -> Cache -> Z -> Z -> res (Z * Position * Cache).
Variables (maxdepth side beta : Z).

Fixpoint search (ordered_moves : list (Z * Move)) (position : Position)
    (cache : Cache) (eval alfa : Z) : res (loop_exit * Position * Cache) :=
  match ordered_moves with
  | [] => Ok (Completed eval, position, cache)
  | pr :: rest =>
      do position <- perform_move position (snd pr);
      do '(v, position, cache) <-
        recurse position (int_sub maxdepth 1) cache (int_neg beta) (int_neg alfa);
      let new_eval := int_mul v side in
      let '(eval, alfa) :=
        if new_eval >? eval
        then (new_eval, if new_eval >? alfa then new_eval else alfa)
        else (eval, alfa) in
      do position <- undo_move position;
      if process_eval eval >=? beta
      then Ok (Cutoff (int_mul (process_eval eval) side), position, cache)
      else search rest position cache eval alfa
  end.
End search.

Fixpoint evaluate_rec `{StdHash} `{StdSort} (fuel : nat) (position : Position)
    (maxdepth : Z) (cache : Cache) (alfa beta : Z)
  : res (Z * Position * Cache) :=
  let hash := get_hash position in
  let cached_result := cache !! hash in
  match cache_hit cached_result maxdepth with
  | Some v => Ok (v, position, cache)
  | None =>
  do '(position, possible_moves) <- get_possible_moves position;
  let side := if m_to_move position =c "w" then 1 else -1 in
  do early <-
    (if (length possible_moves =? 0)%nat then
       let king :=
         pieces_find (if m_to_move position =c "w" then "K" else "k")%char
                     (m_pieces position) in
       do k <- (match king with
                | Some it => deref (m_pieces position) it
                | None => Err Undefined
                end);
       do hit <- square_hit position (snd k)
                   (negb (m_to_move position =c "w"));
       if hit
       then Ok (Some (int_mul (int_neg side) MATE,
                      cache_insert hash (INT_MAX, int_mul (int_neg side) MATE)
                                   cache))
       else Ok (Some (0, cache_insert hash (INT_MAX, 0) cache))
     else if pieces_size (m_pieces position) <=? 2 then
       Ok (Some (0, cache_insert hash (INT_MAX, 0) cache))
     else Ok None);
  match early with
  | Some (v, cache) => Ok (v, position, cache)
  | None =>
  if maxdepth <=? 0 then
    do result <- material position;
    Ok (result, position, cache_store cached_result hash (maxdepth, result) cache)
  else
    match fuel with
    | O => Err OutOfFuel
    | S fuel' =>
        let eval := int_neg MATE in
        do '(position, ordered_moves) <-
          guess_moves cache possible_moves position;
        let ordered_moves := std_sort sort_moves ordered_moves in
        do '(exit, position, cache) <-
          search (evaluate_rec fuel') maxdepth side beta ordered_moves
                 position cache eval alfa;
        match exit with
        | Cutoff result => Ok (result, position, cache)
        | Completed eval =>
            let depth :=
              if int_abs eval >? MATE_THRESHOLD then INT_MAX else maxdepth in
            Ok (int_mul (process_eval eval) side, position,
                cache_store cached_result hash
                  (depth, int_mul (process_eval eval) side) cache)
        end
    end
  end
  end.

(** [evaluate]: the recursion goes [maxdepth] levels down. *)
Definition evaluate `{StdHash} `{StdSort} (position : Position) (maxdepth : Z)
    (cache : Cache) (alfa beta : Z) : res (Z * Position * Cache) :=
  evaluate_rec (Z.to_nat maxdepth) position maxdepth cache alfa beta.

(** The call with the default window, [evaluate(position, maxdepth, cache)]. *)
Definition evaluate_default `{StdHash} `{StdSort} (position : Position)
    (maxdepth : Z) (cache : Cache) : res (Z * Position * Cache) :=
  evaluate position maxdepth cache (int_neg MATE) MATE.

Definition iter_evaluate `{StdHash} `{StdSort} (position : Position)
    (maxdepth : Z) (cache : Cache) : res (Z * Position * Cache) :=
  do '(position, cache) <-
    for_each (seqZ 1 maxdepth) (position, cache) (fun depth st =>
      let '(position, cache) := st in
      do '(_, position, cache) <- evaluate_default position depth cache;
      Ok (position, cache));
  evaluate_default position maxdepth cache.

(** The number of moves to mate printed by [find_fastest_mate]. *)
Definition mate_in (eval : Z) : Z :=
  int_div (int_add (int_sub MATE (int_abs eval)) 1) 2.

(** The loop of [find_fastest_mate] over the remaining depths. *)
Fixpoint fastest_mate_loop `{StdHash} `{StdSort} (depths : list Z)
    (position : Position) (cache : Cache) : res (string * Position * Cache) :=
  match depths with
  | [] => Ok ("Unknown result", position, cache)
  | depth :: rest =>
      do '(eval, position, cache) <-
        evaluate_default position (int_mul 2 depth) cache;
      if int_abs eval >? MATE_THRESHOLD then
        let s := if eval >? 0 then "White " else "Black " in
        let s := s +:+ "mates in " in
        let s := s +:+ std_to_string (mate_in eval) in
        Ok (s, position, cache)
      else fastest_mate_loop rest position cache
  end.

Definition find_fastest_mate `{StdHash} `{StdSort} (position : Position)
    (max_moves : Z) (cache : Cache) : res (string * Position * Cache) :=
  fastest_mate_loop (seqZ 0 max_moves) position cache.

(** The loop of [play_random_best] over the shuffled moves. *)
Fixpoint play_loop `{StdHash} `{StdSort} (moves : list Move) (target : Z)
    (max_depth : Z) (position : Position) (cache : Cache)
  : res (Position * Cache) :=
  match moves with
  | [] => Err (Thrown "Could't play random best, internal logic error")
  | m :: rest =>
      do position <- perform_move position m;
      do '(v, position, cache) <-
        iter_evaluate position (int_sub max_depth 1) cache;
      if process_eval v =? target then Ok (position, cache)
      else
        do position <- undo_move position;
        play_loop rest target max_depth position cache
  end.

(** [play_random_best]; [random_shuffle] is what [std::random_shuffle] does
    with the process-wide generator at this call. *)
Definition play_random_best `{StdHash} `{StdSort}
    (random_shuffle : list Move -> list Move)
    (position : Position) (max_depth : Z) (cache : Cache)
  : res (Position * Cache) :=
  do '(position, moves) <- get_possible_moves position;
  let moves := random_shuffle moves in
  if (length moves =? 0)%nat then Ok (position, cache)
  else
    let cache := delete (get_hash position) cache in
    do '(target, position, cache) <- iter_evaluate position max_depth cache;
    play_loop moves target max_depth position cache.

(** [is_solution]: the move is tried on the position and taken back. *)
Definition is_solution `{StdHash} `{StdSort} (puzzle : Position) (move : Move)
    (cache : Cache) : res (bool * Position * Cache) :=
  do '(eval, puzzle, cache) <- evaluate_default puzzle MIN_DEPTH cache;
  do puzzle <- perform_move puzzle move;
  do '(v, puzzle, cache) <-
    iter_evaluate puzzle (int_sub (int_sub MATE (int_abs eval)) 1) cache;
  if process_eval v =? eval then
    do puzzle <- undo_move puzzle;
    Ok (true, puzzle, cache)
  else
    do puzzle <- undo_move puzzle;
    Ok (false, puzzle, cache).

End Engine.

(** ** Concrete library instances, for running the model *)

(** A polynomial string hash; [std::hash] of an integer type is the value. *)
Definition poly_hash (s : string) : Z :=
  fold_left (fun h c => wrap64 (h * 131 + char_code c)) (list_ascii_of_string s) 7.

Definition demo_hash : StdHash :=
  {| hash_string := poly_hash;
     hash_int := fun z => wrap64 z;
     hash_char := char_code |}.

Fixpoint insert_sorted (cmp : Z * Move -> Z * Move -> bool) (x : Z * Move)
    (l : list (Z * Move)) : list (Z * Move) :=
  match l with
  | [] => [x]
  | y :: l' => if cmp y x then y :: insert_sorted cmp x l' else x :: l
  end.

Definition insertion_sort (cmp : Z * Move -> Z * Move -> bool)
    (l : list (Z * Move)) : list (Z * Move) :=
  foldr (insert_sorted cmp) [] l.

Definition demo_sort : StdSort := {| std_sort := insertion_sort |}.

(** ** Concrete positions *)

Definition position_of (r : res Position) : Position :=
  match r with
  | Ok p => p
  | Err _ => mkPosition [] "w" (-1) [] []
  end.

Definition start_position : Position :=
  Eval vm_compute in position_of Position_start.

(** A white rook pinned on the e-file by a black rook. *)
Definition pinned_rook_position : Position :=
  Eval vm_compute in
    position_of (Position_of_FEN "4r2k/8/8/8/8/8/4R3/4K3 w - - 0 1").

Definition legal_moves_of (pos : Position) : list Move :=
  match get_possible_moves pos with
  | Ok (_, legal) => legal
  | Err _ => []
  end.

(** Black to move and stalemated; black to move and mated on the back
    rank. *)
Definition stalemate_position : Position :=
  Eval vm_compute in
    position_of (Position_of_FEN "7k/5K2/6Q1/8/8/8/8/8 b - - 0 1").

Definition back_rank_mate_position : Position :=
  Eval vm_compute in
    position_of (Position_of_FEN "R6k/5ppp/8/8/8/8/8/6K1 b - - 0 1").

(** White to move with a pawn on a7; bare kings. *)
Definition promotion_position : Position :=
  Eval vm_compute in
    position_of (Position_of_FEN "7k/P7/8/8/8/8/8/7K w - - 0 1").

Definition bare_kings_position : Position :=
  Eval vm_compute in
    position_of (Position_of_FEN "8/8/3k4/8/3K4/8/8/8 w - - 0 1").

(** ** Invariants of the data model *)

(** The entry a board square stands for: none for an empty square. *)
Definition cell (c : ascii) (s : Z) : gmultiset entry :=
  if c =c "." then ∅ else {[+ (c, s) +]}.

Fixpoint cells_from (i : Z) (b : list ascii) : gmultiset entry :=
  match b with
  | [] => ∅
  | c :: b' => cell c i ⊎ cells_from (i + 1) b'
  end.

(** The multiset of (piece, square) pairs a board shows, and the one the
    multimap holds. *)
Definition board_entries (b : list ascii) : gmultiset entry := cells_from 0 b.
Definition pieces_set (ps : slots) : gmultiset entry :=
  list_to_set_disj (live ps).

Definition slot_set (o : option entry) : gmultiset entry :=
  match o with Some e => {[+ e +]} | None => ∅ end.

(** [board] and [pieces] agree; the board has its 64 squares; one of the two
    sides is to move. *)
Record wf (pos : Position) : Prop := mk_wf {
  wf_length : length (m_board pos) = 64%nat;
  wf_agree : pieces_set (m_pieces pos) = board_entries (m_board pos);
  wf_to_move : m_to_move pos = "w"%char \/ m_to_move pos = "b"%char
}.

(** Exactly one 'K' and one 'k'. *)
Definition king_count (c : ascii) (pos : Position) : nat :=
  length (filter (fun e : entry => fst e = c) (live (m_pieces pos))).

Definition one_king_each (pos : Position) : Prop :=
  king_count "K" pos = 1%nat /\ king_count "k" pos = 1%nat.

(** Two states of the position object that differ at most in the order in
    which the multimap holds its entries. *)
Record same_position (p q : Position) : Prop := mk_same {
  same_board : m_board p = m_board q;
  same_to_move : m_to_move p = m_to_move q;
  same_en_passant : m_en_passant p = m_en_passant q;
  same_pieces : Permutation (live (m_pieces p)) (live (m_pieces q));
  same_history : m_prev_moves p = m_prev_moves q
}.

(** What every generated move records about the board it was generated on. *)
Record move_ok (b : list ascii) (ep : Z) (m : Move) : Prop := mk_move_ok {
  ok_piece : board_at b (m_from m) = Ok (m_piece m);
  ok_piece_real : m_piece m <> "."%char;
  ok_captured : board_at b (m_to m) = Ok (m_captured m);
  ok_distinct : m_from m <> m_to m;
  ok_special : m_special m <> "."%char;
  ok_last : m_last_enpassant m = ep
}.

(** What [perform_move] checks about a special move before it changes the
    position for it. *)
Definition special_ok (b : list ascii) (m : Move) : Prop :=
  m_special m = NUL \/
  (is_upper (m_piece m) = is_upper (m_special m) /\
   (m_special m = "e"%char -> board_at b (m_to m - 8) = Ok "P"%char) /\
   (m_special m = "E"%char -> board_at b (m_to m + 8) = Ok "p"%char)).

Definition put (sq : Z) (c : ascii) (b : list ascii) : list ascii :=
  <[Z.to_nat sq := c]> b.

(** The board after a move, and the board before it. *)
Definition board_after (b : list ascii) (m : Move) : list ascii :=
  let b := put (m_to m) (m_piece m) (put (m_from m) "." b) in
  if m_special m =c NUL then b
  else if m_special m =c "e" then put (m_to m - 8) "." b
  else if m_special m =c "E" then put (m_to m + 8) "." b
  else put (m_to m) (m_special m) b.

Definition board_before (b : list ascii) (m : Move) : list ascii :=
  let b := put (m_to m) (m_captured m) (put (m_from m) (m_piece m) b) in
  if m_special m =c NUL then b
  else if m_special m =c "e" then put (m_to m - 8) "P" b
  else if m_special m =c "E" then put (m_to m + 8) "p" b
  else put (m_from m) (m_piece m) b.

(** The en-passant square after a move. *)
Definition en_passant_after (m : Move) : Z :=
  if (tolower (m_piece m) =c "p") &&
     (int_abs (int_sub (m_from m) (m_to m)) =? 16)
  then int_div (int_add (m_to m) (m_from m)) 2
  else -1.

(** The piece standing on [to] after the move, and the pawn an en-passant
    move takes. *)
Definition arriving (m : Move) : ascii :=
  if m_special m =c NUL then m_piece m
  else if m_special m =c "e" then m_piece m
  else if m_special m =c "E" then m_piece m
  else m_special m.

Definition en_passant_victim (m : Move) : gmultiset entry :=
  if m_special m =c "e" then {[+ ("P"%char, m_to m - 8) +]}
  else if m_special m =c "E" then {[+ ("p"%char, m_to m + 8) +]}
  else ∅.

Definition is_promotion (m : Move) : bool :=
  negb (m_special m =c NUL) && negb (m_special m =c "e")
  && negb (m_special m =c "E").

(** What a move makes of the entry of a node, and what undoing it makes of
    it: [None] when the node is erased. *)
Definition slot_after (m : Move) (e : entry) : option entry :=
  if decide (e = (m_piece m, m_from m)) then
    if is_promotion m then None else Some (m_piece m, m_to m)
  else if decide (e = (m_captured m, m_to m)) then None
  else if decide (e ∈ en_passant_victim m) then None
  else Some e.

Definition slot_before (m : Move) (e : entry) : option entry :=
  if decide (e = (arriving m, m_to m)) then
    if is_promotion m then None else Some (arriving m, m_from m)
  else Some e.

Definition slot_map (f : entry -> option entry) (o : option entry)
  : option entry :=
  match o with
  | Some e => f e
  | None => None
  end.

(** The multimap after a move and after undoing a move: every node keeps
    its slot, new nodes are appended. *)
Definition pieces_after (m : Move) (ps : slots) : slots :=
  (slot_map (slot_after m) <$> ps)
  ++ (if is_promotion m then [Some (m_special m, m_to m)] else []).

Definition pieces_before (m : Move) (ps : slots) : slots :=
  (slot_map (slot_before m) <$> ps)
  ++ (if negb (m_captured m =c ".") then [Some (m_captured m, m_to m)] else [])
  ++ (if m_special m =c NUL then []
      else if m_special m =c "e" then [Some ("P"%char, m_to m - 8)]
      else if m_special m =c "E" then [Some ("p"%char, m_to m + 8)]
      else [Some (m_piece m, m_from m)]).

(** The king of the side to move. *)
Definition king_letter (pos : Position) : ascii :=
  (if m_to_move pos =c "w" then "K" else "k")%char.

Definition king_of (pos : Position) : option nat :=
  pieces_find (king_letter pos) (m_pieces pos).

(** Is the king of the side that moves still not attacked once the move is
    made? *)
Definition king_safe_after (pos : Position) (king : option nat) (m : Move)
  : res bool :=
  do pos1 <- perform_move pos m;
  king_not_hit king pos1.

Definition is_safe (pos : Position) (king : option nat) (m : Move) : bool :=
  match king_safe_after pos king m with
  | Ok true => true
  | _ => false
  end.

(** A later state of the position object: the same position, and the node
    [it] still holds the entry it held. *)
Record tracks (it : nat) (pos pk : Position) : Prop := mk_tracks {
  tr_wf : wf pk;
  tr_board : m_board pk = m_board pos;
  tr_to_move : m_to_move pk = m_to_move pos;
  tr_en_passant : m_en_passant pk = m_en_passant pos;
  tr_history : m_prev_moves pk = m_prev_moves pos;
  tr_slot : m_pieces pk !! it = m_pieces pos !! it
}.

(** The square the node [king] holds ([king->second]). *)
Definition king_square (king : option nat) (pos : Position) : option Z :=
  match king with
  | Some it =>
      match m_pieces pos !! it with
      | Some (Some e) => Some (snd e)
      | _ => None
      end
  | None => None
  end.

(** The side multiplier of [evaluate]. *)
Definition side_of (pos : Position) : Z :=
  if m_to_move pos =c "w" then 1 else -1.

(** The best evaluation of the search loop after a child returned [v]. *)
Definition raised (side v eval : Z) : Z :=
  if int_mul v side >? eval then int_mul v side else eval.

(** The lower bound of the window after a child returned [v]. *)
Definition raised_alfa (side v eval alfa : Z) : Z :=
  if int_mul v side >? eval
  then (if int_mul v side >? alfa then int_mul v side else alfa)
  else alfa.

(** ** The rounds of the search loop

    The state of the loop of [evaluate] over the ordered moves: the
    position, the cache, the best evaluation [eval] and the bound [alfa]. *)
Abbreviation search_state := (Position * Engine.Cache * Z * Z)%type.

(** One round up to the cutoff test: the move is made, the position behind
    it is evaluated with the window [(-beta, -alfa)], the best evaluation
    and the bound are raised, and the move is taken back. *)
Definition search_round
    (recurse : Position -> Z -> Engine.Cache -> Z -> Z ->
               res (Z * Position * Engine.Cache))
    (maxdepth side beta : Z) (pr : Z * Move) (s s' : search_state) : Prop :=
  let '(position, cache, eval, alfa) := s in
  let '(position', cache', eval', alfa') := s' in
  exists p1 v p2,
    perform_move position (snd pr) = Ok p1 /\
    recurse p1 (int_sub maxdepth 1) cache (int_neg beta) (int_neg alfa)
      = Ok (v, p2, cache') /\
    undo_move p2 = Ok position' /\
    eval' = raised side v eval /\
    alfa' = raised_alfa side v eval alfa.

(** The rounds over a run of moves none of which reaches the cutoff:
    after each of them [process_eval(eval) >= beta] is false. *)
Inductive searched
    (recurse : Position -> Z -> Engine.Cache -> Z -> Z ->
               res (Z * Position * Engine.Cache))
    (maxdepth side beta : Z)
  : list (Z * Move) -> search_state -> search_state -> Prop :=
| searched_nil (s : search_state) :
    searched recurse maxdepth side beta [] s s
| searched_cons (pr : Z * Move) (rest : list (Z * Move))
    (s s1 s2 : search_state) :
    search_round recurse maxdepth side beta pr s s1 ->
    (Engine.process_eval (snd (fst s1)) >=? beta) = false ->
    searched recurse maxdepth side beta rest s1 s2 ->
    searched recurse maxdepth side beta (pr :: rest) s s2.

(** A recursive call that gives the position back. *)
Definition preserving
    (recurse : Position -> Z -> Engine.Cache -> Z -> Z ->
               res (Z * Position * Engine.Cache)) : Prop :=
  forall p d c a b v p' c',
    wf p -> recurse p d c a b = Ok (v, p', c') -> same_position p' p /\ wf p'.

(** ** The fastest-mate report, in the words of the specification *)

(** The text for a mate score: the winner by the sign of the score, the
    number of moves [(MATE - |score| + 1) / 2]. *)
Definition mate_label (score : Z) : string :=
  ((if score >? 0 then "White " else "Black ") +:+ "mates in ")
  +:+ std_to_string (Z.quot (Engine.MATE - Z.abs score + 1) 2).

Definition is_mate_score (score : Z) : Prop :=
  Z.abs score > Engine.MATE_THRESHOLD.

(** The evaluations at twice the given depths, one after the other on the
    same position and cache, with their scores. *)
Fixpoint evaluate_each `{StdHash} `{StdSort} (depths : list Z)
    (pos : Position) (cache : Engine.Cache)
  : res (list Z * Position * Engine.Cache) :=
  match depths with
  | [] => Ok ([], pos, cache)
  | d :: rest =>
      do '(score, pos, cache) <- Engine.evaluate_default pos (2 * d) cache;
      do '(scores, pos, cache) <- evaluate_each rest pos cache;
      Ok (score :: scores, pos, cache)
  end.

(** The mated side of the back-rank example one move earlier. *)
Definition back_rank_position : Position :=
  Eval vm_compute in
    position_of (Position_of_FEN "7k/5ppp/8/8/8/8/8/R5K1 w - - 0 1").

(** An [int] score that is no mate score. *)
Definition quiet (score : Z) : Prop :=
  INT_MIN < score <= INT_MAX /\ Z.abs score <= Engine.MATE_THRESHOLD.

(** ** FEN round trip *)

(** Characters a board may hold for its FEN to be read back: anything but a
    digit or the row separator. *)
Definition fen_safe (c : ascii) : Prop :=
  c <> "/"%char /\
  ~ (char_code "0" <= char_code c <= char_code "9").

#[global] Instance fen_safe_dec (c : ascii) : Decision (fen_safe c).
Proof. unfold fen_safe. apply _. Defined.

(** The nodes the FEN reader inserts for a run of squares starting at
    square [i]. *)
Fixpoint slots_from (i : Z) (l : list ascii) : slots :=
  match l with
  | [] => []
  | c :: l' =>
      (if c =c "." then [] else [Some (c, i)]) ++ slots_from (i + 1) l'
  end.

(** Reading the text [s] takes the board loop of the reader from one state
    to another, whatever follows [s]. *)
Definition parses (s : string) (i : Z) (b : list ascii) (ps : slots)
    (i' : Z) (b' : list ascii) (ps' : slots) : Prop :=
  forall tail, fen_board (s +:+ tail) i b ps = fen_board tail i' b' ps'.

(** The state of the loop of [get_fen] before square [i]: the text so far
    reads back as the squares before the pending run of empty squares. *)
Definition fen_pending (b : list ascii) (i : Z) (st : string * Z) : Prop :=
  let '(result, empty_buffer) := st in
  0 <= empty_buffer <= 8 /\ empty_buffer <= i /\
  (forall j, i - empty_buffer <= j < i -> board_at b j = Ok "."%char) /\
  parses result 0 [] []
         (i - empty_buffer) (take (Z.to_nat (i - empty_buffer)) b)
         (slots_from 0 (take (Z.to_nat (i - empty_buffer)) b)).

(** The pending run lies in the row of square [i]. *)
Definition fen_inv (b : list ascii) (i : Z) (st : string * Z) : Prop :=
  fen_pending b i st /\ snd st <= i mod 8.

(** [square_string] of a square of the board is read back by [get_square],
    and does not start with the sign of an absent en-passant square. *)
Definition square_read_back (sq : Z) : bool :=
  match square_string sq with
  | String c1 (String c2 EmptyString) =>
      negb (c1 =c "-") &&
      match get_square_str (str2 c1 c2) with
      | Ok sq' => sq' =? sq
      | Err _ => false
      end
  | _ => false
  end.

(** The position after the opening move e2-e4, with its en-passant square. *)
Definition after_e4_position : Position :=
  Eval vm_compute in
    position_of (Position_of_FEN
      "rnbqkbnr/pppppppp/8/8/4P3/8/PPPP1PPP/RNBQKBNR b KQkq e3 0 1").

(** ** Swapping the colours *)

(** The other letter case of a piece letter; other characters are kept. *)
Definition swap_case (c : ascii) : ascii :=
  if is_upper c then tolower c else toupper c.

Definition swap_entry (e : entry) : entry := (swap_case (fst e), snd e).

Definition swap_slots (ps : slots) : slots := option_map swap_entry <$> ps.

Definition swap_move (m : Move) : Move :=
  mkMove (m_from m) (m_to m) (swap_case (m_piece m))
         (swap_case (m_captured m)) (swap_case (m_special m))
         (m_last_enpassant m).

(** The position with the letter case of every board entry and of every
    piece swapped, and the other side to move. *)
Definition swap_colors (pos : Position) : Position :=
  mkPosition (swap_case <$> m_board pos) (flip_to_move (m_to_move pos))
             (m_en_passant pos) (swap_slots (m_pieces pos))
             (swap_move <$> m_prev_moves pos).

Definition res_map {A B : Type} (f : A -> B) (r : res A) : res B :=
  match r with
  | Ok a => Ok (f a)
  | Err e => Err e
  end.

(** Kings, queens, rooks, bishops and knights: the pieces that move the
    same way for both colours. *)
Definition officer (c : ascii) : bool :=
  existsb (char_eqb c) ["K"; "Q"; "R"; "B"; "N"; "k"; "q"; "r"; "b"; "n"]%char.

Definition officer_or_empty (c : ascii) : bool := (c =c ".") || officer c.

(** A position without pawns: 64 squares, empty or holding an officer, and
    officers in the piece table. *)
Record pawn_free (pos : Position) : Prop := mk_pawn_free {
  free_length : length (m_board pos) = 64%nat;
  free_board : Forall (fun c => officer_or_empty c = true) (m_board pos);
  free_pieces : Forall (fun o : option entry =>
                          forall e, o = Some e -> officer (fst e) = true)
                       (m_pieces pos)
}.

(** A move of an officer that is no promotion and no en-passant capture. *)
Record officer_move (m : Move) : Prop := mk_officer_move {
  officer_piece : officer (m_piece m) = true;
  officer_captured : officer_or_empty (m_captured m) = true;
  officer_special : m_special m = NUL
}.

(** ** The cache *)

(** Every position the first cache knows, the second knows too. *)
Definition cache_grows (c c' : Engine.Cache) : Prop :=
  forall h, is_Some (c !! h) -> is_Some (c' !! h).

(** ** What a generated move takes *)

(** The move is a move of [piece], and what it takes is nothing or a piece
    of the other colour. *)
Definition takes_enemy (piece : ascii) (m : Move) : Prop :=
  m_piece m = piece /\
  (m_captured m = "."%char \/ is_upper (m_captured m) <> is_upper piece).

(** What [get_possible_moves] returns, with the colours swapped. *)
Definition swap_moves (st : Position * list Move) : Position * list Move :=
  (swap_colors (fst st), swap_move <$> snd st).

(** King and rook against king. *)
Definition rook_ending_position : Position :=
  Eval vm_compute in
    position_of (Position_of_FEN "8/8/8/4k3/8/8/8/R3K3 w - - 0 1").

(** ** Attacks, by the rules *)

(** The piece [c] stands on the square of column [col] and row [row]. *)
Definition stands (b : list ascii) (col row : Z) (c : ascii) : Prop :=
  are_valid_coords col row = true /\ board_at b (col + 8 * row) = Ok c.

(** A piece of kind [kind] (lower case) and of the given colour stands one
    of the steps [offs] away from the square. *)
Definition step_attack (b : list ascii) (col row : Z) (by_white : bool)
    (kind : ascii) (offs : list (Z * Z)) : Prop :=
  exists cds c,
    cds ∈ offs /\ stands b (col + fst cds) (row + snd cds) c /\
    tolower c = kind /\ is_upper c = by_white.

(** Along one of the directions [dirs], the first piece met is of the given
    colour and of kind [k1] or [k2]: the squares before it are empty. *)
Definition ray_attack (b : list ascii) (col row : Z) (by_white : bool)
    (k1 k2 : ascii) (dirs : list (Z * Z)) : Prop :=
  exists cds n c,
    cds ∈ dirs /\ 1 <= n /\
    (forall j, 1 <= j < n ->
       stands b (col + j * fst cds) (row + j * snd cds) ".") /\
    stands b (col + n * fst cds) (row + n * snd cds) c /\
    c <> "."%char /\ is_upper c = by_white /\
    (tolower c = k1 \/ tolower c = k2).

(** The square is attacked by a knight, a pawn, a king, a rook or queen
    along a line, or a bishop or queen along a diagonal.  A white pawn
    attacks from the row below the square (a higher row index), a black
    pawn from the row above. *)
Definition attacked (b : list ascii) (square : Z) (by_white : bool) : Prop :=
  let col := int_rem square 8 in
  let row := int_div square 8 in
  step_attack b col row by_white "n" knight_offsets \/
  step_attack b col row by_white "p"
    (if by_white then [(1,1); (-1,1)] else [(1,-1); (-1,-1)]) \/
  step_attack b col row by_white "k" king_offsets \/
  ray_attack b col row by_white "r" "q" rook_dirs \/
  ray_attack b col row by_white "b" "q" bishop_dirs.

(** ** When the move generator returns *)

(** The en-passant square is absent, or it is empty and the pawn that made
    the double step stands behind it, seen from the side to move. *)
Definition en_passant_ok (pos : Position) : Prop :=
  m_en_passant pos = -1 \/
  (board_at (m_board pos) (m_en_passant pos) = Ok "."%char /\
   board_at (m_board pos)
     (if m_to_move pos =c "w" then m_en_passant pos + 8
      else m_en_passant pos - 8)
   = Ok (if m_to_move pos =c "w" then "p" else "P")%char).

(** No pawn stands on the rank it promotes on. *)
Definition pawns_can_step (pos : Position) : Prop :=
  Forall (fun e : entry =>
            (fst e = "P"%char -> 8 <= snd e) /\
            (fst e = "p"%char -> snd e < 56))
         (live (m_pieces pos)).

(** A pawn of the side to move stands on the rank it promotes on. *)
Definition pawn_on_last_rank (pos : Position) (s : Z) : Prop :=
  (m_to_move pos = "w"%char /\ Some ("P"%char, s) ∈ m_pieces pos /\ s < 8) \/
  (m_to_move pos = "b"%char /\ Some ("p"%char, s) ∈ m_pieces pos /\ 56 <= s).

(** A move that [perform_move] accepts as far as its special letter goes,
    and that is special only for a pawn. *)
Definition special_sound (b : list ascii) (m : Move) : Prop :=
  special_ok b m /\ (m_special m <> NUL -> tolower (m_piece m) = "p"%char).

(** What the first loop of [get_possible_moves] guarantees about a move it
    collects for the side [white]. *)
Definition sound_move (b : list ascii) (white : bool) (m : Move) : Prop :=
  special_sound b m /\
  is_upper (m_piece m) = white /\
  (m_captured m = "."%char \/ is_upper (m_captured m) <> white).

(** A white pawn on the eighth rank. *)
Definition last_rank_pawn_position : Position :=
  Eval vm_compute in
    position_of (Position_of_FEN "P3k3/8/8/8/8/8/8/4K3 w - - 0 1").

(** ** Loops that collect *)


(** * Properties

    Everything below is proved about the definitions above. *)

#[local] Set Warnings "-clear-no-such-hyp".

(** ** The error monad, integers and characters *)

Lemma bind_Ok {A B : Type} (r : res A) (k : A -> res B) (b : B) :
  bind r k = Ok b -> exists a, r = Ok a /\ k a = Ok b.
Proof. destruct r as [a|e]; simpl; intros H; [eauto | discriminate]. Qed.

Lemma wrap32_id (z : Z) : is_int z -> wrap32 z = z.
Proof.
  unfold is_int, INT_MIN, INT_MAX, wrap32. intros Hz.
  rewrite Z.mod_small; lia.
Qed.

Lemma wrap32_is_int (z : Z) : is_int (wrap32 z).
Proof.
  unfold is_int, INT_MIN, INT_MAX, wrap32.
  pose proof (Z.mod_pos_bound (z + 2147483648) 4294967296 eq_refl). lia.
Qed.

Lemma char_eqb_eq (a b : ascii) : (a =c b) = true <-> a = b.
Proof. apply Ascii.eqb_eq. Qed.

Lemma char_eqb_neq (a b : ascii) : (a =c b) = false <-> a <> b.
Proof. apply Ascii.eqb_neq. Qed.

Lemma char_eqb_refl (a : ascii) : (a =c a) = true.
Proof. apply Ascii.eqb_refl. Qed.

Example square_string_a1 : square_string 56 = "a1".
Proof. reflexivity. Qed.
Example square_string_h8 : square_string 7 = "h8".
Proof. reflexivity. Qed.

Lemma insert_sorted_perm cmp x l : Permutation (insert_sorted cmp x l) (x :: l).
Proof.
  induction l as [|y l IH]; simpl; [done|].
  destruct (cmp y x); [|done].
  rewrite IH. apply perm_swap.
Qed.

Lemma insertion_sort_perm cmp l : Permutation (insertion_sort cmp l) l.
Proof.
  induction l as [|x l IH]; simpl; [done|].
  unfold insertion_sort in *. simpl. rewrite insert_sorted_perm. by constructor.
Qed.

Lemma demo_sort_permutes : @sort_permutes demo_sort.
Proof. intros cmp l. apply insertion_sort_perm. Qed.

(** ** The mate-distance function *)

Lemma int_abs_small (x : Z) : INT_MIN < x <= INT_MAX -> int_abs x = Z.abs x.
Proof.
  intros Hx. unfold int_abs. apply wrap32_id.
  unfold is_int, INT_MIN, INT_MAX in *. lia.
Qed.

(** C5, as the code has it: [process_eval] leaves [x] alone when
    [|x| < MATE_THRESHOLD], returns [x - 1] when [x >= MATE_THRESHOLD] and
    [x + 1] when [x <= -MATE_THRESHOLD]; [x] is any [int] whose absolute
    value is an [int]. *)
Theorem process_eval_cases (x : Z) :
  INT_MIN < x <= INT_MAX ->
  (Z.abs x < Engine.MATE_THRESHOLD -> Engine.process_eval x = x) /\
  (x >= Engine.MATE_THRESHOLD -> Engine.process_eval x = x - 1) /\
  (x <= - Engine.MATE_THRESHOLD -> Engine.process_eval x = x + 1).
Proof.
  intros Hx. unfold Engine.process_eval.
  rewrite (int_abs_small x Hx).
  unfold Engine.MATE_THRESHOLD, INT_MIN, INT_MAX in *.
  repeat split; intros Hc.
  - destruct (Z.ltb_spec (Z.abs x) 2000); [done | lia].
  - destruct (Z.ltb_spec (Z.abs x) 2000); [lia |].
    destruct (Z.geb_spec x 2000); [| lia].
    unfold int_sub. apply wrap32_id. unfold is_int, INT_MIN, INT_MAX. lia.
  - destruct (Z.ltb_spec (Z.abs x) 2000); [lia |].
    destruct (Z.geb_spec x 2000); [lia |].
    unfold int_add. apply wrap32_id. unfold is_int, INT_MIN, INT_MAX. lia.
Qed.

Lemma process_eval_cases_witness :
  INT_MIN < 2000 <= INT_MAX /\ Engine.process_eval 2000 = 2000 - 1.
Proof.
  assert (Hr : INT_MIN < 2000 <= INT_MAX) by (unfold INT_MIN, INT_MAX; lia).
  split; [exact Hr |].
  apply (process_eval_cases 2000 Hr). unfold Engine.MATE_THRESHOLD. lia.
Defined.

(** The claim as the specification words it fails at the threshold itself:
    [|2000| <= MATE_THRESHOLD], yet 2000 is not returned unchanged. *)
Lemma process_eval_threshold_counterexample :
  ~ (forall x : Z, INT_MIN < x <= INT_MAX ->
       (Z.abs x <= Engine.MATE_THRESHOLD -> Engine.process_eval x = x) /\
       (x >= Engine.MATE_THRESHOLD -> Engine.process_eval x = x - 1) /\
       (x <= - Engine.MATE_THRESHOLD -> Engine.process_eval x = x + 1)).
Proof.
  intros Hall.
  destruct (Hall 2000) as [Hkeep _]; [unfold INT_MIN, INT_MAX; lia |].
  specialize (Hkeep ltac:(unfold Engine.MATE_THRESHOLD; lia)).
  vm_compute in Hkeep. discriminate.
Qed.

(** ** Move strings *)

(** C10: an en-passant move (a pawn move whose [special] is 'E' or 'e' and
    whose [captured] is '.') is written by [to_full_string] with '-' between
    the two squares and by [to_string] as a capture, source file and 'x';
    the long form with 'x' is therefore not the string of the move. *)
Theorem en_passant_move_strings (m : Move) :
  m_special m = "E"%char \/ m_special m = "e"%char ->
  tolower (m_piece m) = "p"%char ->
  m_captured m = "."%char ->
  Move_to_full_string m
    = square_string (m_from m) +:+ "-" +:+ square_string (m_to m) /\
  Move_to_string m
    = str2 (str0 (square_string (m_from m))) "x" +:+ square_string (m_to m) /\
  Move_to_full_string m
    <> square_string (m_from m) +:+ "x" +:+ square_string (m_to m).
Proof.
  intros Hsp Hp Hc.
  assert (Hfull : Move_to_full_string m
    = square_string (m_from m) +:+ "-" +:+ square_string (m_to m)).
  { unfold Move_to_full_string. rewrite Hp, Hc.
    destruct Hsp as [-> | ->]; reflexivity. }
  split; [exact Hfull |]. split.
  - unfold Move_to_string. rewrite Hp, Hc.
    destruct Hsp as [-> | ->]; reflexivity.
  - rewrite Hfull. unfold square_string. simpl. intros Heq.
    injection Heq as _ _ Heq. discriminate.
Qed.

(** The white pawn e5 taking d5 en passant: "e5-d6" in long notation,
    "exd6" in short notation. *)
Lemma en_passant_move_strings_witness :
  let m := mkMove 28 19 "P" "." "E" 19 in
  Move_to_full_string m = "e5-d6" /\ Move_to_string m = "exd6" /\
  Move_to_full_string m <> "e5xd6".
Proof.
  exact (en_passant_move_strings (mkMove 28 19 "P" "." "E" 19)
           (or_introl eq_refl) eq_refl eq_refl).
Defined.

(** ** The multimap and the board as multisets *)

(** Multiset equations are solved with the singletons taken as atoms. *)
Ltac ms_atoms :=
  repeat match goal with
  | |- context [ @singletonMS _ (gmultiset entry) _ ?x ] =>
      let X := fresh "X" in
      set (X := @singletonMS _ (gmultiset entry) _ x) in *; clearbody X
  | H : context [ @singletonMS _ (gmultiset entry) _ ?x ] |- _ =>
      let X := fresh "X" in
      set (X := @singletonMS _ (gmultiset entry) _ x) in *; clearbody X
  end.

Ltac ms_clear :=
  repeat match goal with
  | H : ?T |- _ =>
      lazymatch T with
      | @eq (gmultiset _) _ _ => fail
      | _ => clear H
      end
  end.

Ltac ms_solve := ms_clear; ms_atoms; multiset_solver.

Lemma live_app (ps qs : slots) : live (ps ++ qs) = live ps ++ live qs.
Proof. apply omap_app. Qed.

Lemma pieces_set_app (ps qs : slots) :
  pieces_set (ps ++ qs) = pieces_set ps ⊎ pieces_set qs.
Proof. unfold pieces_set. by rewrite live_app, list_to_set_disj_app. Qed.

Lemma pieces_set_cons (o : option entry) (ps : slots) :
  pieces_set (o :: ps) = slot_set o ⊎ pieces_set ps.
Proof.
  unfold pieces_set. destruct o as [e|].
  - change (live (Some e :: ps)) with (e :: live ps).
    by rewrite list_to_set_disj_cons.
  - change (live (None :: ps)) with (live ps). simpl.
    by rewrite (left_id_L ∅ (⊎)).
Qed.

Lemma pieces_set_insert (e : entry) (ps : slots) :
  pieces_set (pieces_insert e ps) = pieces_set ps ⊎ {[+ e +]}.
Proof.
  unfold pieces_insert. rewrite pieces_set_app, pieces_set_cons.
  change (pieces_set []) with (∅ : gmultiset entry). simpl. multiset_solver.
Qed.

Lemma pieces_set_update (i : nat) (x y : option entry) (ps : slots) :
  ps !! i = Some x ->
  pieces_set (<[i := y]> ps) ⊎ slot_set x = pieces_set ps ⊎ slot_set y.
Proof.
  intros Hi.
  assert (Hlt : (i < length ps)%nat) by (eapply lookup_lt_Some; eauto).
  rewrite insert_take_drop by done.
  rewrite <- (take_drop_middle ps i x Hi) at 3.
  rewrite !pieces_set_app, !pieces_set_cons. multiset_solver.
Qed.

Lemma get_piece_Some (ps : slots) (c : ascii) (s : Z) (i : nat) :
  get_piece ps c s = Some i -> ps !! i = Some (Some (c, s)).
Proof.
  unfold get_piece. intros H.
  destruct (list_find _ ps) as [[j x]|] eqn:Hf; simplify_eq/=.
  apply list_find_Some in Hf as (Hj & Hx & _). by subst.
Qed.

Lemma elem_of_pieces_set (ps : slots) (e : entry) :
  e ∈ pieces_set ps <-> Some e ∈ ps.
Proof.
  unfold pieces_set, live. rewrite elem_of_list_to_set_disj, list_elem_of_omap.
  split.
  - intros (x & Hx & Hid). simpl in Hid. by subst.
  - intros H. by exists (Some e).
Qed.

Lemma get_piece_elem (ps : slots) (c : ascii) (s : Z) (i : nat) :
  get_piece ps c s = Some i -> (c, s) ∈ pieces_set ps.
Proof.
  intros H%get_piece_Some. apply elem_of_pieces_set.
  eapply list_elem_of_lookup_2; eauto.
Qed.

Lemma get_piece_found (ps : slots) (c : ascii) (s : Z) :
  (c, s) ∈ pieces_set ps -> exists i, get_piece ps c s = Some i.
Proof.
  intros H%elem_of_pieces_set. unfold get_piece.
  destruct (list_find_elem_of (fun o : option entry => o = Some (c, s)) ps
              (Some (c, s)) H eq_refl) as [[i x] Hf].
  rewrite Hf. by exists i.
Qed.

Lemma deref_Ok (ps : slots) (i : nat) (e : entry) :
  deref ps i = Ok e <-> ps !! i = Some (Some e).
Proof.
  unfold deref. destruct (ps !! i) as [[x|]|]; split; intros H; by simplify_eq.
Qed.

(** Boards *)

Lemma board_at_Ok (b : list ascii) (s : Z) (c : ascii) :
  board_at b s = Ok c <-> 0 <= s < 64 /\ b !! Z.to_nat s = Some c.
Proof.
  unfold board_at.
  destruct (Z.leb_spec 0 s), (Z.ltb_spec s 64); simpl;
    try (split; [discriminate | lia]).
  destruct (b !! Z.to_nat s) as [x|]; split.
  - intros [= ->]. split; [lia | done].
  - by intros [_ [= ->]].
  - discriminate.
  - by intros [_ ?].
Qed.

Lemma board_set_Ok (b b' : list ascii) (s : Z) (c : ascii) :
  length b = 64%nat ->
  board_set b s c = Ok b' <-> 0 <= s < 64 /\ b' = put s c b.
Proof.
  intros Hlen. unfold board_set, put. rewrite Hlen.
  destruct (Z.leb_spec 0 s), (Z.ltb_spec s 64); simpl;
    try (split; [discriminate | lia]).
  destruct (Nat.ltb_spec (Z.to_nat s) 64); [| lia].
  split; [intros [= <-] | intros [_ ->]]; auto with lia.
Qed.

Lemma put_length (s : Z) (c : ascii) (b : list ascii) :
  length (put s c b) = length b.
Proof. apply length_insert. Qed.

Lemma board_at_put (b : list ascii) (s t : Z) (c : ascii) :
  length b = 64%nat -> 0 <= s < 64 ->
  board_at (put s c b) t = if decide (t = s) then Ok c else board_at b t.
Proof.
  intros Hlen Hs. unfold board_at, put.
  destruct (Z.leb_spec 0 t), (Z.ltb_spec t 64); simpl;
    try (case_decide; [lia | done]).
  case_decide as Hts.
  - subst. rewrite list_lookup_insert_eq; [done | lia].
  - rewrite list_lookup_insert_ne; [done | lia].
Qed.

Lemma elem_of_cells_from (i : Z) (b : list ascii) (c : ascii) (s : Z) :
  (c, s) ∈ cells_from i b <->
  c <> "."%char /\ i <= s /\ b !! Z.to_nat (s - i) = Some c.
Proof.
  revert i. induction b as [|x b IH]; intros i; simpl.
  - split; [multiset_solver | by intros (_ & _ & ?)].
  - rewrite gmultiset_elem_of_disj_union, IH. unfold cell.
    destruct (x =c ".") eqn:Hx.
    + apply char_eqb_eq in Hx. subst x. split.
      * intros [H | (Hc & Hi & Hl)]; [multiset_solver |].
        split; [done |]. split; [lia |].
        replace (Z.to_nat (s - i)) with (S (Z.to_nat (s - (i + 1)))) by lia.
        done.
      * intros (Hc & Hi & Hl). right.
        destruct (Z.to_nat (s - i)) as [|n] eqn:Hn; simpl in Hl.
        { by simplify_eq. }
        split; [done |]. split; [lia |].
        by replace (Z.to_nat (s - (i + 1))) with n by lia.
    + apply char_eqb_neq in Hx. rewrite gmultiset_elem_of_singleton. split.
      * intros [Heq | (Hc & Hi & Hl)].
        { injection Heq as -> ->.
          split; [done |]. split; [lia |]. by rewrite Z.sub_diag. }
        split; [done |]. split; [lia |].
        replace (Z.to_nat (s - i)) with (S (Z.to_nat (s - (i + 1)))) by lia.
        done.
      * intros (Hc & Hi & Hl).
        destruct (Z.to_nat (s - i)) as [|n] eqn:Hn; simpl in Hl.
        { left. simplify_eq. f_equal. lia. }
        right. split; [done |]. split; [lia |].
        by replace (Z.to_nat (s - (i + 1))) with n by lia.
Qed.

Lemma elem_of_board_entries (b : list ascii) (c : ascii) (s : Z) :
  length b = 64%nat ->
  (c, s) ∈ board_entries b <-> c <> "."%char /\ board_at b s = Ok c.
Proof.
  intros Hlen. unfold board_entries.
  rewrite elem_of_cells_from, board_at_Ok, Z.sub_0_r. split.
  - intros (Hc & Hs & Hl). split; [done |]. split; [| done].
    apply lookup_lt_Some in Hl. lia.
  - intros (Hc & Hs & Hl). split; [done |]. split; [lia | done].
Qed.

Lemma cells_from_insert (i : Z) (b : list ascii) (k : nat) (c c0 : ascii) :
  b !! k = Some c0 ->
  cells_from i (<[k := c]> b) ⊎ cell c0 (i + Z.of_nat k)
  = cells_from i b ⊎ cell c (i + Z.of_nat k).
Proof.
  revert i k. induction b as [|x b IH]; intros i k Hk; [done |].
  destruct k as [|k]; simpl in *.
  - simplify_eq. rewrite Z.add_0_r. multiset_solver.
  - specialize (IH (i + 1) k Hk).
    replace (i + 1 + Z.of_nat k) with (i + Z.of_nat (S k)) in IH by lia.
    rewrite <- !(assoc_L (⊎)). by rewrite IH.
Qed.

Lemma board_entries_put (b : list ascii) (s : Z) (c c0 : ascii) :
  board_at b s = Ok c0 ->
  board_entries (put s c b) ⊎ cell c0 s = board_entries b ⊎ cell c s.
Proof.
  intros (Hs & Hl)%board_at_Ok. unfold board_entries, put.
  pose proof (cells_from_insert 0 b (Z.to_nat s) c c0 Hl) as H.
  by replace (0 + Z.of_nat (Z.to_nat s)) with s in H by lia.
Qed.

(** No square is counted twice, so no entry is held twice. *)
Lemma cells_from_multiplicity (i : Z) (b : list ascii) (e : entry) :
  (multiplicity e (cells_from i b) <= 1)%nat.
Proof.
  revert i. induction b as [|c b IH]; intros i; simpl.
  - rewrite multiplicity_empty. lia.
  - rewrite multiplicity_disj_union. specialize (IH (i + 1)).
    unfold cell. destruct (c =c ".").
    + rewrite multiplicity_empty. lia.
    + destruct (decide (e = (c, i))) as [-> | Hne].
      * assert (Hnot : (c, i) ∉ cells_from (i + 1) b).
        { rewrite elem_of_cells_from. intros (_ & Hle & _). lia. }
        apply not_elem_of_multiplicity in Hnot. rewrite Hnot.
        rewrite multiplicity_singleton_eq. lia.
      * rewrite multiplicity_singleton_ne by done. lia.
Qed.

Lemma slots_twice (ps : slots) (i j : nat) (e : entry) :
  i <> j -> ps !! i = Some (Some e) -> ps !! j = Some (Some e) ->
  (2 <= multiplicity e (pieces_set ps))%nat.
Proof.
  intros Hne Hi Hj.
  pose proof (pieces_set_update i _ None ps Hi) as H1. simpl in H1.
  assert (Hj' : <[i := None]> ps !! j = Some (Some e))
    by (by rewrite list_lookup_insert_ne).
  pose proof (pieces_set_update j _ None _ Hj') as H2. simpl in H2.
  rewrite (right_id_L ∅ (⊎)) in H1, H2.
  rewrite <- H1, <- H2, !multiplicity_disj_union, multiplicity_singleton_eq.
  lia.
Qed.

Lemma slots_unique (b : list ascii) (ps : slots) (i j : nat) (e : entry) :
  pieces_set ps = board_entries b ->
  ps !! i = Some (Some e) -> ps !! j = Some (Some e) -> i = j.
Proof.
  intros Hag Hi Hj. destruct (decide (i = j)) as [| Hne]; [done |].
  pose proof (slots_twice ps i j e Hne Hi Hj) as H2.
  rewrite Hag in H2.
  pose proof (cells_from_multiplicity 0 b e). unfold board_entries in H2. lia.
Qed.

(** Writing the slot of an entry that is held once is a map over the
    slots. *)
Lemma insert_as_map (ps : slots) (i : nat) (e0 : entry) (y : option entry)
    (f : entry -> option entry) :
  ps !! i = Some (Some e0) ->
  (forall j, ps !! j = Some (Some e0) -> j = i) ->
  f e0 = y ->
  (forall e, e <> e0 -> Some e ∈ ps -> f e = Some e) ->
  <[i := y]> ps = slot_map f <$> ps.
Proof.
  intros Hi Huniq Hf Hother. apply list_eq. intros j.
  rewrite list_lookup_fmap.
  destruct (decide (j = i)) as [-> | Hne].
  - rewrite list_lookup_insert_eq by (eapply lookup_lt_Some; eauto).
    rewrite Hi. simpl. by rewrite Hf.
  - rewrite list_lookup_insert_ne by done.
    destruct (ps !! j) as [[e|]|] eqn:Hj; simpl; [| done | done].
    rewrite Hother; [done | | by eapply list_elem_of_lookup_2].
    intros ->. by apply Hne, Huniq.
Qed.

Lemma slot_map_compose (f g : entry -> option entry) (ps : slots) :
  slot_map g <$> (slot_map f <$> ps)
  = slot_map (fun e => slot_map g (f e)) <$> ps.
Proof.
  rewrite <- list_fmap_compose. apply list_fmap_ext.
  intros _ [e|] _; done.
Qed.

Lemma slot_map_ext (f g : entry -> option entry) (ps : slots) :
  (forall e, Some e ∈ ps -> f e = g e) ->
  slot_map f <$> ps = slot_map g <$> ps.
Proof.
  intros H. apply list_fmap_ext. intros i [e|] Hi; simpl; [| done].
  apply H. by eapply list_elem_of_lookup_2.
Qed.

Lemma slot_map_lookup (f : entry -> option entry) (ps : slots) (i : nat)
    (e' : entry) :
  (slot_map f <$> ps) !! i = Some (Some e') ->
  exists e, ps !! i = Some (Some e) /\ f e = Some e'.
Proof.
  rewrite list_lookup_fmap. destruct (ps !! i) as [[e0|]|]; simpl; intros H;
    simplify_eq. eauto.
Qed.

(** ** Make and undo *)

Tactic Notation "bind_inv" hyp(H) :=
  match type of H with
  | bind ?r _ = Ok _ =>
      let a := fresh "a" in
      let E := fresh "E" in
      destruct r as [a|] eqn:E; [simpl in H | discriminate H]
  end.

Tactic Notation "bind_inv" hyp(H) "as" simple_intropattern(a) ident(E) :=
  match type of H with
  | bind ?r _ = Ok _ =>
      destruct r as [a|] eqn:E; [simpl in H | discriminate H]
  end.

Lemma found_or_throw_Ok (it : option nat) (msg : string) (i : nat) :
  found_or_throw it msg = Ok i <-> it = Some i.
Proof. destruct it; simpl; split; intros; by simplify_eq. Qed.

Lemma pieces_erase_Ok (i : nat) (ps ps' : slots) :
  pieces_erase i ps = Ok ps' <->
  exists e, ps !! i = Some (Some e) /\ ps' = <[i := None]> ps.
Proof.
  unfold pieces_erase. split.
  - intros H. bind_inv H. apply deref_Ok in E. simplify_eq. eauto.
  - intros (e & He & ->). apply deref_Ok in He. by rewrite He.
Qed.

Lemma set_second_Ok (i : nat) (sq : Z) (ps ps' : slots) :
  set_second i sq ps = Ok ps' <->
  exists e, ps !! i = Some (Some e) /\ ps' = <[i := Some (fst e, sq)]> ps.
Proof.
  unfold set_second. split.
  - intros H. bind_inv H. apply deref_Ok in E. simplify_eq. eauto.
  - intros (e & He & ->). apply deref_Ok in He. by rewrite He.
Qed.

Lemma cell_real (c : ascii) (s : Z) : c <> "."%char -> cell c s = {[+ (c, s) +]}.
Proof. intros Hc. unfold cell. apply char_eqb_neq in Hc. by rewrite Hc. Qed.

Lemma cell_empty (s : Z) : cell "." s = ∅.
Proof. reflexivity. Qed.

Lemma flip_to_move_wb (c : ascii) :
  c = "w"%char \/ c = "b"%char ->
  (flip_to_move c = "w"%char \/ flip_to_move c = "b"%char) /\
  flip_to_move (flip_to_move c) = c.
Proof. intros [-> | ->]; vm_compute; auto. Qed.

Lemma int_sub_small (a b : Z) : 0 <= a < 64 -> 0 <= b < 64 -> int_sub a b = a - b.
Proof.
  intros. unfold int_sub. apply wrap32_id. unfold is_int, INT_MIN, INT_MAX. lia.
Qed.

Lemma int_add_small (a b : Z) : 0 <= a < 64 -> 0 <= b < 64 -> int_add a b = a + b.
Proof.
  intros. unfold int_add. apply wrap32_id. unfold is_int, INT_MIN, INT_MAX. lia.
Qed.

(** The common part of a move: the moved piece leaves [from], whatever stood
    on [to] is taken, the piece arrives. *)
Lemma plain_move_agree (b : list ascii) (ps ps1 ps2 : slots) (m : Move) (i : nat) :
  length b = 64%nat ->
  pieces_set ps = board_entries b ->
  move_ok b (m_last_enpassant m) m ->
  get_piece ps (m_piece m) (m_from m) = Some i ->
  (if negb (m_captured m =c ".")
   then do taken_piece <-
          found_or_throw (get_piece ps (m_captured m) (m_to m))
                         "taken piece not found";
        pieces_erase taken_piece ps
   else Ok ps) = Ok ps1 ->
  set_second i (m_to m) ps1 = Ok ps2 ->
  ps2 !! i = Some (Some (m_piece m, m_to m)) /\
  pieces_set ps2
  = board_entries (put (m_to m) (m_piece m) (put (m_from m) "." b)).
Proof.
  intros Hlen Hag [Hp Hpr Hc Hd Hsp _] Hi H1 H2.
  pose proof (get_piece_Some _ _ _ _ Hi) as Hpi.
  destruct (proj1 (board_at_Ok _ _ _) Hp) as [Hfrom _].
  destruct (proj1 (board_at_Ok _ _ _) Hc) as [Hto _].
  (* the capture *)
  assert (Hps1 : pieces_set ps1 ⊎ cell (m_captured m) (m_to m) = pieces_set ps
                 /\ ps1 !! i = Some (Some (m_piece m, m_from m))).
  { destruct (m_captured m =c ".") eqn:Hcap; simpl in H1.
    - apply char_eqb_eq in Hcap. rewrite Hcap, cell_empty.
      simplify_eq. split; [ms_solve | done].
    - apply char_eqb_neq in Hcap. rewrite cell_real by done.
      bind_inv H1. apply found_or_throw_Ok in E.
      pose proof (get_piece_Some _ _ _ _ E) as Hj.
      apply pieces_erase_Ok in H1 as (e & He & ->).
      split.
      + pose proof (pieces_set_update a _ None ps Hj) as Hu. simpl in Hu.
        ms_solve.
      + rewrite list_lookup_insert_ne; [done |].
        intros ->. rewrite Hj in Hpi. by simplify_eq. }
  destruct Hps1 as [Hps1 Hi1].
  apply set_second_Ok in H2 as (e & He & ->).
  rewrite Hi1 in He. simplify_eq. simpl.
  split.
  { apply list_lookup_insert_eq. eapply lookup_lt_Some; eauto. }
  pose proof (pieces_set_update i _ (Some (m_piece m, m_to m)) ps1 Hi1) as Hu.
  simpl in Hu.
  pose proof (board_entries_put b (m_from m) "." _ Hp) as Hb1.
  rewrite cell_empty, (cell_real _ _ Hpr) in Hb1.
  assert (Hc1 : board_at (put (m_from m) "." b) (m_to m) = Ok (m_captured m)).
  { rewrite board_at_put by done. by rewrite decide_False by done. }
  pose proof (board_entries_put _ (m_to m) (m_piece m) _ Hc1) as Hb2.
  rewrite (cell_real _ _ Hpr) in Hb2.
  ms_solve.
Qed.

Lemma perform_move_inv (pos pos1 : Position) (m : Move) :
  wf pos ->
  move_ok (m_board pos) (m_last_enpassant m) m ->
  perform_move pos m = Ok pos1 ->
  special_ok (m_board pos) m /\
  m_board pos1 = board_after (m_board pos) m /\
  m_to_move pos1 = flip_to_move (m_to_move pos) /\
  m_en_passant pos1 = en_passant_after m /\
  m_prev_moves pos1 = m :: m_prev_moves pos /\
  wf pos1.
Proof.
  intros [Hlen Hag Htm] Hok H.
  pose proof Hok as [Hp Hpr Hc Hd Hsp _].
  destruct (proj1 (board_at_Ok _ _ _) Hp) as [Hfrom _].
  destruct (proj1 (board_at_Ok _ _ _) Hc) as [Hto _].
  unfold perform_move in H.
  bind_inv H as i Ei. apply found_or_throw_Ok in Ei.
  bind_inv H as ps1 E1. bind_inv H as ps2 E2.
  destruct (plain_move_agree _ _ _ _ _ _ Hlen Hag Hok Ei E1 E2) as [Hi2 Hag2].
  bind_inv H as b1 Eb1. apply board_set_Ok in Eb1 as [_ ->]; [| done].
  bind_inv H as b2' Eb2.
  apply board_set_Ok in Eb2 as [_ ->]; [| by rewrite put_length].
  set (b2 := put (m_to m) (m_piece m) (put (m_from m) "." (m_board pos))) in *.
  assert (Hlen2 : length b2 = 64%nat) by (unfold b2; by rewrite !put_length).
  assert (Hto2 : board_at b2 (m_to m) = Ok (m_piece m)).
  { unfold b2. rewrite board_at_put; [by rewrite decide_True |
      by rewrite put_length | done]. }
  assert (Hother : forall t, t <> m_from m -> t <> m_to m ->
            board_at b2 t = board_at (m_board pos) t).
  { intros t Ht1 Ht2. unfold b2.
    rewrite board_at_put; [| by rewrite put_length | done].
    rewrite decide_False by done.
    rewrite board_at_put by done. by rewrite decide_False. }
  assert (Hfrom2 : board_at b2 (m_from m) = Ok "."%char).
  { unfold b2. rewrite board_at_put; [| by rewrite put_length | done].
    rewrite decide_False by done.
    rewrite board_at_put by done. by rewrite decide_True. }
  bind_inv H as [ps3 b3] E3.
  injection H as <-. simpl.
  unfold board_after, special_ok. fold b2.
  destruct (flip_to_move_wb _ Htm) as [Htm' _].
  destruct (m_special m =c NUL) eqn:Hnul; simpl in E3.
  { apply char_eqb_eq in Hnul. simplify_eq.
    repeat split; auto. }
  destruct (eqb (is_upper (m_piece m)) (is_upper (m_special m))) eqn:Hside;
    simpl in E3; [| discriminate].
  apply eqb_prop in Hside.
  destruct (m_special m =c "e") eqn:Hse.
  { (* black en passant *)
    apply char_eqb_eq in Hse.
    rewrite (int_sub_small (m_to m) 8) in E3 by lia.
    bind_inv E3 as k Ek. apply found_or_throw_Ok in Ek.
    pose proof (get_piece_Some _ _ _ _ Ek) as Hk.
    bind_inv E3 as ps' Ee. apply pieces_erase_Ok in Ee as (e & _ & ->).
    bind_inv E3 as b' Eb.
    assert (HP : board_at b2 (m_to m - 8) = Ok "P"%char).
    { apply get_piece_elem in Ek. rewrite Hag2 in Ek.
      by apply elem_of_board_entries in Ek as [_ ?]. }
    apply board_set_Ok in Eb as [Hr ->]; [| done].
    injection E3 as <- <-.
    assert (Hne : m_to m - 8 <> m_from m).
    { intros Heq. rewrite Heq, Hfrom2 in HP. discriminate. }
    split.
    { right. split; [done |]. split; [| rewrite Hse; discriminate].
      intros _. rewrite <- Hother; [done | done | lia]. }
    repeat split; auto; simpl.
    - by rewrite !put_length.
    - pose proof (pieces_set_update k _ None ps2 Hk) as Hu. simpl in Hu.
      pose proof (board_entries_put b2 (m_to m - 8) "." _ HP) as Hb.
      rewrite cell_empty, cell_real in Hb by discriminate.
      ms_solve. }
  destruct (m_special m =c "E") eqn:HsE.
  { (* white en passant *)
    apply char_eqb_eq in HsE.
    rewrite (int_add_small (m_to m) 8) in E3 by lia.
    bind_inv E3 as k Ek. apply found_or_throw_Ok in Ek.
    pose proof (get_piece_Some _ _ _ _ Ek) as Hk.
    bind_inv E3 as ps' Ee. apply pieces_erase_Ok in Ee as (e & _ & ->).
    bind_inv E3 as b' Eb.
    assert (HP : board_at b2 (m_to m + 8) = Ok "p"%char).
    { apply get_piece_elem in Ek. rewrite Hag2 in Ek.
      by apply elem_of_board_entries in Ek as [_ ?]. }
    apply board_set_Ok in Eb as [Hr ->]; [| done].
    injection E3 as <- <-.
    assert (Hne : m_to m + 8 <> m_from m).
    { intros Heq. rewrite Heq, Hfrom2 in HP. discriminate. }
    split.
    { right. split; [done |]. split; [rewrite HsE; discriminate |].
      intros _. rewrite <- Hother; [done | done | lia]. }
    repeat split; auto; simpl.
    - by rewrite !put_length.
    - pose proof (pieces_set_update k _ None ps2 Hk) as Hu. simpl in Hu.
      pose proof (board_entries_put b2 (m_to m + 8) "." _ HP) as Hb.
      rewrite cell_empty, cell_real in Hb by discriminate.
      ms_solve. }
  (* promotion *)
  apply char_eqb_neq in Hse, HsE.
  bind_inv E3 as ps' Ee. apply pieces_erase_Ok in Ee as (e & _ & ->).
  bind_inv E3 as b' Eb. apply board_set_Ok in Eb as [_ ->]; [| done].
  injection E3 as <- <-.
  split.
  { right. split; [done |]. split; intros; congruence. }
  repeat split; auto; simpl.
  - by rewrite !put_length.
  - rewrite pieces_set_insert.
    pose proof (pieces_set_update i _ None ps2 Hi2) as Hu. simpl in Hu.
    pose proof (board_entries_put b2 (m_to m) (m_special m) _ Hto2) as Hb.
    rewrite !cell_real in Hb by done.
    ms_solve.
Qed.

Lemma board_ext (b b' : list ascii) :
  length b = 64%nat -> length b' = 64%nat ->
  (forall t, 0 <= t < 64 -> board_at b t = board_at b' t) ->
  b = b'.
Proof.
  intros Hl Hl' Hall. apply list_eq. intros i.
  destruct (decide (i < 64)%nat) as [Hi | Hi].
  - specialize (Hall (Z.of_nat i) ltac:(lia)).
    unfold board_at in Hall.
    destruct (Z.leb_spec 0 (Z.of_nat i)); [| lia].
    destruct (Z.ltb_spec (Z.of_nat i) 64); [| lia]. simpl in Hall.
    rewrite Nat2Z.id in Hall.
    destruct (lookup_lt_is_Some_2 b i ltac:(lia)) as [x Hx].
    destruct (lookup_lt_is_Some_2 b' i ltac:(lia)) as [y Hy].
    rewrite Hx, Hy in *. by simplify_eq.
  - rewrite !lookup_ge_None_2; [done | lia | lia].
Qed.

(** Reading a board after a few writes. *)
Ltac board_reads :=
  repeat (rewrite board_at_put by (rewrite ?put_length; (done || lia)));
  repeat case_decide; subst; try done; try lia; try congruence.

Lemma board_before_after (b : list ascii) (m : Move) :
  length b = 64%nat ->
  move_ok b (m_last_enpassant m) m ->
  special_ok b m ->
  board_before (board_after b m) m = b.
Proof.
  intros Hlen [Hp Hpr Hc Hd Hsp _] Hs.
  destruct (proj1 (board_at_Ok _ _ _) Hp) as [Hfrom _].
  destruct (proj1 (board_at_Ok _ _ _) Hc) as [Hto _].
  unfold board_before, board_after.
  destruct (m_special m =c NUL) eqn:Hnul.
  { apply board_ext; [by rewrite !put_length | done |].
    intros t Ht. board_reads. }
  apply char_eqb_neq in Hnul.
  destruct Hs as [Hs | (Hside & He & HE)]; [done |].
  destruct (m_special m =c "e") eqn:Hse.
  { apply char_eqb_eq in Hse. specialize (He Hse).
    destruct (proj1 (board_at_Ok _ _ _) He) as [Hr _].
    assert (m_to m - 8 <> m_from m).
    { intros Heq. rewrite Heq in He. rewrite Hp in He.
      injection He as Hpp. rewrite Hpp, Hse in Hside. discriminate. }
    apply board_ext; [by rewrite !put_length | done |].
    intros t Ht. board_reads. }
  destruct (m_special m =c "E") eqn:HsE.
  { apply char_eqb_eq in HsE. specialize (HE HsE).
    destruct (proj1 (board_at_Ok _ _ _) HE) as [Hr _].
    assert (m_to m + 8 <> m_from m).
    { intros Heq. rewrite Heq in HE. rewrite Hp in HE.
      injection HE as Hpp. rewrite Hpp, HsE in Hside. discriminate. }
    apply board_ext; [by rewrite !put_length | done |].
    intros t Ht. board_reads. }
  apply board_ext; [by rewrite !put_length | done |].
  intros t Ht. board_reads.
Qed.

Lemma board_set_put (b : list ascii) (s : Z) (c : ascii) :
  length b = 64%nat -> 0 <= s < 64 -> board_set b s c = Ok (put s c b).
Proof. intros Hl Hs. by apply board_set_Ok. Qed.

Lemma NUL_not_letter : NUL <> "e"%char /\ NUL <> "E"%char.
Proof. split; discriminate. Qed.

Lemma arriving_real (b : list ascii) (m : Move) :
  move_ok b (m_last_enpassant m) m -> arriving m <> "."%char.
Proof.
  intros [_ Hpr _ _ Hsp _]. unfold arriving.
  repeat (case_match; try done).
Qed.

Lemma board_after_length (b : list ascii) (m : Move) :
  length (board_after b m) = length b.
Proof.
  unfold board_after. repeat case_match; by rewrite !put_length.
Qed.

Lemma board_at_after_to (b : list ascii) (m : Move) :
  length b = 64%nat ->
  move_ok b (m_last_enpassant m) m -> special_ok b m ->
  board_at (board_after b m) (m_to m) = Ok (arriving m).
Proof.
  intros Hlen [Hp Hpr Hc Hd Hsp _] Hs.
  destruct (proj1 (board_at_Ok _ _ _) Hp) as [Hfrom _].
  destruct (proj1 (board_at_Ok _ _ _) Hc) as [Hto _].
  unfold board_after, arriving.
  destruct (m_special m =c NUL) eqn:Hnul; [board_reads |].
  apply char_eqb_neq in Hnul.
  destruct Hs as [Hs | (Hside & He & HE)]; [done |].
  destruct (m_special m =c "e") eqn:Hse.
  { apply char_eqb_eq in Hse. specialize (He Hse).
    destruct (proj1 (board_at_Ok _ _ _) He) as [Hr _]. board_reads. }
  destruct (m_special m =c "E") eqn:HsE.
  { apply char_eqb_eq in HsE. specialize (HE HsE).
    destruct (proj1 (board_at_Ok _ _ _) HE) as [Hr _]. board_reads. }
  board_reads.
Qed.

Lemma board_entries_after (b : list ascii) (m : Move) :
  length b = 64%nat ->
  move_ok b (m_last_enpassant m) m -> special_ok b m ->
  board_entries (board_after b m) ⊎ {[+ (m_piece m, m_from m) +]}
    ⊎ cell (m_captured m) (m_to m) ⊎ en_passant_victim m
  = board_entries b ⊎ {[+ (arriving m, m_to m) +]}.
Proof.
  intros Hlen [Hp Hpr Hc Hd Hsp Hl] Hs.
  destruct (proj1 (board_at_Ok _ _ _) Hp) as [Hfrom _].
  destruct (proj1 (board_at_Ok _ _ _) Hc) as [Hto _].
  pose proof (board_entries_put b (m_from m) "." _ Hp) as Hb1.
  rewrite cell_empty, (cell_real _ _ Hpr) in Hb1.
  assert (Hc1 : board_at (put (m_from m) "." b) (m_to m) = Ok (m_captured m))
    by board_reads.
  pose proof (board_entries_put _ (m_to m) (m_piece m) _ Hc1) as Hb2.
  rewrite (cell_real _ _ Hpr) in Hb2.
  set (b2 := put (m_to m) (m_piece m) (put (m_from m) "." b)) in *.
  assert (Hlen2 : length b2 = 64%nat) by (unfold b2; by rewrite !put_length).
  unfold board_after, arriving, en_passant_victim. fold b2.
  destruct (m_special m =c NUL) eqn:Hnul.
  { apply char_eqb_eq in Hnul. rewrite Hnul. simpl. ms_solve. }
  apply char_eqb_neq in Hnul.
  destruct Hs as [Hs | (Hside & He & HE)]; [done |].
  destruct (m_special m =c "e") eqn:Hse.
  { apply char_eqb_eq in Hse. specialize (He Hse).
    destruct (proj1 (board_at_Ok _ _ _) He) as [Hr _].
    assert (m_to m - 8 <> m_from m).
    { intros Heq. rewrite Heq in He. rewrite Hp in He.
      injection He as Hpp. rewrite Hpp, Hse in Hside. discriminate. }
    assert (He2 : board_at b2 (m_to m - 8) = Ok "P"%char)
      by (unfold b2; board_reads).
    pose proof (board_entries_put b2 (m_to m - 8) "." _ He2) as Hb3.
    rewrite cell_empty, cell_real in Hb3 by discriminate.
    ms_solve. }
  destruct (m_special m =c "E") eqn:HsE.
  { apply char_eqb_eq in HsE. specialize (HE HsE).
    destruct (proj1 (board_at_Ok _ _ _) HE) as [Hr _].
    assert (m_to m + 8 <> m_from m).
    { intros Heq. rewrite Heq in HE. rewrite Hp in HE.
      injection HE as Hpp. rewrite Hpp, HsE in Hside. discriminate. }
    assert (He2 : board_at b2 (m_to m + 8) = Ok "p"%char)
      by (unfold b2; board_reads).
    pose proof (board_entries_put b2 (m_to m + 8) "." _ He2) as Hb3.
    rewrite cell_empty, cell_real in Hb3 by discriminate.
    ms_solve. }
  assert (Ht2 : board_at b2 (m_to m) = Ok (m_piece m))
    by (unfold b2; board_reads).
  pose proof (board_entries_put b2 (m_to m) (m_special m) _ Ht2) as Hb3.
  rewrite !cell_real in Hb3 by done.
  ms_solve.
Qed.

Lemma set_second_at (i : nat) (sq : Z) (ps : slots) (e : entry) :
  ps !! i = Some (Some e) ->
  set_second i sq ps = Ok (<[i := Some (fst e, sq)]> ps).
Proof. intros H. apply set_second_Ok. eauto. Qed.

Lemma pieces_erase_at (i : nat) (ps : slots) (e : entry) :
  ps !! i = Some (Some e) -> pieces_erase i ps = Ok (<[i := None]> ps).
Proof. intros H. apply pieces_erase_Ok. eauto. Qed.

(** Undoing the move that led to a well-formed position restores the board
    the move was made on. *)
Lemma undo_move_after (b : list ascii) (pos1 : Position) (m : Move)
    (h : list Move) :
  length b = 64%nat ->
  move_ok b (m_last_enpassant m) m -> special_ok b m ->
  wf pos1 -> m_board pos1 = board_after b m -> m_prev_moves pos1 = m :: h ->
  exists pos2, undo_move pos1 = Ok pos2 /\
    m_board pos2 = b /\
    m_to_move pos2 = flip_to_move (m_to_move pos1) /\
    m_en_passant pos2 = m_last_enpassant m /\
    m_prev_moves pos2 = h /\
    pieces_set (m_pieces pos2) = board_entries b.
Proof.
  intros Hlen Hok Hs [Hlen1 Hag1 Htm1] Hb1 Hh.
  pose proof (board_entries_after b m Hlen Hok Hs) as Hent.
  pose proof (board_at_after_to b m Hlen Hok Hs) as Hat.
  pose proof (arriving_real b m Hok) as Harr.
  pose proof (board_before_after b m Hlen Hok Hs) as Hback.
  pose proof Hok as [Hp Hpr Hc Hd Hsp _].
  destruct (proj1 (board_at_Ok _ _ _) Hp) as [Hfrom _].
  destruct (proj1 (board_at_Ok _ _ _) Hc) as [Hto _].
  destruct pos1 as [b1 tm ep ps hist]. simpl in *. subst b1 hist.
  unfold undo_move. simpl. rewrite Hat. simpl.
  destruct (get_piece_found ps (arriving m) (m_to m)) as [i Hi].
  { rewrite Hag1. apply elem_of_board_entries; [done | by split]. }
  rewrite Hi. simpl.
  apply get_piece_Some in Hi.
  set (ps1 := if negb (m_captured m =c ".")
              then pieces_insert (m_captured m, m_to m) ps else ps).
  assert (Hps1 : pieces_set ps1 = pieces_set ps ⊎ cell (m_captured m) (m_to m)
                 /\ ps1 !! i = Some (Some (arriving m, m_to m))).
  { unfold ps1, cell. destruct (m_captured m =c "."); simpl.
    - split; [ms_solve | done].
    - split; [apply pieces_set_insert |].
      unfold pieces_insert. rewrite lookup_app_l; [done |].
      eapply lookup_lt_Some; eauto. }
  destruct Hps1 as [Hps1 Hi1].
  rewrite (set_second_at _ _ _ _ Hi1). simpl.
  pose proof (pieces_set_update i _ (Some (arriving m, m_from m)) ps1 Hi1) as Hu.
  simpl in Hu.
  set (ps2 := <[i := Some (arriving m, m_from m)]> ps1) in *.
  assert (Hi2 : ps2 !! i = Some (Some (arriving m, m_from m))).
  { unfold ps2. apply list_lookup_insert_eq. eapply lookup_lt_Some; eauto. }
  rewrite board_set_put; [| by rewrite board_after_length | done]. simpl.
  rewrite board_set_put;
    [| by rewrite put_length, board_after_length | done]. simpl.
  unfold board_before in Hback.
  unfold arriving, en_passant_victim in *.
  destruct (m_special m =c NUL) eqn:Hnul; simpl.
  { eexists. split; [reflexivity |]. simpl.
    apply char_eqb_eq in Hnul. rewrite Hnul in Hent. simpl in Hent.
    repeat split; auto. ms_solve. }
  apply char_eqb_neq in Hnul.
  destruct Hs as [Hs | (Hside & He & HE)]; [done |].
  rewrite Hside. rewrite eqb_reflx. simpl.
  destruct (m_special m =c "e") eqn:Hse.
  { apply char_eqb_eq in Hse. specialize (He Hse).
    destruct (proj1 (board_at_Ok _ _ _) He) as [Hr _].
    rewrite (int_sub_small (m_to m) 8) by lia.
    rewrite board_set_put;
      [| by rewrite !put_length, board_after_length | done]. simpl.
    eexists. split; [reflexivity |]. simpl.
    repeat split; auto. rewrite pieces_set_insert. ms_solve. }
  destruct (m_special m =c "E") eqn:HsE.
  { apply char_eqb_eq in HsE. specialize (HE HsE).
    destruct (proj1 (board_at_Ok _ _ _) HE) as [Hr _].
    rewrite (int_add_small (m_to m) 8) by lia.
    rewrite board_set_put;
      [| by rewrite !put_length, board_after_length | done]. simpl.
    eexists. split; [reflexivity |]. simpl.
    repeat split; auto. rewrite pieces_set_insert. ms_solve. }
  rewrite (pieces_erase_at _ _ _ Hi2). simpl.
  rewrite board_set_put;
    [| by rewrite !put_length, board_after_length | done]. simpl.
  eexists. split; [reflexivity |]. simpl.
  repeat split; auto. rewrite pieces_set_insert.
  pose proof (pieces_set_update i _ None ps2 Hi2) as Hu2. simpl in Hu2.
  ms_solve.
Qed.

(** A generated move whose special part passes the checks can be made. *)
Lemma perform_move_total (pos : Position) (m : Move) :
  wf pos ->
  move_ok (m_board pos) (m_last_enpassant m) m ->
  special_ok (m_board pos) m ->
  exists pos1, perform_move pos m = Ok pos1.
Proof.
  intros [Hlen Hag Htm] Hok Hs.
  pose proof Hok as [Hp Hpr Hc Hd Hsp _].
  destruct (proj1 (board_at_Ok _ _ _) Hp) as [Hfrom _].
  destruct (proj1 (board_at_Ok _ _ _) Hc) as [Hto _].
  destruct pos as [b tm ep ps hist]. simpl in *.
  destruct (get_piece_found ps (m_piece m) (m_from m)) as [i Hi].
  { rewrite Hag. apply elem_of_board_entries; [done | by split]. }
  assert (E1 : exists ps1,
    (if negb (m_captured m =c ".")
     then do taken_piece <-
            found_or_throw (get_piece ps (m_captured m) (m_to m))
                           "taken piece not found";
          pieces_erase taken_piece ps
     else Ok ps) = Ok ps1).
  { destruct (m_captured m =c ".") eqn:Hcap; simpl; [eauto |].
    apply char_eqb_neq in Hcap.
    destruct (get_piece_found ps (m_captured m) (m_to m)) as [j Hj].
    { rewrite Hag. apply elem_of_board_entries; [done | by split]. }
    rewrite Hj. simpl. apply get_piece_Some in Hj.
    rewrite (pieces_erase_at _ _ _ Hj). eauto. }
  destruct E1 as [ps1 E1].
  assert (E2 : exists ps2, set_second i (m_to m) ps1 = Ok ps2).
  { assert (Hi1 : ps1 !! i = Some (Some (m_piece m, m_from m))).
    { pose proof (get_piece_Some _ _ _ _ Hi) as Hpi.
      destruct (m_captured m =c ".") eqn:Hcap; simpl in E1.
      - by simplify_eq.
      - bind_inv E1 as j Ej. apply found_or_throw_Ok in Ej.
        apply get_piece_Some in Ej.
        apply pieces_erase_Ok in E1 as (e & He & ->).
        rewrite list_lookup_insert_ne; [done |].
        intros ->. rewrite Ej in Hpi. by simplify_eq. }
    rewrite (set_second_at _ _ _ _ Hi1). eauto. }
  destruct E2 as [ps2 E2].
  destruct (plain_move_agree _ _ _ _ _ _ Hlen Hag Hok Hi E1 E2) as [Hi2 Hag2].
  unfold perform_move. simpl. rewrite Hi. simpl. rewrite E1. simpl.
  rewrite E2. simpl.
  rewrite board_set_put by done. simpl.
  rewrite board_set_put; [| by rewrite put_length | done]. simpl.
  set (b2 := put (m_to m) (m_piece m) (put (m_from m) "." b)) in *.
  assert (Hlen2 : length b2 = 64%nat) by (unfold b2; by rewrite !put_length).
  destruct (m_special m =c NUL) eqn:Hnul; simpl; [eauto |].
  apply char_eqb_neq in Hnul.
  destruct Hs as [Hs | (Hside & He & HE)]; [done |].
  rewrite Hside, eqb_reflx. simpl.
  destruct (m_special m =c "e") eqn:Hse.
  { apply char_eqb_eq in Hse. specialize (He Hse).
    destruct (proj1 (board_at_Ok _ _ _) He) as [Hr _].
    assert (m_to m - 8 <> m_from m).
    { intros Heq. rewrite Heq in He. rewrite Hp in He.
      injection He as Hpp. rewrite Hpp, Hse in Hside. discriminate. }
    rewrite (int_sub_small (m_to m) 8) by lia.
    destruct (get_piece_found ps2 "P" (m_to m - 8)) as [k Hk].
    { rewrite Hag2. apply elem_of_board_entries; [done |].
      split; [discriminate |]. unfold b2. board_reads. }
    rewrite Hk. simpl. apply get_piece_Some in Hk.
    rewrite (pieces_erase_at _ _ _ Hk). simpl.
    rewrite board_set_put by done. simpl. eauto. }
  destruct (m_special m =c "E") eqn:HsE.
  { apply char_eqb_eq in HsE. specialize (HE HsE).
    destruct (proj1 (board_at_Ok _ _ _) HE) as [Hr _].
    assert (m_to m + 8 <> m_from m).
    { intros Heq. rewrite Heq in HE. rewrite Hp in HE.
      injection HE as Hpp. rewrite Hpp, HsE in Hside. discriminate. }
    rewrite (int_add_small (m_to m) 8) by lia.
    destruct (get_piece_found ps2 "p" (m_to m + 8)) as [k Hk].
    { rewrite Hag2. apply elem_of_board_entries; [done |].
      split; [discriminate |]. unfold b2. board_reads. }
    rewrite Hk. simpl. apply get_piece_Some in Hk.
    rewrite (pieces_erase_at _ _ _ Hk). simpl.
    rewrite board_set_put by done. simpl. eauto. }
  rewrite (pieces_erase_at _ _ _ Hi2). simpl.
  rewrite board_set_put by done. simpl. eauto.
Qed.

(** ** Undo symmetry *)

Lemma elements_list_to_set_disj (l : list entry) :
  Permutation (elements (list_to_set_disj l : gmultiset entry)) l.
Proof.
  induction l as [|x l IH].
  - by rewrite list_to_set_disj_nil, gmultiset_elements_empty.
  - rewrite list_to_set_disj_cons, gmultiset_elements_disj_union,
      gmultiset_elements_singleton. simpl. by rewrite IH.
Qed.

Lemma wf_same_pieces (p q : Position) :
  pieces_set (m_pieces p) = pieces_set (m_pieces q) ->
  Permutation (live (m_pieces p)) (live (m_pieces q)).
Proof.
  unfold pieces_set. intros Heq.
  rewrite <- (elements_list_to_set_disj (live (m_pieces p))).
  rewrite <- (elements_list_to_set_disj (live (m_pieces q))).
  by rewrite Heq.
Qed.

Lemma get_hash_same `{StdHash} (p q : Position) :
  m_board p = m_board q -> m_to_move p = m_to_move q ->
  m_en_passant p = m_en_passant q -> get_hash p = get_hash q.
Proof. unfold get_hash. by intros -> -> ->. Qed.

(** Making a generated move and undoing it gives the position back. *)
Lemma perform_undo (pos pos1 : Position) (m : Move) :
  wf pos ->
  move_ok (m_board pos) (m_en_passant pos) m ->
  perform_move pos m = Ok pos1 ->
  exists pos2, undo_move pos1 = Ok pos2 /\ same_position pos2 pos /\ wf pos2.
Proof.
  intros Hwf Hok Hperf.
  pose proof Hok as [_ _ _ _ _ Hlast].
  rewrite <- Hlast in Hok.
  destruct (perform_move_inv _ _ _ Hwf Hok Hperf)
    as (Hs & Hb1 & Htm1 & Hep1 & Hh1 & Hwf1).
  destruct Hwf as [Hlen Hag Htm].
  destruct (undo_move_after _ _ _ _ Hlen Hok Hs Hwf1 Hb1 Hh1)
    as (pos2 & Hundo & Hb2 & Htm2 & Hep2 & Hh2 & Hag2).
  destruct (flip_to_move_wb _ Htm) as [_ Hflip].
  exists pos2. split; [done |].
  assert (Htm' : m_to_move pos2 = m_to_move pos) by (by rewrite Htm2, Htm1).
  split.
  - split; try done; [congruence |].
    apply wf_same_pieces. by rewrite Hag2, Hag.
  - split; [by rewrite Hb2 | by rewrite Hb2 | by rewrite Htm'].
Qed.

(** ** What a move does to each node of the multimap *)

Lemma entry_on_board (b : list ascii) (ps : slots) (e : entry) :
  length b = 64%nat -> pieces_set ps = board_entries b ->
  Some e ∈ ps -> fst e <> "."%char /\ board_at b (snd e) = Ok (fst e).
Proof.
  intros Hlen Hag He. apply elem_of_pieces_set in He. rewrite Hag in He.
  destruct e as [c s]. by apply elem_of_board_entries in He.
Qed.

Lemma erase_as_map (b : list ascii) (ps : slots) (k : nat) (e0 : entry) :
  pieces_set ps = board_entries b ->
  ps !! k = Some (Some e0) ->
  <[k := None]> ps
  = slot_map (fun e => if decide (e = e0) then None else Some e) <$> ps.
Proof.
  intros Hag Hk. apply (insert_as_map ps k e0); [done | | |].
  - intros j Hj. eapply slots_unique; eauto.
  - by rewrite decide_True.
  - intros e Hne _. by rewrite decide_False.
Qed.

Ltac slot_cases :=
  simpl;
  repeat (case_decide; simpl);
  rewrite ?gmultiset_elem_of_singleton in *;
  simplify_eq/=; try done; try congruence; try lia;
  try match goal with
      | H : _ ∈ ∅ |- _ => destruct (gmultiset_not_elem_of_empty _ H)
      end.

Lemma perform_move_pieces (pos pos1 : Position) (m : Move) :
  wf pos ->
  move_ok (m_board pos) (m_last_enpassant m) m ->
  perform_move pos m = Ok pos1 ->
  m_pieces pos1 = pieces_after m (m_pieces pos).
Proof.
  intros Hwf Hok H.
  destruct (perform_move_inv _ _ _ Hwf Hok H) as (Hs & _).
  destruct Hwf as [Hlen Hag Htm].
  pose proof Hok as [Hp Hpr Hc Hd Hsp _].
  destruct (proj1 (board_at_Ok _ _ _) Hp) as [Hfrom _].
  destruct (proj1 (board_at_Ok _ _ _) Hc) as [Hto _].
  assert (Hreal : forall e, Some e ∈ m_pieces pos ->
            fst e <> "."%char /\ board_at (m_board pos) (snd e) = Ok (fst e))
    by (intros e; by apply entry_on_board).
  unfold perform_move in H.
  set (ps := m_pieces pos) in *.
  bind_inv H as i Ei. apply found_or_throw_Ok in Ei.
  pose proof (get_piece_Some _ _ _ _ Ei) as Hpi.
  bind_inv H as ps1 E1. bind_inv H as ps2 E2.
  destruct (plain_move_agree _ _ _ _ _ _ Hlen Hag Hok Ei E1 E2) as [Hi2 Hag2].
  (* the capture *)
  assert (Hps1 : ps1 = slot_map (fun e =>
            if decide (e = (m_captured m, m_to m)) then None else Some e)
          <$> ps).
  { destruct (m_captured m =c ".") eqn:Hcap; simpl in E1.
    - apply char_eqb_eq in Hcap. injection E1 as <-.
      rewrite <- (list_fmap_id ps) at 1. apply list_fmap_ext.
      intros j [e|] Hj; simpl; [| done].
      rewrite decide_False; [done |]. intros ->.
      apply list_elem_of_lookup_2, Hreal in Hj as [Hj _]. simpl in Hj.
      congruence.
    - bind_inv E1 as j Ej. apply found_or_throw_Ok, get_piece_Some in Ej.
      apply pieces_erase_Ok in E1 as (e & _ & ->).
      by eapply erase_as_map. }
  (* the moving piece *)
  assert (Hps2 : ps2 = slot_map (fun e =>
            if decide (e = (m_piece m, m_from m))
            then Some (m_piece m, m_to m) else Some e) <$> ps1).
  { assert (Hi1 : ps1 !! i = Some (Some (m_piece m, m_from m))).
    { rewrite Hps1, list_lookup_fmap, Hpi. simpl.
      rewrite decide_False; [done |]. congruence. }
    apply set_second_Ok in E2 as (e & He & ->). rewrite Hi1 in He.
    simplify_eq. simpl.
    apply (insert_as_map _ i (m_piece m, m_from m)); [done | | |].
    - intros j (e & Hj & He)%slot_map_lookup.
      case_decide; simplify_eq. exact (slots_unique _ _ _ _ _ Hag Hj Hpi).
    - by rewrite decide_True.
    - intros e Hne _. by rewrite decide_False. }
  bind_inv H as b1 Eb1. bind_inv H as b2 Eb2.
  bind_inv H as [ps3 b3] E3. injection H as <-. simpl.
  unfold pieces_after, slot_after, is_promotion, en_passant_victim.
  fold ps.
  destruct (m_special m =c NUL) eqn:Hnul; simpl in E3.
  { apply char_eqb_eq in Hnul. simplify_eq. rewrite Hnul. simpl.
    rewrite app_nil_r, slot_map_compose. apply slot_map_ext.
    intros e0 He0. slot_cases. }
  apply char_eqb_neq in Hnul.
  destruct Hs as [Hs | (Hside & HeP & HEp)]; [done |].
  rewrite Hside, eqb_reflx in E3. simpl in E3.
  destruct (m_special m =c "e") eqn:Hse.
  { apply char_eqb_eq in Hse. specialize (HeP Hse).
    rewrite (int_sub_small (m_to m) 8) in E3 by lia.
    bind_inv E3 as k Ek. apply found_or_throw_Ok, get_piece_Some in Ek.
    bind_inv E3 as ps' Ee. apply pieces_erase_Ok in Ee as (? & _ & ->).
    bind_inv E3 as b' Eb. injection E3 as <- <-.
    rewrite (erase_as_map _ _ _ _ Hag2 Ek). simpl. rewrite app_nil_r.
    rewrite Hps2, Hps1, !slot_map_compose. apply slot_map_ext.
    intros e0 He0.
    assert (m_to m - 8 <> m_from m).
    { intros Heq. rewrite Heq in HeP. rewrite Hp in HeP.
      injection HeP as Hpp. rewrite Hpp, Hse in Hside. discriminate. }
    slot_cases. }
  destruct (m_special m =c "E") eqn:HsE.
  { apply char_eqb_eq in HsE. specialize (HEp HsE).
    rewrite (int_add_small (m_to m) 8) in E3 by lia.
    bind_inv E3 as k Ek. apply found_or_throw_Ok, get_piece_Some in Ek.
    bind_inv E3 as ps' Ee. apply pieces_erase_Ok in Ee as (? & _ & ->).
    bind_inv E3 as b' Eb. injection E3 as <- <-.
    rewrite (erase_as_map _ _ _ _ Hag2 Ek). simpl. rewrite app_nil_r.
    rewrite Hps2, Hps1, !slot_map_compose. apply slot_map_ext.
    intros e0 He0.
    assert (m_to m + 8 <> m_from m).
    { intros Heq. rewrite Heq in HEp. rewrite Hp in HEp.
      injection HEp as Hpp. rewrite Hpp, HsE in Hside. discriminate. }
    slot_cases. }
  bind_inv E3 as ps' Ee. apply pieces_erase_Ok in Ee as (? & _ & ->).
  bind_inv E3 as b' Eb. injection E3 as <- <-.
  unfold pieces_insert. simpl. f_equal.
  rewrite (erase_as_map _ _ _ _ Hag2 Hi2).
  rewrite Hps2, Hps1, !slot_map_compose. apply slot_map_ext.
  intros e0 He0. destruct (Hreal e0 He0) as [Hr1 Hr2].
  slot_cases.
Qed.

Lemma undo_move_pieces (b : list ascii) (pos1 pos2 : Position) (m : Move)
    (h : list Move) :
  length b = 64%nat ->
  move_ok b (m_last_enpassant m) m -> special_ok b m ->
  wf pos1 -> m_board pos1 = board_after b m -> m_prev_moves pos1 = m :: h ->
  undo_move pos1 = Ok pos2 ->
  m_pieces pos2 = pieces_before m (m_pieces pos1).
Proof.
  intros Hlen Hok Hs [Hlen1 Hag1 Htm1] Hb1 Hh H.
  pose proof (board_at_after_to b m Hlen Hok Hs) as Hat.
  pose proof Hok as [Hp Hpr Hc Hd Hsp _].
  destruct (proj1 (board_at_Ok _ _ _) Hp) as [Hfrom _].
  destruct (proj1 (board_at_Ok _ _ _) Hc) as [Hto _].
  destruct pos1 as [b1 tm ep ps hist]. simpl in *. subst b1 hist.
  unfold undo_move in H. simpl in H. rewrite Hat in H. simpl in H.
  bind_inv H as i Ei. apply found_or_throw_Ok, get_piece_Some in Ei.
  assert (Hlt : (i < length ps)%nat) by (eapply lookup_lt_Some; eauto).
  set (capt := if negb (m_captured m =c ".")
               then [Some (m_captured m, m_to m)] else []).
  assert (Hpsa : (if negb (m_captured m =c ".")
                  then pieces_insert (m_captured m, m_to m) ps else ps)
                 = ps ++ capt).
  { unfold capt, pieces_insert. destruct (negb _); [done |].
    by rewrite app_nil_r. }
  rewrite Hpsa in H.
  bind_inv H as ps_b Eb. apply set_second_Ok in Eb as (e & He & Hpsb).
  rewrite lookup_app_l in He by done. rewrite Ei in He.
  injection He as <-. simpl in Hpsb.
  rewrite insert_app_l in Hpsb by done.
  rewrite (insert_as_map ps i (arriving m, m_to m) _
             (fun e => if decide (e = (arriving m, m_to m))
                       then Some (arriving m, m_from m) else Some e))
    in Hpsb; [| done | | by rewrite decide_True |].
  2:{ intros j Hj. eapply slots_unique; eauto. }
  2:{ intros e Hne _. by rewrite decide_False. }
  bind_inv H as b2 Eb2. bind_inv H as b3 Eb3.
  bind_inv H as [ps3 b4] E3. injection H as <-. simpl.
  unfold pieces_before, slot_before, is_promotion. fold capt.
  unfold arriving in *.
  destruct (m_special m =c NUL) eqn:Hnul; simpl in E3.
  { injection E3 as <- <-. subst ps_b. simpl. by rewrite app_nil_r. }
  destruct (negb (eqb _ _)); [discriminate |].
  destruct (m_special m =c "e") eqn:Hse.
  { bind_inv E3 as b' Eb'. injection E3 as <- <-. subst ps_b. simpl.
    unfold pieces_insert. rewrite <- app_assoc.
    rewrite (int_sub_small (m_to m) 8) by lia. done. }
  destruct (m_special m =c "E") eqn:HsE.
  { bind_inv E3 as b' Eb'. injection E3 as <- <-. subst ps_b. simpl.
    unfold pieces_insert. rewrite <- app_assoc.
    rewrite (int_add_small (m_to m) 8) by lia. done. }
  bind_inv E3 as ps' Ee. apply pieces_erase_Ok in Ee as (e & He & ->).
  bind_inv E3 as b' Eb'. injection E3 as <- <-. simpl.
  unfold pieces_insert. rewrite app_assoc. f_equal.
  subst ps_b. rewrite insert_app_l by (by rewrite length_fmap).
  f_equal.
  assert (Hnot : Some (m_special m, m_from m) ∉ ps).
  { intros Hj. apply elem_of_pieces_set in Hj. rewrite Hag1 in Hj.
    apply elem_of_board_entries in Hj as [_ Hj];
      [| by rewrite board_after_length].
    revert Hj. unfold board_after. rewrite Hnul, Hse, HsE. board_reads. }
  assert (Hi' : (slot_map (fun e => if decide (e = (m_special m, m_to m))
                   then Some (m_special m, m_from m) else Some e) <$> ps) !! i
                = Some (Some (m_special m, m_from m))).
  { rewrite list_lookup_fmap, Ei. simpl. by rewrite decide_True. }
  rewrite (insert_as_map _ i (m_special m, m_from m) None
             (fun e => if decide (e = (m_special m, m_from m))
                       then None else Some e)); [| done | | by rewrite decide_True |].
  - rewrite slot_map_compose. apply slot_map_ext. intros e0 He0. slot_cases.
  - intros j (e0 & Hj & He0)%slot_map_lookup.
    case_decide; simplify_eq.
    + eapply slots_unique; eauto.
    + destruct Hnot. by eapply list_elem_of_lookup_2.
  - intros e0 Hne _. by rewrite decide_False.
Qed.

(** ** Generated moves describe the board they were generated on *)

Lemma for_each_inv {A S : Type} (I : S -> Prop) (l : list A) (s s' : S)
    (body : A -> S -> res S) :
  I s ->
  (forall x s0 s1, In x l -> I s0 -> body x s0 = Ok s1 -> I s1) ->
  for_each l s body = Ok s' -> I s'.
Proof.
  revert s. induction l as [|x l IH]; intros s Hs Hbody H; simpl in H.
  - by simplify_eq.
  - bind_inv H as s1 E. eapply IH; [| | exact H].
    + eapply Hbody; [by left | exact Hs | exact E].
    + intros y s0 s2 Hy. apply Hbody. by right.
Qed.

Lemma get_square_Ok (col row sq : Z) :
  get_square col row = Ok sq ->
  are_valid_coords col row = true /\ sq = col + 8 * row /\ 0 <= sq < 64.
Proof.
  unfold get_square. destruct (are_valid_coords col row) eqn:Hv; simpl;
    [| discriminate].
  intros [= <-]. split; [done |]. split; [done |].
  unfold are_valid_coords in Hv. lia.
Qed.

Lemma square_coords (square : Z) :
  0 <= square < 64 ->
  square = int_rem square 8 + 8 * int_div square 8 /\
  0 <= int_rem square 8 < 8 /\ 0 <= int_div square 8 < 8.
Proof.
  intros Hs. unfold int_rem, int_div.
  rewrite Z.rem_mod_nonneg, Z.quot_div_nonneg by lia.
  assert (Hq : 0 <= square / 8 < 8).
  { split; [apply Z.div_pos; lia | apply Z.div_lt_upper_bound; lia]. }
  rewrite wrap32_id by (unfold is_int, INT_MIN, INT_MAX; lia).
  pose proof (Z.div_mod square 8 ltac:(lia)).
  pose proof (Z.mod_pos_bound square 8 ltac:(lia)). lia.
Qed.

Section generated.
Variables (b : list ascii) (ep : Z) (piece : ascii) (square : Z).
Hypothesis Hpiece : board_at b square = Ok piece.
Hypothesis Hreal : piece <> "."%char.

Lemma push_ok (sq : Z) (t sp : ascii) :
  board_at b sq = Ok t -> sq <> square -> sp <> "."%char ->
  move_ok b ep (mkMove square sq piece t sp ep).
Proof. intros Ht Hne Hsp. by split. Qed.

(** A square holding something else than the moving piece is another
    square. *)
Lemma other_square (sq : Z) (t : ascii) :
  board_at b sq = Ok t ->
  t = "."%char \/ is_upper t <> is_upper piece ->
  sq <> square.
Proof.
  intros Ht Hcond ->. rewrite Hpiece in Ht. injection Ht as <-.
  destruct Hcond; congruence.
Qed.

Lemma pawn_arrivals_ok (sq : Z) (t : ascii) (target_row : Z) :
  board_at b sq = Ok t -> sq <> square ->
  Forall (move_ok b ep) (pawn_arrivals square sq piece t ep target_row).
Proof.
  intros Ht Hne. unfold pawn_arrivals.
  repeat case_match; simpl;
    repeat (constructor; [by apply push_ok |]); constructor.
Qed.

Lemma step_moves_ok (col row : Z) (offs : list (Z * Z)) (ms : list Move) :
  step_moves b ep piece square col row offs = Ok ms ->
  Forall (move_ok b ep) ms.
Proof.
  unfold step_moves. apply for_each_inv; [constructor |].
  intros cds s0 s1 _ Hs0 H.
  destruct (negb (are_valid_coords _ _)); [by simplify_eq |].
  bind_inv H as sq Esq. bind_inv H as t Et.
  destruct ((t =c ".") || negb (eqb (is_upper piece) (is_upper t))) eqn:Hc;
    [| by simplify_eq].
  simpl in H. simplify_eq.
  apply Forall_app. split; [done |]. constructor; [| constructor].
  apply push_ok; [done | | discriminate].
  eapply other_square; [done |].
  apply orb_prop in Hc as [Hc | Hc].
  - left. by apply char_eqb_eq.
  - right. apply negb_true_iff, eqb_false_iff in Hc. congruence.
Qed.

Lemma ray_moves_ok (fuel : nat) (cds curr : Z * Z) (result ms : list Move) :
  Forall (move_ok b ep) result ->
  ray_moves fuel b ep piece square cds curr result = Ok ms ->
  Forall (move_ok b ep) ms.
Proof.
  revert curr result. induction fuel as [|fuel IH]; intros curr result Hres H;
    simpl in H; [discriminate |].
  destruct (are_valid_coords _ _); [| by simplify_eq].
  bind_inv H as sq Esq. bind_inv H as t Et.
  destruct (negb (t =c ".") && eqb (is_upper piece) (is_upper t)) eqn:Hc;
    [by simplify_eq |].
  simpl in H.
  assert (Hnew : Forall (move_ok b ep)
                   (result ++ [mkMove square sq piece t NUL ep])).
  { apply Forall_app. split; [done |]. constructor; [| constructor].
    apply push_ok; [done | | discriminate].
    eapply other_square; [done |].
    apply andb_false_iff in Hc as [Hc | Hc].
    - left. apply negb_false_iff in Hc. by apply char_eqb_eq.
    - right. apply eqb_false_iff in Hc. congruence. }
  destruct (negb (t =c ".")); [by simplify_eq |].
  eapply IH; eauto.
Qed.

Lemma slide_moves_ok (col row : Z) (dirs : list (Z * Z)) (ms : list Move) :
  slide_moves b ep piece square col row dirs = Ok ms ->
  Forall (move_ok b ep) ms.
Proof.
  unfold slide_moves. apply for_each_inv; [constructor |].
  intros cds s0 s1 _ Hs0 H. eapply ray_moves_ok; eauto.
Qed.

Lemma pawn_moves_ok (ms : list Move) :
  pawn_moves b ep piece square (int_rem square 8) (int_div square 8) = Ok ms ->
  Forall (move_ok b ep) ms.
Proof.
  destruct (proj1 (board_at_Ok _ _ _) Hpiece) as [Hsq _].
  destruct (square_coords square Hsq) as (Hsplit & Hcol & Hrow).
  set (col := int_rem square 8) in *. set (row := int_div square 8) in *.
  unfold pawn_moves. intros H.
  set (dir := if is_upper piece then -1 else 1) in *.
  assert (Hdir : dir = -1 \/ dir = 1)
    by (unfold dir; destruct (is_upper piece); auto).
  bind_inv H as r1 E1.
  assert (Hr1 : Forall (move_ok b ep) r1).
  { revert E1. apply for_each_inv; [constructor |].
    intros c_dir s0 s1 Hin Hs0 Hb.
    destruct (negb (are_valid_coords _ _)); [by simplify_eq |].
    bind_inv Hb as sq Esq. bind_inv Hb as t Et.
    destruct (get_square_Ok _ _ _ Esq) as (_ & Hsq' & _).
    destruct (negb (t =c ".") && negb (eqb (is_upper t) (is_upper piece)))
      eqn:Hc.
    - simplify_eq. apply Forall_app. split; [done |].
      apply pawn_arrivals_ok; [done |].
      eapply other_square; [done |].
      apply andb_prop in Hc as [_ Hc].
      right. by apply negb_true_iff, eqb_false_iff in Hc.
    - destruct (_ =? ep); simplify_eq; [| done].
      apply Forall_app. split; [done |]. constructor; [| constructor].
      apply push_ok; [done | | destruct (is_upper piece); discriminate].
      assert (c_dir = 1 \/ c_dir = -1)
        by (destruct Hin as [<- | [<- | []]]; auto).
      lia. }
  bind_inv H as sq1 Esq1. bind_inv H as t1 Et1.
  bind_inv H as r2 E2.
  assert (Hr2 : Forall (move_ok b ep) r2).
  { destruct (t1 =c ".") eqn:Ht1; [| by simplify_eq].
    simpl in E2. simplify_eq.
    apply char_eqb_eq in Ht1. subst t1.
    apply Forall_app. split; [done |].
    apply pawn_arrivals_ok; [done |].
    eapply other_square; [done | by left]. }
  destruct (_ || _); [| by simplify_eq].
  simpl in H.
  destruct (t1 =c "."); [| by simplify_eq].
  bind_inv H as s2 Es2. bind_inv H as u2 Eu2.
  destruct (u2 =c ".") eqn:Hu2; [| by simplify_eq].
  simpl in H. simplify_eq.
  apply char_eqb_eq in Hu2. subst u2.
  apply Forall_app. split; [done |]. constructor; [| constructor].
  apply push_ok; [done | | discriminate].
  eapply other_square; [done | by left].
Qed.

Lemma find_pseudo_legal_moves_ok (pos : Position) (ms : list Move) :
  m_board pos = b -> m_en_passant pos = ep ->
  find_pseudo_legal_moves pos piece square = Ok ms ->
  Forall (move_ok b ep) ms.
Proof.
  intros Hb Hep. unfold find_pseudo_legal_moves. rewrite Hb, Hep.
  repeat case_match; intros Hms;
    eauto using pawn_moves_ok, step_moves_ok, slide_moves_ok.
  simplify_eq. constructor.
Qed.
End generated.

Lemma pseudo_legal_moves_ok (pos : Position) (ms : list Move) :
  wf pos ->
  pseudo_legal_moves pos = Ok ms ->
  Forall (move_ok (m_board pos) (m_en_passant pos)) ms.
Proof.
  intros [Hlen Hag _]. unfold pseudo_legal_moves, pseudo_legal_moves_in.
  apply for_each_inv; [constructor |].
  intros [piece square] s0 s1 Hin Hs0 H. simpl in H.
  destruct (negb _); [by simplify_eq |].
  bind_inv H as moves E. simplify_eq.
  apply Forall_app. split; [done |].
  assert (Hel : (piece, square) ∈ pieces_set (m_pieces pos)).
  { unfold pieces_set. apply elem_of_list_to_set_disj.
    by apply list_elem_of_In. }
  rewrite Hag in Hel. apply elem_of_board_entries in Hel as [Hr Hp]; [| done].
  eapply find_pseudo_legal_moves_ok; eauto.
Qed.

(** ** The legal-move filter *)

Lemma slot_round_trip (b : list ascii) (m : Move) (e0 e1 : entry) :
  move_ok b (m_last_enpassant m) m ->
  board_at b (snd e0) = Ok (fst e0) -> fst e0 <> "."%char ->
  slot_after m e0 = Some e1 -> slot_before m e1 = Some e0.
Proof.
  intros [Hp Hpr Hc Hd Hsp _] He0 Hr0.
  unfold slot_after, slot_before, arriving, is_promotion.
  destruct e0 as [c0 s0]. simpl in *.
  destruct (m_special m =c NUL), (m_special m =c "e"), (m_special m =c "E");
    simpl; intros H; repeat (case_decide; simplify_eq/=); try done;
    congruence.
Qed.

Lemma pieces_after_lookup (m : Move) (ps : slots) (it : nat) (e : entry) :
  ps !! it = Some (Some e) ->
  pieces_after m ps !! it = Some (slot_after m e).
Proof.
  intros H. unfold pieces_after.
  rewrite lookup_app_l
    by (rewrite length_fmap; eapply lookup_lt_Some; eauto).
  by rewrite list_lookup_fmap, H.
Qed.

Lemma pieces_before_lookup (m : Move) (ps : slots) (it : nat) (e : entry) :
  ps !! it = Some (Some e) ->
  pieces_before m ps !! it = Some (slot_before m e).
Proof.
  intros H. unfold pieces_before.
  rewrite lookup_app_l
    by (rewrite length_fmap; eapply lookup_lt_Some; eauto).
  by rewrite list_lookup_fmap, H.
Qed.

Lemma tracks_refl (it : nat) (pos : Position) : wf pos -> tracks it pos pos.
Proof. by split. Qed.

Lemma tracks_same (it : nat) (pos pk : Position) :
  wf pos -> tracks it pos pk -> same_position pk pos.
Proof.
  intros [_ Hag _] [[_ Hagk _] Hb Ht He Hh _]. split; try done.
  apply wf_same_pieces. by rewrite Hagk, Hag, Hb.
Qed.

Lemma king_not_hit_same (it : nat) (p q : Position) :
  m_board p = m_board q -> m_pieces p !! it = m_pieces q !! it ->
  king_not_hit (Some it) p = king_not_hit (Some it) q.
Proof.
  intros Hb Hs. unfold king_not_hit, deref, square_hit. by rewrite Hb, Hs.
Qed.

(** Making the same move from two states of the same position. *)
Lemma perform_move_tracks (it : nat) (e0 : entry) (pos pk pk1 : Position)
    (m : Move) :
  wf pos -> tracks it pos pk ->
  m_pieces pos !! it = Some (Some e0) ->
  move_ok (m_board pos) (m_en_passant pos) m ->
  perform_move pk m = Ok pk1 ->
  exists pos1, perform_move pos m = Ok pos1 /\
    m_board pk1 = m_board pos1 /\
    m_pieces pk1 !! it = m_pieces pos1 !! it /\
    m_pieces pk1 !! it = Some (slot_after m e0).
Proof.
  intros Hwf [Hwfk Hb Ht He Hh Hs] Hit Hok Hperf.
  pose proof Hok as [_ _ _ _ _ Hlast]. rewrite <- Hlast in Hok.
  assert (Hokk : move_ok (m_board pk) (m_last_enpassant m) m)
    by (by rewrite Hb).
  destruct (perform_move_inv _ _ _ Hwfk Hokk Hperf) as (Hsp & Hb1 & _).
  rewrite Hb in Hsp.
  destruct (perform_move_total pos m Hwf Hok Hsp) as [pos1 Hperf'].
  destruct (perform_move_inv _ _ _ Hwf Hok Hperf') as (_ & Hb1' & _).
  exists pos1. split; [done |].
  rewrite (perform_move_pieces _ _ _ Hwfk Hokk Hperf).
  rewrite (perform_move_pieces _ _ _ Hwf Hok Hperf').
  rewrite (pieces_after_lookup m (m_pieces pk) it e0) by (by rewrite Hs).
  rewrite (pieces_after_lookup m (m_pieces pos) it e0) by done.
  split; [congruence | done].
Qed.

Lemma try_move_spec (it : nat) (e0 : entry) (pos pk pk' : Position)
    (m : Move) (acc acc' : list Move) :
  wf pos -> tracks it pos pk ->
  m_pieces pos !! it = Some (Some e0) ->
  move_ok (m_board pos) (m_en_passant pos) m ->
  try_move (Some it) m (pk, acc) = Ok (pk', acc') ->
  tracks it pos pk' /\
  exists safe, king_safe_after pos (Some it) m = Ok safe /\
    acc' = if safe then acc ++ [m] else acc.
Proof.
  intros Hwf Htr Hit Hok H.
  pose proof Htr as [Hwfk Hb Ht He Hh Hs].
  unfold try_move in H.
  bind_inv H as pk1 Eperf. bind_inv H as safe Esafe.
  bind_inv H as pk2 Eundo. injection H as <- <-.
  destruct (perform_move_tracks _ _ _ _ _ _ Hwf Htr Hit Hok Eperf)
    as (pos1 & Hperf' & Hb1 & Hs1 & Hs1').
  assert (Hokk : move_ok (m_board pk) (m_en_passant pk) m)
    by (by rewrite Hb, He).
  destruct (perform_undo _ _ _ Hwfk Hokk Eperf)
    as (pk2' & Hundo' & [Hb2 Ht2 He2 _ Hh2] & Hwf2).
  rewrite Eundo in Hundo'. injection Hundo' as <-.
  split.
  - split; try congruence.
    (* the node [it] *)
    pose proof Hokk as [_ _ _ _ _ Hlast]. rewrite <- Hlast in Hokk.
    destruct (perform_move_inv _ _ _ Hwfk Hokk Eperf)
      as (Hsp & Hbk1 & _ & _ & Hhk1 & Hwfk1).
    rewrite (undo_move_pieces _ _ _ _ _ (wf_length _ Hwfk) Hokk Hsp Hwfk1
               Hbk1 Hhk1 Eundo).
    unfold king_not_hit in Esafe. bind_inv Esafe as k Ek.
    apply deref_Ok in Ek. rewrite Hs1' in Ek. injection Ek as Hk.
    rewrite (pieces_before_lookup m _ it k) by (by rewrite Hs1', Hk).
    rewrite Hit. f_equal.
    destruct Hwf as [Hlen Hag _].
    assert (Hon : Some e0 ∈ m_pieces pos)
      by (by eapply list_elem_of_lookup_2).
    destruct (entry_on_board _ _ _ Hlen Hag Hon) as [Hr0 Hb0].
    rewrite Hb in Hokk.
    by eapply slot_round_trip.
  - exists safe. split; [| done].
    unfold king_safe_after. rewrite Hperf'. simpl.
    by rewrite <- (king_not_hit_same it pk1 pos1).
Qed.

Lemma pieces_find_Some (c : ascii) (ps : slots) (it : nat) :
  pieces_find c ps = Some it -> exists s, ps !! it = Some (Some (c, s)).
Proof.
  unfold pieces_find. intros H.
  destruct (list_find _ ps) as [[j x]|] eqn:Hf; simplify_eq/=.
  apply list_find_Some in Hf as (Hj & Hx & _).
  destruct x as [[c' s]|]; simplify_eq/=. eauto.
Qed.

Lemma try_moves_spec (it : nat) (e0 : entry) (pos : Position)
    (pseudo : list Move) :
  wf pos ->
  m_pieces pos !! it = Some (Some e0) ->
  Forall (move_ok (m_board pos) (m_en_passant pos)) pseudo ->
  forall pk acc pk' legal,
  tracks it pos pk ->
  for_each pseudo (pk, acc) (try_move (Some it)) = Ok (pk', legal) ->
  tracks it pos pk' /\
  legal = acc ++ filter (fun m => is_safe pos (Some it) m = true) pseudo /\
  Forall (fun m => exists safe, king_safe_after pos (Some it) m = Ok safe)
         pseudo.
Proof.
  intros Hwf Hit Hall. induction Hall as [|m pseudo Hok Hall IH];
    intros pk acc pk' legal Htr H; simpl in H.
  - injection H as <- <-. by rewrite app_nil_r.
  - bind_inv H as [pk1 acc1] E.
    destruct (try_move_spec _ _ _ _ _ _ _ _ Hwf Htr Hit Hok E)
      as (Htr1 & safe & Hsafe & ->).
    destruct (IH _ _ _ _ Htr1 H) as (Htr' & -> & Hall').
    split; [done |]. split; [| constructor; eauto].
    assert (Hdec : is_safe pos (Some it) m = safe)
      by (unfold is_safe; rewrite Hsafe; by destruct safe).
    rewrite filter_cons, Hdec.
    destruct safe.
    + rewrite decide_True by done. by rewrite <- app_assoc.
    + by rewrite decide_False by done.
Qed.

(** What [get_possible_moves] computes, and what it leaves behind. *)
Lemma get_possible_moves_spec (pos pos' : Position) (legal : list Move) :
  wf pos ->
  get_possible_moves pos = Ok (pos', legal) ->
  exists pseudo,
    pseudo_legal_moves pos = Ok pseudo /\
    Forall (move_ok (m_board pos) (m_en_passant pos)) pseudo /\
    legal = filter (fun m => is_safe pos (king_of pos) m = true) pseudo /\
    Forall (fun m => exists safe, king_safe_after pos (king_of pos) m = Ok safe)
           pseudo /\
    wf pos' /\ same_position pos' pos /\
    (forall it, king_of pos = Some it ->
                m_pieces pos' !! it = m_pieces pos !! it).
Proof.
  intros Hwf H. unfold get_possible_moves, get_possible_moves_in in H.
  fold (pseudo_legal_moves pos) in H.
  bind_inv H as pseudo Ep. exists pseudo. split; [done |].
  pose proof (pseudo_legal_moves_ok _ _ Hwf Ep) as Hall.
  split; [done |].
  fold (king_letter pos) in H. fold (king_of pos) in H.
  destruct (king_of pos) as [it|] eqn:Hking.
  - destruct (pieces_find_Some _ _ _ Hking) as [s Hit].
    destruct (try_moves_spec _ _ _ _ Hwf Hit Hall _ _ _ _
                (tracks_refl it pos Hwf) H) as (Htr & -> & Hsafe).
    split; [done |]. split; [done |].
    split; [by destruct Htr |].
    split; [by eapply tracks_same |].
    intros it' [= <-]. by destruct Htr.
  - destruct pseudo as [|m pseudo]; simpl in H.
    + injection H as <- <-.
      split; [done |]. split; [constructor |]. split; [done |].
      split; [by split | done].
    + unfold try_move at 1 in H. bind_inv H as [p1 l1] E.
      bind_inv E as pk1 E1. discriminate.
Qed.

(** ** C2: undo symmetry *)

(** C2: for a position whose board and pieces agree, any state [q] of the
    position object that holds the same position, and any move [m] returned
    by [get_possible_moves], [perform_move] followed by [undo_move] succeeds
    and gives back the board, the pieces (as a multiset), the side to move,
    the en-passant square, the history and the hash. *)
Theorem undo_symmetry `{StdHash} (pos pos' q : Position) (legal : list Move)
    (m : Move) :
  wf pos ->
  get_possible_moves pos = Ok (pos', legal) ->
  m ∈ legal ->
  wf q -> same_position q pos ->
  exists q1 q2,
    perform_move q m = Ok q1 /\ undo_move q1 = Ok q2 /\
    m_board q2 = m_board pos /\
    Permutation (live (m_pieces q2)) (live (m_pieces pos)) /\
    m_to_move q2 = m_to_move pos /\
    m_en_passant q2 = m_en_passant pos /\
    m_prev_moves q2 = m_prev_moves pos /\
    get_hash q2 = get_hash pos.
Proof.
  intros Hwf Hget Hm Hwfq [Hb Ht He Hp Hh].
  destruct (get_possible_moves_spec _ _ _ Hwf Hget)
    as (pseudo & _ & Hall & -> & Hsafe & _).
  apply list_elem_of_filter in Hm as [_ Hm].
  rewrite Forall_forall in Hall, Hsafe.
  specialize (Hall m Hm). destruct (Hsafe m Hm) as [safe Hs].
  unfold king_safe_after in Hs. bind_inv Hs as pos1 Eperf.
  pose proof Hall as [_ _ _ _ _ Hlast].
  assert (Hokl : move_ok (m_board pos) (m_last_enpassant m) m)
    by (by rewrite Hlast).
  destruct (perform_move_inv _ _ _ Hwf Hokl Eperf) as (Hsp & _).
  assert (Hokq : move_ok (m_board q) (m_en_passant q) m)
    by (by rewrite Hb, He).
  destruct (perform_move_total q m Hwfq) as [q1 Hq1].
  { by rewrite Hb. }
  { by rewrite Hb. }
  destruct (perform_undo _ _ _ Hwfq Hokq Hq1)
    as (q2 & Hq2 & [Hb2 Ht2 He2 Hp2 Hh2] & Hwf2).
  exists q1, q2. repeat split; try congruence.
  - by rewrite Hp2.
  - apply get_hash_same; congruence.
Qed.

(** ** C3: the legal-move filter and the attack test *)

Lemma slot_after_key (m : Move) (e0 e1 : entry) :
  slot_after m e0 = Some e1 -> fst e1 = fst e0.
Proof.
  unfold slot_after. repeat case_match; intros; by simplify_eq.
Qed.

Lemma king_letter_upper (pos : Position) :
  negb (is_upper (king_letter pos)) = negb (m_to_move pos =c "w").
Proof. unfold king_letter. by destruct (m_to_move pos =c "w"). Qed.

(** C3: a pseudo-legal move is returned by [get_possible_moves] exactly
    when, once it is made, [square_hit] asked about the square of the mover's
    king ([king->second], a square that holds that king) for the opponent's
    colour returns false. *)
Theorem legal_iff_king_not_hit (pos pos' : Position)
    (pseudo legal : list Move) (m : Move) :
  wf pos ->
  pseudo_legal_moves pos = Ok pseudo ->
  get_possible_moves pos = Ok (pos', legal) ->
  m ∈ pseudo ->
  (m ∈ legal <->
   exists pos1 ksq,
     perform_move pos m = Ok pos1 /\
     king_square (king_of pos) pos1 = Some ksq /\
     board_at (m_board pos1) ksq = Ok (king_letter pos) /\
     square_hit pos1 ksq (negb (m_to_move pos =c "w")) = Ok false).
Proof.
  intros Hwf Hps Hget Hm.
  destruct (get_possible_moves_spec _ _ _ Hwf Hget)
    as (pseudo' & Hps' & Hall & -> & Hsafe & _).
  rewrite Hps in Hps'. injection Hps' as <-.
  rewrite Forall_forall in Hall, Hsafe.
  specialize (Hall m Hm). destruct (Hsafe m Hm) as [safe Hs].
  rewrite list_elem_of_filter.
  assert (Hdec : is_safe pos (king_of pos) m = safe)
    by (unfold is_safe; rewrite Hs; by destruct safe).
  rewrite Hdec.
  unfold king_safe_after in Hs. bind_inv Hs as pos1 Eperf.
  unfold king_not_hit in Hs. bind_inv Hs as k Ek. bind_inv Hs as hit Ehit.
  injection Hs as <-.
  destruct (king_of pos) as [it|] eqn:Hking; [| discriminate].
  apply deref_Ok in Ek.
  destruct (pieces_find_Some _ _ _ Hking) as [s Hit].
  pose proof Hall as [_ _ _ _ _ Hlast].
  assert (Hokl : move_ok (m_board pos) (m_last_enpassant m) m)
    by (by rewrite Hlast).
  destruct (perform_move_inv _ _ _ Hwf Hokl Eperf)
    as (_ & _ & _ & _ & _ & [Hlen1 Hag1 _]).
  pose proof (perform_move_pieces _ _ _ Hwf Hokl Eperf) as Hpieces.
  assert (Hkey : fst k = king_letter pos).
  { rewrite Hpieces, (pieces_after_lookup _ _ _ _ Hit) in Ek.
    injection Ek as Ek. by apply slot_after_key in Ek. }
  assert (Hon : board_at (m_board pos1) (snd k) = Ok (king_letter pos)).
  { rewrite <- Hkey. eapply entry_on_board; [done | done |].
    by eapply list_elem_of_lookup_2. }
  rewrite Hkey, king_letter_upper in Ehit.
  split.
  - intros [Hsafe' _]. apply negb_true_iff in Hsafe'. subst hit.
    exists pos1, (snd k). repeat split; try done.
    simpl. by rewrite Ek.
  - intros (pos1' & ksq & Hperf & Hksq & _ & Hhit).
    injection Hperf as <-.
    simpl in Hksq. rewrite Ek in Hksq. injection Hksq as <-.
    rewrite Ehit in Hhit. injection Hhit as ->. done.
Qed.

(** ** Positions read from a FEN are well formed *)

Lemma cells_from_app (i : Z) (b1 b2 : list ascii) :
  cells_from i (b1 ++ b2)
  = cells_from i b1 ⊎ cells_from (i + Z.of_nat (length b1)) b2.
Proof.
  revert i. induction b1 as [|c b1 IH]; intros i; simpl.
  - rewrite Z.add_0_r. by rewrite (left_id_L ∅ (⊎)).
  - rewrite IH. replace (i + 1 + Z.of_nat (length b1))
      with (i + Z.pos (Pos.of_succ_nat (length b1))) by lia.
    by rewrite (assoc_L (⊎)).
Qed.

Lemma cells_from_snoc (b : list ascii) (c : ascii) :
  cells_from 0 (b ++ [c]) = cells_from 0 b ⊎ cell c (Z.of_nat (length b)).
Proof.
  rewrite cells_from_app. simpl. by rewrite (right_id_L ∅ (⊎)).
Qed.

Lemma fen_empties_Ok (k : nat) (i i' : Z) (b b' : list ascii) :
  fen_empties k i b = Ok (i', b') ->
  i = Z.of_nat (length b) -> i <= 65 ->
  i' = Z.of_nat (length b') /\ i' <= 65 /\
  b' = b ++ replicate k "."%char /\ cells_from 0 b' = cells_from 0 b.
Proof.
  revert i b. induction k as [|k IH]; intros i b H Hi Hle; simpl in H.
  - injection H as <- <-. by rewrite app_nil_r.
  - destruct (Z.ltb_spec i 65); [| discriminate].
    apply IH in H as (Hi' & Hle' & -> & Hc).
    + split; [done |]. split; [done |]. split.
      * by rewrite <- app_assoc.
      * rewrite Hc, cells_from_snoc, cell_empty.
        by rewrite (right_id_L ∅ (⊎)).
    + rewrite length_app. simpl. lia.
    + lia.
Qed.

Definition no_dot (s : string) : Prop :=
  "."%char ∉ list_ascii_of_string s.

(** The board loop ends with the 64 squares written, or with 65 cells when
    the last run of empty squares passed the end by one. *)
Lemma fen_board_agree (rest rest' : string) (i : Z) (b b' : list ascii)
    (ps ps' : slots) :
  fen_board rest i b ps = Ok (rest', b', ps') ->
  no_dot rest ->
  i = Z.of_nat (length b) -> i <= 65 ->
  (length b = 65%nat -> b !! 64%nat = Some "."%char) ->
  pieces_set ps = cells_from 0 b ->
  (length b' = 64%nat \/
   (length b' = 65%nat /\ b' !! 64%nat = Some "."%char)) /\
  pieces_set ps' = cells_from 0 b'.
Proof.
  revert i b ps.
  induction rest as [|c rest IH]; intros i b ps H Hnd Hi Hle Hend Hag.
  - simpl in H. destruct (Z.ltb_spec i 64); simpl in H; [discriminate |].
    injection H as <- <- <-. split; [| done].
    destruct (decide (length b = 64%nat)); [by left | right].
    assert (length b = 65%nat) by lia. auto.
  - simpl in H. destruct (Z.ltb_spec i 64); simpl in H.
    2:{ injection H as <- <- <-. split; [| done].
        destruct (decide (length b = 64%nat)); [by left | right].
        assert (length b = 65%nat) by lia. auto. }
    assert (Hnd' : no_dot rest).
    { unfold no_dot in *. simpl in Hnd. set_solver. }
    destruct (c =c "/"); [by eapply IH |].
    destruct (_ && _).
    + bind_inv H as [i1 b1] E.
      apply fen_empties_Ok in E as (Hi1 & Hle1 & Hb1 & Hc); [| done | lia].
      eapply IH; eauto; [| by rewrite Hc].
      intros Hfull. rewrite Hb1, length_app, length_replicate in Hfull.
      rewrite Hb1, lookup_app_r by lia.
      apply lookup_replicate_2. lia.
    + eapply IH; [exact H | done | | lia | |].
      * rewrite length_app. simpl. lia.
      * rewrite length_app. simpl. lia.
      * rewrite pieces_set_insert, cells_from_snoc, Hag, Hi.
        rewrite cell_real; [done |].
        intros ->. apply Hnd. simpl. set_solver.
Qed.

Lemma Position_of_FEN_wf (FEN : string) (pos : Position) :
  Position_of_FEN FEN = Ok pos ->
  no_dot FEN ->
  length (m_board pos) = 64%nat ->
  m_to_move pos = "w"%char \/ m_to_move pos = "b"%char ->
  wf pos.
Proof.
  unfold Position_of_FEN. intros H Hnd Hlen Htm.
  bind_inv H as [[rest b] ps] E.
  apply fen_board_agree in E as [_ Hag]; [| done | done | lia | done | done].
  repeat (bind_inv H). injection H as <-.
  by split.
Qed.

(** ** C2 and C3 on concrete positions *)

Ltac by_computation :=
  first [ vm_compute; reflexivity
        | unfold no_dot; apply (bool_decide_unpack _); vm_compute; exact I ].

Lemma wf_start_position : wf start_position.
Proof.
  apply (Position_of_FEN_wf
           "rnbqkbnr/pppppppp/8/8/8/8/PPPPPPPP/RNBQKBNR w KQkq - 0 1");
    [by_computation | by_computation | by_computation | by left].
Defined.

Lemma wf_pinned_rook_position : wf pinned_rook_position.
Proof.
  apply (Position_of_FEN_wf "4r2k/8/8/8/8/8/4R3/4K3 w - - 0 1");
    [by_computation | by_computation | by_computation | by left].
Defined.

Lemma same_position_refl (pos : Position) : same_position pos pos.
Proof. by split. Defined.

(** The opening move e2-e4, made and undone on the starting position. *)
Lemma undo_symmetry_witness :
  let m := mkMove 52 36 "P" "." NUL (-1) in
  exists q1 q2,
    perform_move start_position m = Ok q1 /\ undo_move q1 = Ok q2 /\
    m_board q2 = m_board start_position /\
    Permutation (live (m_pieces q2)) (live (m_pieces start_position)) /\
    m_to_move q2 = m_to_move start_position /\
    m_en_passant q2 = m_en_passant start_position /\
    m_prev_moves q2 = m_prev_moves start_position /\
    @get_hash demo_hash q2 = @get_hash demo_hash start_position.
Proof.
  intros m.
  eapply (@undo_symmetry demo_hash start_position _ start_position _ m).
  - exact wf_start_position.
  - by_computation.
  - by_computation.
  - exact wf_start_position.
  - exact (same_position_refl start_position).
Defined.

(** The pinned rook may move along the file: e2-e4 is returned, and after it
    the white king on e1 is not attacked. *)
Lemma legal_iff_king_not_hit_witness :
  let pos := pinned_rook_position in
  let m := mkMove 52 36 "R" "." NUL (-1) in
  m ∈ legal_moves_of pos <->
  exists pos1 ksq,
    perform_move pos m = Ok pos1 /\
    king_square (king_of pos) pos1 = Some ksq /\
    board_at (m_board pos1) ksq = Ok (king_letter pos) /\
    square_hit pos1 ksq (negb (m_to_move pos =c "w")) = Ok false.
Proof.
  intros pos m.
  eapply (legal_iff_king_not_hit pinned_rook_position _ _
            (legal_moves_of pinned_rook_position) m).
  - exact wf_pinned_rook_position.
  - by_computation.
  - by_computation.
  - by_computation.
Defined.

(** ** The attack test always answers *)

Lemma board_at_valid (b : list ascii) (col row sq : Z) :
  length b = 64%nat -> get_square col row = Ok sq ->
  exists c, board_at b sq = Ok c.
Proof.
  intros Hlen (_ & _ & Hsq)%get_square_Ok.
  destruct (lookup_lt_is_Some_2 b (Z.to_nat sq) ltac:(lia)) as [c Hc].
  exists c. by apply board_at_Ok.
Qed.

Lemma get_square_valid (col row : Z) :
  are_valid_coords col row = true -> get_square col row = Ok (col + 8 * row).
Proof. intros Hv. unfold get_square. by rewrite Hv. Qed.

Lemma offset_hit_total (b : list ascii) (col row : Z) (by_white : bool)
    (kind : ascii) (offs : list (Z * Z)) :
  length b = 64%nat ->
  exists h, offset_hit b col row by_white kind offs = Ok h.
Proof.
  intros Hlen. induction offs as [|cds offs IH]; simpl; [eauto |].
  destruct (are_valid_coords _ _) eqn:Hv; simpl; [| done].
  rewrite (get_square_valid _ _ Hv). simpl.
  destruct (board_at_valid b _ _ _ Hlen (get_square_valid _ _ Hv)) as [c Hc].
  rewrite Hc. simpl. destruct (_ && _); eauto.
Qed.

(** A ray that leaves the board after [n] steps needs [n + 1] rounds. *)
Lemma ray_hit_total (b : list ascii) (by_white : bool) (k1 k2 : ascii)
    (cds : Z * Z) (n : nat) :
  length b = 64%nat ->
  forall fuel curr,
  (n < fuel)%nat ->
  are_valid_coords (fst curr + Z.of_nat n * fst cds)
                   (snd curr + Z.of_nat n * snd cds) = false ->
  exists h, ray_hit fuel b by_white k1 k2 cds curr = Ok h.
Proof.
  intros Hlen. induction n as [|n IH]; intros fuel curr Hfuel Hout.
  - destruct fuel as [|fuel]; [lia |]. simpl.
    rewrite !Z.mul_0_l, !Z.add_0_r in Hout. rewrite Hout. eauto.
  - destruct fuel as [|fuel]; [lia |]. simpl.
    destruct (are_valid_coords (fst curr) (snd curr)) eqn:Hv; [| eauto].
    rewrite (get_square_valid _ _ Hv). simpl.
    destruct (board_at_valid b _ _ _ Hlen (get_square_valid _ _ Hv)) as [c Hc].
    rewrite Hc. simpl.
    destruct (negb (c =c ".")); [destruct (_ && _); eauto |].
    apply IH; [lia |]. simpl.
    replace (fst curr + fst cds + Z.of_nat n * fst cds)
      with (fst curr + Z.of_nat (S n) * fst cds) by lia.
    replace (snd curr + snd cds + Z.of_nat n * snd cds)
      with (snd curr + Z.of_nat (S n) * snd cds) by lia.
    done.
Qed.

Lemma are_valid_coords_spec (col row : Z) :
  are_valid_coords col row = true <-> 0 <= col < 8 /\ 0 <= row < 8.
Proof. unfold are_valid_coords. lia. Qed.

Lemma are_valid_coords_false (col row : Z) :
  are_valid_coords col row = false <-> ~ (0 <= col < 8 /\ 0 <= row < 8).
Proof.
  rewrite <- are_valid_coords_spec. by destruct (are_valid_coords col row).
Qed.

Definition unit_dir (cds : Z * Z) : Prop :=
  -1 <= fst cds <= 1 /\ -1 <= snd cds <= 1 /\ cds <> (0, 0).

Lemma ray_hit_unit (b : list ascii) (by_white : bool) (k1 k2 : ascii)
    (cds : Z * Z) (col row : Z) :
  length b = 64%nat -> unit_dir cds ->
  exists h, ray_hit 9 b by_white k1 k2 cds (col + fst cds, row + snd cds)
            = Ok h.
Proof.
  intros Hlen (Hx & Hy & Hnz).
  destruct (are_valid_coords (col + fst cds) (row + snd cds)) eqn:Hv.
  - apply (ray_hit_total b by_white k1 k2 cds 8 Hlen); [lia |].
    destruct cds as [dx dy]. simpl in *.
    apply are_valid_coords_spec in Hv. apply are_valid_coords_false.
    assert (dx <> 0 \/ dy <> 0) as [Hd | Hd]
      by (destruct (decide (dx = 0)); [right; congruence | by left]); lia.
  - apply (ray_hit_total b by_white k1 k2 cds 0 Hlen); [lia |].
    simpl. by rewrite !Z.add_0_r.
Qed.

Lemma rays_hit_total (b : list ascii) (col row : Z) (by_white : bool)
    (k1 k2 : ascii) (dirs : list (Z * Z)) :
  length b = 64%nat -> Forall unit_dir dirs ->
  exists h, rays_hit b col row by_white k1 k2 dirs = Ok h.
Proof.
  intros Hlen Hdirs. induction Hdirs as [|cds dirs Hu _ IH];
    cbn [rays_hit]; [eauto |].
  destruct (ray_hit_unit b by_white k1 k2 cds col row Hlen Hu) as [h ->].
  cbn [bind]. destruct h; eauto.
Qed.

Lemma rook_dirs_unit : Forall unit_dir rook_dirs.
Proof. repeat constructor; simpl; (lia || discriminate). Qed.

Lemma bishop_dirs_unit : Forall unit_dir bishop_dirs.
Proof. repeat constructor; simpl; (lia || discriminate). Qed.

Lemma square_hit_total (pos : Position) (square : Z) (by_white : bool) :
  length (m_board pos) = 64%nat ->
  exists h, square_hit pos square by_white = Ok h.
Proof.
  intros Hlen. unfold square_hit, square_hit_board.
  set (col := int_rem square 8). set (row := int_div square 8).
  destruct (offset_hit_total (m_board pos) col row by_white "n"
              knight_offsets Hlen) as [h1 ->]. cbn [bind].
  destruct h1; [eauto |].
  destruct (offset_hit_total (m_board pos) col row by_white "p"
              (if by_white then [(1, 1); (-1, 1)] else [(1, -1); (-1, -1)])
              Hlen) as [h2 ->]. cbn [bind].
  destruct h2; [eauto |].
  destruct (offset_hit_total (m_board pos) col row by_white "k"
              king_offsets Hlen) as [h3 ->]. cbn [bind].
  destruct h3; [eauto |].
  destruct (rays_hit_total (m_board pos) col row by_white "r" "q" rook_dirs
              Hlen rook_dirs_unit) as [h4 ->]. cbn [bind].
  destruct h4; [eauto |].
  destruct (rays_hit_total (m_board pos) col row by_white "b" "q" bishop_dirs
              Hlen bishop_dirs_unit) as [h5 ->]. cbn [bind].
  destruct h5; eauto.
Qed.

(** ** The evaluator: positions without a legal move *)

Lemma pieces_find_total (c : ascii) (s : Z) (ps : slots) :
  (c, s) ∈ live ps ->
  exists it s', pieces_find c ps = Some it /\ ps !! it = Some (Some (c, s')).
Proof.
  intros Hin. unfold live in Hin. apply list_elem_of_omap in Hin as (o & Ho & Hid).
  simpl in Hid. subst o. unfold pieces_find.
  destruct (list_find_elem_of (fun o : option entry => fst <$> o = Some c) ps
              (Some (c, s)) Ho eq_refl) as [[it x] Hf].
  rewrite Hf. simpl. exists it.
  apply list_find_Some in Hf as (Hit & Hx & _).
  destruct x as [[c' s']|]; simplify_eq/=. eauto.
Qed.

Lemma king_count_perm (c : ascii) (p q : Position) :
  Permutation (live (m_pieces p)) (live (m_pieces q)) ->
  king_count c p = king_count c q.
Proof. unfold king_count. by intros ->. Qed.

Lemma unique_king (c : ascii) (pos : Position) (s1 s2 : Z) :
  king_count c pos = 1%nat ->
  (c, s1) ∈ live (m_pieces pos) -> (c, s2) ∈ live (m_pieces pos) ->
  s1 = s2.
Proof.
  unfold king_count. intros Hcount H1 H2.
  destruct (filter _ _) as [|x [|y l]] eqn:Hf; simplify_eq/=.
  assert (Hx1 : (c, s1) ∈ [x])
    by (rewrite <- Hf; by apply list_elem_of_filter).
  assert (Hx2 : (c, s2) ∈ [x])
    by (rewrite <- Hf; by apply list_elem_of_filter).
  apply list_elem_of_singleton in Hx1, Hx2. congruence.
Qed.

Lemma live_lookup (ps : slots) (it : nat) (e : entry) :
  ps !! it = Some (Some e) -> e ∈ live ps.
Proof.
  intros H. unfold live. apply list_elem_of_omap. exists (Some e).
  split; [by eapply list_elem_of_lookup_2 | done].
Qed.

Lemma live_on_board (pos : Position) (c : ascii) (s : Z) :
  wf pos -> c <> "."%char ->
  (c, s) ∈ live (m_pieces pos) <-> board_at (m_board pos) s = Ok c.
Proof.
  intros [Hlen Hag _] Hc.
  pose proof (elem_of_board_entries (m_board pos) c s Hlen) as Hb.
  rewrite <- Hag in Hb. unfold pieces_set in Hb.
  rewrite elem_of_list_to_set_disj in Hb. tauto.
Qed.

Lemma king_letter_real (pos : Position) : king_letter pos <> "."%char.
Proof. unfold king_letter. by destruct (m_to_move pos =c "w"). Qed.

Lemma mate_score (pos : Position) :
  int_mul (int_neg (side_of pos)) Engine.MATE = - side_of pos * Engine.MATE.
Proof. unfold side_of. by destruct (m_to_move pos =c "w"). Qed.

Section no_moves.
Context `{StdHash} `{StdSort}.

(** The value and the cache entry of a position without legal moves. *)
Definition terminal_value (pos : Position) (hit : bool) : Z :=
  if hit then - side_of pos * Engine.MATE else 0.

(** C4, as the code has it: when [get_possible_moves] returns no move and
    the lookup on entry does not answer, [evaluate] returns [-side * MATE] if
    the mover's king is attacked and 0 if it is not, and stores the value at
    the sentinel depth with [insert]; when the cache had no entry for the
    hash, the entry is there afterwards and answers every later lookup. *)
Theorem evaluate_no_moves (pos pos' : Position) (ksq : Z) (hit : bool)
    (maxdepth : Z) (cache : Engine.Cache) (alfa beta : Z) :
  wf pos ->
  king_count (king_letter pos) pos = 1%nat ->
  board_at (m_board pos) ksq = Ok (king_letter pos) ->
  get_possible_moves pos = Ok (pos', []) ->
  square_hit pos ksq (negb (m_to_move pos =c "w")) = Ok hit ->
  Engine.cache_hit (cache !! get_hash pos) maxdepth = None ->
  let v := terminal_value pos hit in
  let cache' := Engine.cache_insert (get_hash pos) (INT_MAX, v) cache in
  Engine.evaluate pos maxdepth cache alfa beta = Ok (v, pos', cache') /\
  (cache !! get_hash pos = None ->
   cache' !! get_hash pos = Some (INT_MAX, v) /\
   forall d, d <= INT_MAX ->
     Engine.cache_hit (cache' !! get_hash pos) d = Some v).
Proof.
  intros Hwf Hone Hking Hget Hhit Hmiss v cache'.
  destruct (get_possible_moves_spec _ _ _ Hwf Hget)
    as (_ & _ & _ & _ & _ & Hwf' & [Hb Ht He Hp Hh] & _).
  assert (Hin : (king_letter pos, ksq) ∈ live (m_pieces pos'))
    by (rewrite Hp; apply live_on_board; auto using king_letter_real).
  destruct (pieces_find_total _ _ _ Hin) as (it & s' & Hfind & Hit).
  assert (s' = ksq) as ->.
  { eapply (unique_king (king_letter pos) pos'); [| | done].
    - by rewrite (king_count_perm _ pos' pos).
    - by eapply live_lookup. }
  split.
  - unfold Engine.evaluate. generalize (Z.to_nat maxdepth). intros fuel.
    assert (Hbody : forall f,
      Engine.evaluate_rec f pos maxdepth cache alfa beta
      = Ok (v, pos', cache')); [| apply Hbody].
    intros f. destruct f; simpl; rewrite Hmiss, Hget; simpl;
      unfold king_letter in Hfind; rewrite Ht in *; rewrite Hfind; simpl;
      unfold deref; rewrite Hit; simpl;
      unfold square_hit in *; rewrite Hb, Hhit; simpl;
      fold (side_of pos); rewrite mate_score;
      unfold cache', v, terminal_value; by destruct hit.
  - intros Hnone. unfold cache', Engine.cache_insert. rewrite Hnone.
    rewrite lookup_insert_eq. split; [done |].
    intros d Hd. simpl. destruct (Z.geb_spec INT_MAX d); [done | lia].
Qed.
End no_moves.

Lemma wf_stalemate_position : wf stalemate_position.
Proof.
  apply (Position_of_FEN_wf "7k/5K2/6Q1/8/8/8/8/8 b - - 0 1");
    [by_computation | by_computation | by_computation | by right].
Defined.

Lemma wf_back_rank_mate_position : wf back_rank_mate_position.
Proof.
  apply (Position_of_FEN_wf "R6k/5ppp/8/8/8/8/8/6K1 b - - 0 1");
    [by_computation | by_computation | by_computation | by right].
Defined.

(** The mated position, evaluated with an empty cache: the black king on h8
    is attacked, the value is [MATE] in White's favour and the entry is
    stored at the sentinel depth. *)
Lemma evaluate_no_moves_witness :
  let pos := back_rank_mate_position in
  let h := @get_hash demo_hash pos in
  let v := terminal_value pos true in
  let cache' : Engine.Cache := Engine.cache_insert h (INT_MAX, v) ∅ in
  v = 1000000 /\
  exists pos',
    @Engine.evaluate demo_hash demo_sort pos 3 ∅ (-1000000) 1000000
    = Ok (v, pos', cache') /\
    ((∅ : Engine.Cache) !! h = None ->
     cache' !! h = Some (INT_MAX, v) /\
     forall d, d <= INT_MAX -> Engine.cache_hit (cache' !! h) d = Some v).
Proof.
  intros pos h v cache'. split; [reflexivity |]. eexists.
  apply (@evaluate_no_moves demo_hash demo_sort back_rank_mate_position _ 7
           true 3 ∅ (-1000000) 1000000).
  - exact wf_back_rank_mate_position.
  - by_computation.
  - by_computation.
  - by_computation.
  - by_computation.
  - by_computation.
Defined.

(** The claim without the condition on the cache fails: in the stalemated
    position no move is legal and the black king on h8 is not attacked, yet
    with an entry of depth 5 and value 42 under the position's hash
    [evaluate] at depth 2 returns 42, not 0, and the entry keeps depth 5. *)
Lemma evaluate_no_moves_counterexample :
  let pos := stalemate_position in
  let h := @get_hash demo_hash pos in
  let cache : Engine.Cache := {[ h := (5, 42) ]} in
  legal_moves_of pos = [] /\
  board_at (m_board pos) 7 = Ok "k"%char /\
  square_hit pos 7 true = Ok false /\
  (exists pos' cache',
     @Engine.evaluate demo_hash demo_sort pos 2 cache (-1000000) 1000000
     = Ok (42, pos', cache') /\
     cache' !! h = Some (5, 42)) /\
  ~ (exists pos' cache',
       @Engine.evaluate demo_hash demo_sort pos 2 cache (-1000000) 1000000
       = Ok (0, pos', cache')).
Proof.
  intros pos h cache.
  assert (Hev : @Engine.evaluate demo_hash demo_sort pos 2 cache
                  (-1000000) 1000000 = Ok (42, pos, cache))
    by by_computation.
  split; [by_computation |]. split; [by_computation |].
  split; [by_computation |]. split.
  - exists pos, cache. split; [exact Hev | by_computation].
  - intros (pos' & cache' & Hzero). rewrite Hev in Hzero. discriminate.
Qed.

(** ** The alpha-beta cutoff *)

Section cutoff.
Context `{StdHash} `{StdSort}.
Variable recurse :
  Position -> Z -> Engine.Cache -> Z -> Z -> res (Z * Position * Engine.Cache).
Variables (maxdepth side beta : Z).

(** The loop run over [pre], none of whose rounds cuts off, is where the
    loop over the remaining moves starts. *)
Lemma search_searched (pre rest : list (Z * Move)) (s s' : search_state) :
  searched recurse maxdepth side beta pre s s' ->
  Engine.search recurse maxdepth side beta (pre ++ rest)
    (fst (fst (fst s))) (snd (fst (fst s))) (snd (fst s)) (snd s)
  = Engine.search recurse maxdepth side beta rest
    (fst (fst (fst s'))) (snd (fst (fst s'))) (snd (fst s')) (snd s').
Proof.
  induction 1 as [s | pr pre s s1 s2 Hround Hno _ IH]; [done |].
  destruct s as [[[position cache] eval] alfa].
  destruct s1 as [[[position1 cache1] eval1] alfa1].
  destruct Hround as (p1 & v & p2 & Hperf & Hrec & Hundo & -> & ->).
  cbn [fst snd app Engine.search] in *.
  rewrite Hperf. cbn [bind]. rewrite Hrec. cbn [bind].
  unfold raised, raised_alfa in *.
  destruct (int_mul v side >? eval); rewrite Hundo; cbn [bind];
    rewrite Hno; exact IH.
Qed.

(** The round in which the cutoff test succeeds ends the loop. *)
Lemma search_round_cutoff (pr : Z * Move) (post : list (Z * Move))
    (position : Position) (cache : Engine.Cache) (eval alfa : Z)
    (p : Position) (c : Engine.Cache) (eval' alfa' : Z) :
  search_round recurse maxdepth side beta pr
    (position, cache, eval, alfa) (p, c, eval', alfa') ->
  (Engine.process_eval eval' >=? beta) = true ->
  Engine.search recurse maxdepth side beta (pr :: post) position cache
    eval alfa
  = Ok (Engine.Cutoff (int_mul (Engine.process_eval eval') side), p, c).
Proof.
  intros (p1 & v & p2 & Hperf & Hrec & Hundo & -> & ->) Hcut.
  cbn [Engine.search]. rewrite Hperf. cbn [bind]. rewrite Hrec. cbn [bind].
  unfold raised, raised_alfa in *.
  destruct (int_mul v side >? eval); rewrite Hundo; cbn [bind];
    by rewrite Hcut.
Qed.
End cutoff.

Lemma search_round_ext
    (r1 r2 : Position -> Z -> Engine.Cache -> Z -> Z ->
             res (Z * Position * Engine.Cache))
    (maxdepth side beta : Z) (pr : Z * Move) (s s' : search_state) :
  (forall p c a b, r1 p (int_sub maxdepth 1) c a b
                   = r2 p (int_sub maxdepth 1) c a b) ->
  search_round r1 maxdepth side beta pr s s' ->
  search_round r2 maxdepth side beta pr s s'.
Proof.
  intros Hext. destruct s as [[[position cache] eval] alfa].
  destruct s' as [[[position' cache'] eval'] alfa'].
  intros (p1 & v & p2 & Hperf & Hrec & Hrest).
  exists p1, v, p2. rewrite <- Hext. by split.
Qed.

Lemma searched_ext
    (r1 r2 : Position -> Z -> Engine.Cache -> Z -> Z ->
             res (Z * Position * Engine.Cache))
    (maxdepth side beta : Z) (l : list (Z * Move)) (s s' : search_state) :
  (forall p c a b, r1 p (int_sub maxdepth 1) c a b
                   = r2 p (int_sub maxdepth 1) c a b) ->
  searched r1 maxdepth side beta l s s' ->
  searched r2 maxdepth side beta l s s'.
Proof.
  intros Hext. induction 1 as [s | pr rest s s1 s2 Hround Hno _ IH].
  - apply searched_nil.
  - eapply searched_cons; [| exact Hno | exact IH].
    by eapply search_round_ext.
Qed.

Section evaluate_cutoff.
Context `{StdHash} `{StdSort}.

Lemma evaluate_rec_cutoff (fuel : nat)
    (pos pos1 pos2 pk p : Position) (maxdepth : Z)
    (cache ck c : Engine.Cache) (alfa beta eval_k alfa_k eval alfa' : Z)
    (possible_moves : list Move) (ordered_moves pre post : list (Z * Move))
    (pr : Z * Move) :
  Engine.cache_hit (cache !! get_hash pos) maxdepth = None ->
  get_possible_moves pos = Ok (pos1, possible_moves) ->
  possible_moves <> [] ->
  2 < pieces_size (m_pieces pos1) ->
  0 < maxdepth ->
  Engine.guess_moves cache possible_moves pos1 = Ok (pos2, ordered_moves) ->
  std_sort Engine.sort_moves ordered_moves = pre ++ pr :: post ->
  searched (Engine.evaluate_rec fuel) maxdepth (side_of pos1) beta pre
    (pos2, cache, int_neg Engine.MATE, alfa) (pk, ck, eval_k, alfa_k) ->
  search_round (Engine.evaluate_rec fuel) maxdepth (side_of pos1) beta pr
    (pk, ck, eval_k, alfa_k) (p, c, eval, alfa') ->
  (Engine.process_eval eval >=? beta) = true ->
  Engine.evaluate_rec (S fuel) pos maxdepth cache alfa beta
  = Ok (int_mul (Engine.process_eval eval) (side_of pos1), p, c).
Proof.
  intros Hmiss Hget Hne Hsize Hdepth Hguess Hsort Hpre Hround Hcut.
  cbn [Engine.evaluate_rec]. rewrite Hmiss, Hget. cbn [bind].
  destruct possible_moves as [|m ms]; [done |]. cbn [length Nat.eqb].
  destruct (Z.leb_spec (pieces_size (m_pieces pos1)) 2); [lia |]. cbn [bind].
  destruct (Z.leb_spec maxdepth 0); [lia |].
  rewrite Hguess. cbn [bind]. fold (side_of pos1). rewrite Hsort.
  pose proof (search_searched (Engine.evaluate_rec fuel) maxdepth
                (side_of pos1) beta pre (pr :: post) _ _ Hpre) as Hrun.
  cbn [fst snd] in Hrun. rewrite Hrun.
  by rewrite (search_round_cutoff (Engine.evaluate_rec fuel) maxdepth
                (side_of pos1) beta pr post _ _ _ _ _ _ _ _ Hround Hcut).
Qed.

(** C6.  Whenever the cutoff test succeeds in the loop of [evaluate], the
    call ends there.  The position is not answered by the cache, has legal
    moves and more than two pieces, and the depth is positive, so the loop
    is reached; the ordered moves are [pre], then [pr], then [post].  The
    rounds over [pre] (make the move, [evaluate] behind it at depth
    [maxdepth - 1] with the window [(-beta, -alfa)], raise [eval] and
    [alfa], undo) all find [process_eval(eval) >= beta] false, and the
    round of [pr] raises the best evaluation to [eval] with
    [process_eval(eval) >= beta].  Then [evaluate] returns
    [process_eval(eval) * side] without searching [post], and the cache it
    leaves is [c], the cache as the recursive call of that round returned
    it: the cutoff path writes nothing, so the entry under the hash of the
    position is what it was when the cutoff fired. *)
Theorem cutoff_returns_without_cache_write
    (pos pos1 pos2 pk p : Position) (maxdepth : Z)
    (cache ck c : Engine.Cache) (alfa beta eval_k alfa_k eval alfa' : Z)
    (possible_moves : list Move) (ordered_moves pre post : list (Z * Move))
    (pr : Z * Move) :
  Engine.cache_hit (cache !! get_hash pos) maxdepth = None ->
  get_possible_moves pos = Ok (pos1, possible_moves) ->
  possible_moves <> [] ->
  2 < pieces_size (m_pieces pos1) ->
  0 < maxdepth <= INT_MAX ->
  Engine.guess_moves cache possible_moves pos1 = Ok (pos2, ordered_moves) ->
  std_sort Engine.sort_moves ordered_moves = pre ++ pr :: post ->
  searched Engine.evaluate maxdepth (side_of pos1) beta pre
    (pos2, cache, int_neg Engine.MATE, alfa) (pk, ck, eval_k, alfa_k) ->
  search_round Engine.evaluate maxdepth (side_of pos1) beta pr
    (pk, ck, eval_k, alfa_k) (p, c, eval, alfa') ->
  (Engine.process_eval eval >=? beta) = true ->
  Engine.evaluate pos maxdepth cache alfa beta
  = Ok (int_mul (Engine.process_eval eval) (side_of pos1), p, c).
Proof.
  intros Hmiss Hget Hne Hsize Hdepth Hguess Hsort Hpre Hround Hcut.
  unfold Engine.evaluate at 1.
  replace (Z.to_nat maxdepth) with (S (Z.to_nat (maxdepth - 1))) by lia.
  assert (Hext : forall q c0 a b,
            Engine.evaluate q (int_sub maxdepth 1) c0 a b
            = Engine.evaluate_rec (Z.to_nat (maxdepth - 1)) q
                (int_sub maxdepth 1) c0 a b).
  { intros q c0 a b. unfold Engine.evaluate.
    rewrite (wrap32_id (maxdepth - 1)) at 1;
      [done | unfold is_int, INT_MIN, INT_MAX in *; lia]. }
  eapply evaluate_rec_cutoff; try done; [lia | |].
  - by eapply searched_ext.
  - by eapply search_round_ext.
Qed.
End evaluate_cutoff.

(** King and rook against king, searched one ply deep with [beta = 5]:
    whichever move is searched first, the position behind it counts 5 by
    material, which reaches [beta]; 5 is returned and the cache has no
    entry for the position. *)
Lemma cutoff_returns_without_cache_write_witness :
  exists p c,
    @Engine.evaluate demo_hash demo_sort rook_ending_position 1 ∅
      (-1000000) 5 = Ok (5, p, c) /\
    c !! @get_hash demo_hash rook_ending_position = None.
Proof.
  eexists. eexists. split; [etransitivity |].
  - eapply (@cutoff_returns_without_cache_write demo_hash demo_sort
              rook_ending_position _ _ _ _ 1 ∅ _ _ (-1000000) 5 _ _ _ _
              _ _ [] _ _).
    + by_computation.
    + by_computation.
    + discriminate.
    + by_computation.
    + by_computation.
    + by_computation.
    + by_computation.
    + apply searched_nil.
    + eexists _, _, _.
      split; [by_computation |]. split; [by_computation |].
      split; [by_computation |]. split; reflexivity.
    + by_computation.
  - by_computation.
  - by_computation.
Defined.

(** ** The search leaves the position as it found it *)

Lemma same_position_trans (p q r : Position) :
  same_position p q -> same_position q r -> same_position p r.
Proof.
  intros [Hb Ht He Hp Hh] [Hb' Ht' He' Hp' Hh'].
  split; try congruence. by rewrite Hp.
Qed.

Lemma same_position_sym (p q : Position) :
  same_position p q -> same_position q p.
Proof. intros [Hb Ht He Hp Hh]. by split. Qed.

(** A move made, a computation that gives the position back, the move
    undone. *)
Lemma perform_then_undo (pk p1 p2 p3 : Position) (m : Move) :
  wf pk ->
  move_ok (m_board pk) (m_en_passant pk) m ->
  perform_move pk m = Ok p1 ->
  same_position p2 p1 -> wf p2 ->
  undo_move p2 = Ok p3 ->
  same_position p3 pk /\ wf p3.
Proof.
  intros Hwf Hok Hperf [Hb Ht He _ Hh] Hwf2 Hundo.
  pose proof Hok as [_ _ _ _ _ Hlast]. rewrite <- Hlast in Hok.
  destruct (perform_move_inv _ _ _ Hwf Hok Hperf)
    as (Hs & Hb1 & Htm1 & Hep1 & Hh1 & Hwf1).
  destruct Hwf as [Hlen Hag Htm].
  destruct (undo_move_after (m_board pk) p2 m (m_prev_moves pk) Hlen Hok Hs
              Hwf2) as (p3' & Hundo' & Hb3 & Htm3 & Hep3 & Hh3 & Hag3);
    [congruence | congruence |].
  rewrite Hundo in Hundo'. injection Hundo' as <-.
  destruct (flip_to_move_wb _ Htm) as [_ Hflip].
  assert (Htm' : m_to_move p3 = m_to_move pk)
    by (by rewrite Htm3, Ht, Htm1).
  split.
  - split; try done; [congruence |].
    apply wf_same_pieces. by rewrite Hag3, Hag.
  - split; [by rewrite Hb3 | by rewrite Hb3 | by rewrite Htm'].
Qed.

Lemma legal_moves_ok (pos pos' : Position) (legal : list Move) :
  wf pos ->
  get_possible_moves pos = Ok (pos', legal) ->
  Forall (move_ok (m_board pos) (m_en_passant pos)) legal /\
  wf pos' /\ same_position pos' pos.
Proof.
  intros Hwf Hget.
  destruct (get_possible_moves_spec _ _ _ Hwf Hget)
    as (pseudo & _ & Hall & -> & _ & Hwf' & Hsame & _).
  split; [| done].
  rewrite Forall_forall in *. intros m [_ Hm]%list_elem_of_filter. auto.
Qed.

Section preserve.
Context `{StdHash} `{StdSort}.
Hypothesis Hsort : sort_permutes.

Lemma guess_moves_spec (cache : Engine.Cache) (pos : Position)
    (moves : list Move) :
  Forall (move_ok (m_board pos) (m_en_passant pos)) moves ->
  forall p acc p' ordered,
  wf p -> same_position p pos ->
  for_each moves (p, acc) (fun m st =>
    let '(position, ordered_moves) := st in
    do position <- perform_move position m;
    let guess := Engine.get_eval_guess (get_hash position) cache in
    do position <- undo_move position;
    Ok (position, ordered_moves ++ [(guess, m)])) = Ok (p', ordered) ->
  wf p' /\ same_position p' pos /\ snd <$> ordered = (snd <$> acc) ++ moves.
Proof.
  intros Hall. induction Hall as [|m moves Hok Hall IH];
    intros p acc p' ordered Hwf Hsame Hloop; simpl in Hloop.
  - injection Hloop as <- <-. by rewrite app_nil_r.
  - bind_inv Hloop as [p1 acc1] E. bind_inv E as q1 Eperf.
    bind_inv E as q2 Eundo. injection E as <- <-.
    assert (Hokp : move_ok (m_board p) (m_en_passant p) m).
    { destruct Hsame as [Hb _ He _ _]. by rewrite Hb, He. }
    destruct (perform_undo _ _ _ Hwf Hokp Eperf) as (q2' & Hq2 & Hs2 & Hwf2).
    rewrite Eundo in Hq2. injection Hq2 as <-.
    destruct (IH _ _ _ _ Hwf2 (same_position_trans _ _ _ Hs2 Hsame) Hloop)
      as (Hwf' & Hsame' & Hord).
    split; [done |]. split; [done |].
    rewrite Hord, fmap_app. simpl. by rewrite <- app_assoc.
Qed.

Lemma search_preserves recurse (maxdepth side beta : Z) (pos : Position)
    (ordered : list (Z * Move)) :
  preserving recurse ->
  Forall (fun pr => move_ok (m_board pos) (m_en_passant pos) (snd pr))
         ordered ->
  forall p cache eval alfa exit p' cache',
  wf p -> same_position p pos ->
  Engine.search recurse maxdepth side beta ordered p cache eval alfa
    = Ok (exit, p', cache') ->
  same_position p' pos /\ wf p'.
Proof.
  intros Hrec Hall. induction Hall as [|pr rest Hok Hall IH];
    intros p cache eval alfa exit p' cache' Hwf Hsame Hs; simpl in Hs.
  - by injection Hs as <- <- <-.
  - bind_inv Hs as p1 E1. bind_inv Hs as [[v p2] c2] E2.
    assert (Hokp : move_ok (m_board p) (m_en_passant p) (snd pr)).
    { destruct Hsame as [Hb _ He _ _]. by rewrite Hb, He. }
    assert (Hwf1 : wf p1).
    { pose proof Hokp as [_ _ _ _ _ Hlast]. rewrite <- Hlast in Hokp.
      by destruct (perform_move_inv _ _ _ Hwf Hokp E1) as (_&_&_&_&_&?). }
    destruct (Hrec _ _ _ _ _ _ _ _ Hwf1 E2) as [Hs2 Hwf2].
    assert (Hstep : forall p3, undo_move p2 = Ok p3 ->
              same_position p3 pos /\ wf p3).
    { intros p3 E3.
      destruct (perform_then_undo _ _ _ _ _ Hwf Hokp E1 Hs2 Hwf2 E3)
        as [Hs3 Hwf3].
      split; [by eapply same_position_trans | done]. }
    destruct (int_mul v side >? eval).
    + bind_inv Hs as p3 E3. destruct (Hstep p3 eq_refl) as [Hs3 Hwf3].
      destruct (_ >=? _).
      * by injection Hs as <- <- <-.
      * eapply IH; eauto.
    + bind_inv Hs as p3 E3. destruct (Hstep p3 eq_refl) as [Hs3 Hwf3].
      destruct (_ >=? _).
      * by injection Hs as <- <- <-.
      * eapply IH; eauto.
Qed.

Lemma evaluate_rec_preserves (fuel : nat) :
  preserving (Engine.evaluate_rec fuel).
Proof.
  induction fuel as [|fuel IH]; intros pos d cache a b v pos' cache' Hwf Hev.
  - simpl in Hev.
    destruct (Engine.cache_hit _ _); [by injection Hev as <- <- <- |].
    bind_inv Hev as [pos1 moves] Eg.
    destruct (legal_moves_ok _ _ _ Hwf Eg) as (_ & Hwf1 & Hs1).
    bind_inv Hev as early Ee. destruct early as [[v0 c0]|].
    { by injection Hev as <- <- <-. }
    destruct (d <=? 0); [| discriminate].
    bind_inv Hev as result Em. by injection Hev as <- <- <-.
  - simpl in Hev.
    destruct (Engine.cache_hit _ _); [by injection Hev as <- <- <- |].
    bind_inv Hev as [pos1 moves] Eg.
    destruct (legal_moves_ok _ _ _ Hwf Eg) as (Hall & Hwf1 & Hs1).
    bind_inv Hev as early Ee. destruct early as [[v0 c0]|].
    { by injection Hev as <- <- <-. }
    destruct (d <=? 0).
    { bind_inv Hev as result Em. by injection Hev as <- <- <-. }
    bind_inv Hev as [pos2 ordered] Eguess.
    assert (Hall1 : Forall (move_ok (m_board pos1) (m_en_passant pos1)) moves).
    { destruct Hs1 as [Hb _ He _ _]. by rewrite Hb, He. }
    destruct (guess_moves_spec cache pos1 moves Hall1 pos1 [] pos2 ordered
                Hwf1 (same_position_refl pos1) Eguess)
      as (Hwf2 & Hs2 & Hord).
    simpl in Hord.
    bind_inv Hev as [[exit pos3] c3] Esearch.
    assert (Hsorted : Forall (fun pr =>
              move_ok (m_board pos1) (m_en_passant pos1) (snd pr))
              (std_sort Engine.sort_moves ordered)).
    { rewrite (Hsort Engine.sort_moves ordered).
      apply Forall_forall. intros pr Hin.
      apply (proj1 (Forall_forall _ _) Hall1).
      rewrite <- Hord. apply list_elem_of_fmap. by exists pr. }
    destruct (search_preserves _ _ _ _ pos1 _ IH Hsorted _ _ _ _ _ _ _
                Hwf2 Hs2 Esearch) as [Hs3 Hwf3].
    assert (Hs3' : same_position pos3 pos)
      by (by eapply same_position_trans).
    destruct exit; by injection Hev as <- <- <-.
Qed.

Lemma evaluate_preserves (pos pos' : Position) (d : Z)
    (cache cache' : Engine.Cache) (a b v : Z) :
  wf pos ->
  Engine.evaluate pos d cache a b = Ok (v, pos', cache') ->
  same_position pos' pos /\ wf pos'.
Proof. intros Hwf Hev. by eapply evaluate_rec_preserves. Qed.

Lemma iter_evaluate_preserves (pos pos' : Position) (d : Z)
    (cache cache' : Engine.Cache) (v : Z) :
  wf pos ->
  Engine.iter_evaluate pos d cache = Ok (v, pos', cache') ->
  same_position pos' pos /\ wf pos'.
Proof.
  intros Hwf Hit. unfold Engine.iter_evaluate in Hit.
  bind_inv Hit as [p1 c1] Eloop.
  assert (Hloop : same_position p1 pos /\ wf p1).
  { revert Eloop.
    apply (for_each_inv (fun st => same_position (fst st) pos /\ wf (fst st)));
      [split; [apply same_position_refl | done] |].
    intros depth [p c] [p' c'] _ [Hs Hw] Hb. simpl in *.
    bind_inv Hb as [[v0 p0] c0] Ev. injection Hb as <- <-.
    destruct (evaluate_preserves _ _ _ _ _ _ _ _ Hw Ev) as [Hs0 Hw0].
    split; [by eapply same_position_trans | done]. }
  destruct Hloop as [Hs1 Hw1].
  destruct (evaluate_preserves _ _ _ _ _ _ _ _ Hw1 Hit) as [Hs2 Hw2].
  split; [by eapply same_position_trans | done].
Qed.
End preserve.

Section play.
Context `{StdHash} `{StdSort}.
Hypothesis Hsort : sort_permutes.

Lemma play_loop_spec (target d : Z) (pos : Position) (moves : list Move) :
  Forall (move_ok (m_board pos) (m_en_passant pos)) moves ->
  forall p cache pos' cache',
  wf p -> same_position p pos ->
  Engine.play_loop moves target d p cache = Ok (pos', cache') ->
  exists m, m ∈ moves /\
    m_prev_moves pos' = m :: m_prev_moves pos /\
    m_board pos' = board_after (m_board pos) m /\
    m_to_move pos' = flip_to_move (m_to_move pos) /\
    wf pos'.
Proof.
  intros Hall. induction Hall as [|m rest Hok Hall IH];
    intros p cache pos' cache' Hwf Hsame Hloop; simpl in Hloop;
    [discriminate |].
  bind_inv Hloop as p1 E1. bind_inv Hloop as [[v p2] c2] E2.
  assert (Hokp : move_ok (m_board p) (m_en_passant p) m).
  { destruct Hsame as [Hb _ He _ _]. by rewrite Hb, He. }
  assert (Hokl : move_ok (m_board p) (m_last_enpassant m) m).
  { pose proof Hokp as [_ _ _ _ _ Hlast]. by rewrite Hlast. }
  destruct (perform_move_inv _ _ _ Hwf Hokl E1)
    as (_ & Hb1 & Htm1 & _ & Hh1 & Hwf1).
  destruct (iter_evaluate_preserves Hsort _ _ _ _ _ _ Hwf1 E2)
    as [[Hb2 Ht2 He2 _ Hh2] Hwf2].
  destruct (Engine.process_eval v =? target).
  - injection Hloop as <- <-. exists m.
    destruct Hsame as [Hb Ht He _ Hh].
    split; [by left |]. repeat split; try congruence; by destruct Hwf2.
  - bind_inv Hloop as p3 E3.
    assert (Hs2 : same_position p2 p1).
    { destruct (iter_evaluate_preserves Hsort _ _ _ _ _ _ Hwf1 E2) as [? _].
      done. }
    destruct (perform_then_undo _ _ _ _ _ Hwf Hokp E1 Hs2 Hwf2 E3)
      as [Hs3 Hwf3].
    destruct (IH _ _ _ _ Hwf3 (same_position_trans _ _ _ Hs3 Hsame) Hloop)
      as (m' & Hin & Hrest).
    exists m'. split; [by right | done].
Qed.

(** C1, as the code has it: [evaluate] returns with the position it was
    given (the same board, side to move, en-passant square and history, and
    the same pieces as a multiset) on every path on which it returns;
    [play_random_best] returns with the position unchanged when there is no
    legal move, and otherwise with one legal move made and left on the
    board. *)
Theorem position_after_search (random_shuffle : list Move -> list Move)
    (pos : Position) :
  wf pos ->
  (forall l, Permutation (random_shuffle l) l) ->
  (forall d cache alfa beta v pos' cache',
     Engine.evaluate pos d cache alfa beta = Ok (v, pos', cache') ->
     same_position pos' pos) /\
  (forall d cache pos' cache',
     Engine.play_random_best random_shuffle pos d cache = Ok (pos', cache') ->
     (legal_moves_of pos = [] /\ same_position pos' pos) \/
     (exists m, m ∈ legal_moves_of pos /\
        m_prev_moves pos' = m :: m_prev_moves pos /\
        m_board pos' = board_after (m_board pos) m /\
        m_to_move pos' = flip_to_move (m_to_move pos))).
Proof.
  intros Hwf Hshuffle. split.
  - intros d cache alfa beta v pos' cache' Hev.
    by destruct (evaluate_preserves Hsort _ _ _ _ _ _ _ _ Hwf Hev).
  - intros d cache pos' cache' Hplay.
    unfold Engine.play_random_best in Hplay.
    bind_inv Hplay as [p0 moves] Eg.
    destruct (legal_moves_ok _ _ _ Hwf Eg) as (Hall & Hwf0 & Hs0).
    assert (Hlegal : legal_moves_of pos = moves)
      by (unfold legal_moves_of; by rewrite Eg).
    rewrite Hlegal.
    destruct (length (random_shuffle moves) =? 0)%nat eqn:Hlen.
    + injection Hplay as <- <-. left. split; [| done].
      apply Nat.eqb_eq in Hlen. rewrite (Hshuffle moves) in Hlen.
      by destruct moves.
    + bind_inv Hplay as [[target p1] c1] Eit.
      destruct (iter_evaluate_preserves Hsort _ _ _ _ _ _ Hwf0 Eit)
        as [Hs1 Hwf1].
      assert (Hall' : Forall (move_ok (m_board pos) (m_en_passant pos))
                        (random_shuffle moves))
        by (by rewrite (Hshuffle moves)).
      destruct (play_loop_spec _ _ _ _ Hall' _ _ _ _ Hwf1
                  (same_position_trans _ _ _ Hs1 Hs0) Hplay)
        as (m & Hin & Hh & Hb & Ht & _).
      right. exists m. rewrite (Hshuffle moves) in Hin. done.
Qed.
End play.

Lemma wf_promotion_position : wf promotion_position.
Proof.
  apply (Position_of_FEN_wf "7k/P7/8/8/8/8/8/7K w - - 0 1");
    [by_computation | by_computation | by_computation | by left].
Defined.

Lemma wf_bare_kings_position : wf bare_kings_position.
Proof.
  apply (Position_of_FEN_wf "8/8/3k4/8/3K4/8/8/8 w - - 0 1");
    [by_computation | by_computation | by_computation | by left].
Defined.

(** A two-ply search of the promotion position returns and leaves the
    position as it was. *)
Lemma position_after_search_witness :
  exists v pos' cache',
    @Engine.evaluate demo_hash demo_sort promotion_position 2 ∅
      (-1000000) 1000000 = Ok (v, pos', cache') /\
    same_position pos' promotion_position.
Proof.
  eexists. eexists. eexists. split; [by_computation |].
  eapply (proj1 (@position_after_search demo_hash demo_sort
                   demo_sort_permutes (fun l => l) promotion_position
                   wf_promotion_position (fun l => Permutation_refl l))
            2 ∅ (-1000000) 1000000).
  by_computation.
Defined.

(** [play_random_best] does not give the position back: with bare kings it
    plays a king move and returns with that move on the board. *)
Lemma play_random_best_counterexample :
  exists pos' cache',
    @Engine.play_random_best demo_hash demo_sort (fun l => l)
      bare_kings_position 2 ∅ = Ok (pos', cache') /\
    m_board pos' <> m_board bare_kings_position /\
    m_prev_moves pos' <> m_prev_moves bare_kings_position /\
    ~ same_position pos' bare_kings_position.
Proof.
  eexists. eexists. split; [by_computation |].
  split; [discriminate |]. split; [discriminate |].
  intros [Hb _ _ _ _]. discriminate.
Qed.

(** ** The fastest-mate report *)

Lemma int_mul_2_small (d : Z) :
  0 <= d <= 1073741823 -> int_mul 2 d = 2 * d.
Proof.
  intros Hd. unfold int_mul. apply wrap32_id.
  unfold is_int, INT_MIN, INT_MAX. lia.
Qed.

Lemma mate_in_spec (score : Z) :
  INT_MIN < score <= INT_MAX ->
  Engine.mate_in score = Z.quot (Engine.MATE - Z.abs score + 1) 2.
Proof.
  intros Hs. unfold Engine.mate_in. rewrite (int_abs_small _ Hs).
  unfold INT_MIN, INT_MAX, Engine.MATE in *.
  unfold int_sub. rewrite wrap32_id by (unfold is_int, INT_MIN, INT_MAX; lia).
  unfold int_add. rewrite wrap32_id by (unfold is_int, INT_MIN, INT_MAX; lia).
  unfold int_div. apply wrap32_id. unfold is_int, INT_MIN, INT_MAX.
  pose proof (Z.quot_lt_upper_bound).
  assert (Hq : -1073741824 <= (1000000 - Z.abs score + 1) ÷ 2 <= 1073741824).
  { split.
    - apply Z.quot_le_lower_bound; lia.
    - apply Z.quot_le_upper_bound; lia. }
  lia.
Qed.

Section fastest_mate.
Context `{StdHash} `{StdSort}.

(** Depths whose scores are no mate scores are passed over. *)
Lemma fastest_mate_loop_skip (l1 l2 : list Z) (pos p : Position)
    (cache c : Engine.Cache) (scores : list Z) :
  Forall (fun d => 0 <= d <= 1073741823) l1 ->
  evaluate_each l1 pos cache = Ok (scores, p, c) ->
  Forall quiet scores ->
  Engine.fastest_mate_loop (l1 ++ l2) pos cache
  = Engine.fastest_mate_loop l2 p c.
Proof.
  revert pos cache scores.
  induction l1 as [|d l1 IH]; intros pos cache scores Hd Hch Hq;
    simpl in Hch.
  - by injection Hch as <- <- <-.
  - inversion Hd as [|? ? Hd0 Hd1]; subst.
    bind_inv Hch as [[s p1] c1] E1. bind_inv Hch as [[ss p2] c2] E2.
    injection Hch as <- <- <-.
    inversion Hq as [|? ? [Hr Hs] Hq']; subst.
    simpl. rewrite (int_mul_2_small d Hd0), E1. simpl.
    rewrite (int_abs_small _ Hr).
    destruct (Z.gtb_spec (Z.abs s) Engine.MATE_THRESHOLD); [lia |].
    by eapply IH.
Qed.

(** C7: [find_fastest_mate] evaluates at the depths 0, 2, ..., 2(max_moves-1)
    in this order, each time on the position and cache the evaluation before
    left.  At the first depth whose score is a mate score it returns "White
    mates in k" for a positive score and "Black mates in k" for a negative
    one, with k = (MATE - |score| + 1) / 2 in integer arithmetic; when no
    depth gives a mate score it returns "Unknown result". *)
Theorem find_fastest_mate_spec (pos : Position) (max_moves : Z)
    (cache : Engine.Cache) :
  max_moves <= 1073741824 ->
  (forall d scores p c s p' c',
     0 <= d < max_moves ->
     evaluate_each (seqZ 0 d) pos cache = Ok (scores, p, c) ->
     Forall quiet scores ->
     Engine.evaluate_default p (2 * d) c = Ok (s, p', c') ->
     INT_MIN < s <= INT_MAX -> is_mate_score s ->
     Engine.find_fastest_mate pos max_moves cache
     = Ok (mate_label s, p', c')) /\
  (forall scores p c,
     evaluate_each (seqZ 0 max_moves) pos cache = Ok (scores, p, c) ->
     Forall quiet scores ->
     Engine.find_fastest_mate pos max_moves cache
     = Ok ("Unknown result", p, c)).
Proof.
  intros Hmax. unfold Engine.find_fastest_mate. split.
  - intros d scores p c s p' c' Hd Hch Hq Hev Hr Hm.
    replace max_moves with (d + (max_moves - d)) by lia.
    rewrite seqZ_app by lia. rewrite Z.add_0_l.
    assert (Hrange : Forall (fun x => 0 <= x <= 1073741823) (seqZ 0 d)).
    { apply Forall_forall. intros x Hx.
      apply list_elem_of_lookup in Hx as [i Hx].
      apply lookup_seqZ in Hx. lia. }
    rewrite (fastest_mate_loop_skip _ _ _ _ _ _ _ Hrange Hch Hq).
    rewrite seqZ_cons by lia. simpl.
    rewrite (int_mul_2_small d) by lia. rewrite Hev. simpl.
    rewrite (int_abs_small _ Hr).
    unfold is_mate_score in Hm.
    destruct (Z.gtb_spec (Z.abs s) Engine.MATE_THRESHOLD); [| lia].
    unfold mate_label. by rewrite (mate_in_spec _ Hr).
  - intros scores p c Hch Hq.
    assert (Hrange : Forall (fun x => 0 <= x <= 1073741823)
                       (seqZ 0 max_moves)).
    { apply Forall_forall. intros x Hx.
      apply list_elem_of_lookup in Hx as [i Hx].
      apply lookup_seqZ in Hx. lia. }
    rewrite <- (app_nil_r (seqZ 0 max_moves)).
    by rewrite (fastest_mate_loop_skip _ _ _ _ _ _ _ Hrange Hch Hq).
Qed.
End fastest_mate.

(** In the back-rank position the evaluation at depth 0 is the material
    count, the one at depth 2 finds the mate: "White mates in 1". *)
Lemma find_fastest_mate_spec_witness :
  exists p c,
    @Engine.find_fastest_mate demo_hash demo_sort back_rank_position 3 ∅
    = Ok ("White mates in 1", p, c).
Proof.
  eexists. eexists.
  assert (Hlabel : mate_label 999999 = "White mates in 1") by reflexivity.
  rewrite <- Hlabel.
  eapply (proj1 (@find_fastest_mate_spec demo_hash demo_sort
                   back_rank_position 3 ∅ ltac:(lia)) 1).
  - lia.
  - by_computation.
  - repeat constructor; unfold INT_MIN, INT_MAX, Engine.MATE_THRESHOLD; lia.
  - by_computation.
  - unfold INT_MIN, INT_MAX. lia.
  - unfold is_mate_score, Engine.MATE_THRESHOLD. lia.
Defined.

(** ** C9: a position is read back from its FEN *)

Lemma append_assoc (s1 s2 s3 : string) :
  (s1 +:+ s2) +:+ s3 = s1 +:+ (s2 +:+ s3).
Proof.
  induction s1 as [|c s1 IH]; [reflexivity |].
  change (String c ((s1 +:+ s2) +:+ s3) = String c (s1 +:+ s2 +:+ s3)).
  by rewrite IH.
Qed.

Lemma parses_nil (i : Z) (b : list ascii) (ps : slots) :
  parses "" i b ps i b ps.
Proof. by intros tail. Qed.

Lemma parses_app (s1 s2 : string) i b ps i1 b1 ps1 i2 b2 ps2 :
  parses s1 i b ps i1 b1 ps1 -> parses s2 i1 b1 ps1 i2 b2 ps2 ->
  parses (s1 +:+ s2) i b ps i2 b2 ps2.
Proof.
  intros H1 H2 tail. by rewrite append_assoc, H1, H2.
Qed.

Lemma parses_piece (c : ascii) (i : Z) (b : list ascii) (ps : slots) :
  fen_safe c -> i < 64 ->
  parses (String c "") i b ps (i + 1) (b ++ [c]) (pieces_insert (c, i) ps).
Proof.
  intros [Hslash Hdigit] Hi tail.
  change (String c "" +:+ tail) with (String c tail). simpl.
  destruct (Z.ltb_spec i 64); [| lia]. simpl.
  apply char_eqb_neq in Hslash. rewrite Hslash.
  destruct (Z.leb_spec (char_code "0") (char_code c)),
           (Z.leb_spec (char_code c) (char_code "9")); simpl; try done.
  lia.
Qed.

Lemma parses_slash (i : Z) (b : list ascii) (ps : slots) :
  i < 64 -> parses "/" i b ps i b ps.
Proof.
  intros Hi tail. change ("/" +:+ tail) with (String "/" tail). simpl.
  by destruct (Z.ltb_spec i 64); [| lia].
Qed.

Lemma fen_empties_run (k : nat) (i : Z) (b : list ascii) :
  i + Z.of_nat k <= 64 ->
  fen_empties k i b = Ok (i + Z.of_nat k, b ++ replicate k "."%char).
Proof.
  revert i b. induction k as [|k IH]; intros i b Hle; simpl.
  - by rewrite Z.add_0_r, app_nil_r.
  - destruct (Z.ltb_spec i 65); [| lia].
    rewrite IH by lia. rewrite <- app_assoc. simpl.
    do 2 f_equal. lia.
Qed.

Lemma fen_board_digit (k : Z) (tail : string) (i : Z) (b : list ascii)
    (ps : slots) :
  1 <= k <= 8 -> i < 64 ->
  fen_board (std_to_string k +:+ tail) i b ps =
  do '(i, b) <- fen_empties (Z.to_nat k) i b; fen_board tail i b ps.
Proof.
  intros Hk Hi.
  assert (Hcases : k = 1 \/ k = 2 \/ k = 3 \/ k = 4 \/ k = 5 \/ k = 6 \/
                   k = 7 \/ k = 8) by lia.
  assert (Hlt : (i <? 64) = true) by (apply Z.ltb_lt; lia).
  destruct Hcases as [-> | [-> | [-> | [-> | [-> | [-> | [-> | ->]]]]]]];
    match goal with
    | |- context [std_to_string ?k +:+ tail] =>
        let s := eval vm_compute in (std_to_string k) in
        change (std_to_string k +:+ tail) with (s +:+ tail)
    end;
    match goal with
    | |- context [String ?c "" +:+ tail] =>
        change (String c "" +:+ tail) with (String c tail)
    end;
    cbn [fen_board]; rewrite Hlt; reflexivity.
Qed.

Lemma parses_digit (k : Z) (i : Z) (b : list ascii) (ps : slots) :
  1 <= k <= 8 -> i + k <= 64 ->
  parses (std_to_string k) i b ps
         (i + k) (b ++ replicate (Z.to_nat k) "."%char) ps.
Proof.
  intros Hk Hi tail. rewrite fen_board_digit by lia.
  rewrite fen_empties_run by lia. cbn [bind].
  rewrite Z2Nat.id by lia. reflexivity.
Qed.

Lemma for_each_seqZ {St : Type} (I : Z -> St -> Prop)
    (body : Z -> St -> res St) (n : nat) (m : Z) (s : St) :
  I m s ->
  (forall i s0, m <= i < m + Z.of_nat n -> I i s0 ->
     exists s1, body i s0 = Ok s1 /\ I (i + 1) s1) ->
  exists s', for_each (seqZ m (Z.of_nat n)) s body = Ok s' /\
             I (m + Z.of_nat n) s'.
Proof.
  revert m s. induction n as [|n IH]; intros m s Hs Hbody.
  - exists s. split; [done |]. by rewrite Z.add_0_r.
  - rewrite seqZ_cons by lia. simpl.
    destruct (Hbody m s) as (s1 & E & Hs1); [lia | done |].
    rewrite E. cbn [bind].
    replace (Z.pred (Z.of_nat (S n))) with (Z.of_nat n) by lia.
    destruct (IH (Z.succ m) s1) as (s' & E' & Hs').
    + by replace (Z.succ m) with (m + 1) by lia.
    + intros i s0 Hi. apply Hbody. lia.
    + exists s'. split; [done |].
      by replace (m + Z.of_nat (S n)) with (Z.succ m + Z.of_nat n) by lia.
Qed.

Lemma take_run {A : Type} (x : A) (l : list A) (a k : nat) :
  (forall j, (a <= j < a + k)%nat -> l !! j = Some x) ->
  take (a + k) l = take a l ++ replicate k x.
Proof.
  induction k as [|k IH]; intros Hrun.
  - by rewrite Nat.add_0_r, app_nil_r.
  - replace (a + S k)%nat with (S (a + k)) by lia.
    rewrite (take_S_r _ _ x) by (apply Hrun; lia).
    rewrite IH by (intros j Hj; apply Hrun; lia).
    rewrite <- app_assoc. f_equal.
    change (replicate k x ++ [x] = x :: replicate k x).
    by rewrite replicate_cons_app.
Qed.

Lemma slots_from_app (i : Z) (l1 l2 : list ascii) :
  slots_from i (l1 ++ l2) =
  slots_from i l1 ++ slots_from (i + Z.of_nat (length l1)) l2.
Proof.
  revert i. induction l1 as [|c l1 IH]; intros i; simpl.
  - by rewrite Z.add_0_r.
  - rewrite IH, <- app_assoc. do 3 f_equal. lia.
Qed.

Lemma slots_from_dots (i : Z) (k : nat) :
  slots_from i (replicate k "."%char) = [].
Proof. revert i. induction k as [|k IH]; intros i; simpl; [done | apply IH]. Qed.

Lemma pieces_set_slots_from (i : Z) (l : list ascii) :
  pieces_set (slots_from i l) = cells_from i l.
Proof.
  revert i. induction l as [|c l IH]; intros i; [done |].
  cbn [slots_from cells_from]. rewrite pieces_set_app, IH.
  unfold cell. destruct (c =c ".") eqn:E; [ms_solve |].
  rewrite pieces_set_cons. simpl. ms_solve.
Qed.

Section round_trip.
Variable b : list ascii.
Hypothesis Hlen : length b = 64%nat.
Hypothesis Hsafe : Forall fen_safe b.

Lemma fen_flush (i : Z) (st : string * Z) :
  0 <= i <= 64 -> fen_pending b i st ->
  fen_pending b i (flush_empty st) /\ snd (flush_empty st) = 0.
Proof.
  destruct st as [result buf]. intros Hi (Hbuf & Hle & Hdots & Hp).
  unfold flush_empty. destruct (Z.ltb_spec 0 buf) as [Hpos | Hzero].
  - split; [| done]. unfold fen_pending.
    split; [lia |]. split; [lia |]. split; [intros; lia |].
    rewrite Z.sub_0_r.
    assert (Htake : take (Z.to_nat i) b =
              take (Z.to_nat (i - buf)) b ++ replicate (Z.to_nat buf) "."%char).
    { replace (Z.to_nat i) with (Z.to_nat (i - buf) + Z.to_nat buf)%nat by lia.
      apply take_run. intros j Hj.
      assert (Hd := Hdots (Z.of_nat j)). rewrite board_at_Ok in Hd.
      rewrite Nat2Z.id in Hd. apply Hd. lia. }
    rewrite Htake, slots_from_app, slots_from_dots, app_nil_r.
    eapply parses_app; [exact Hp |].
    assert (Hd := parses_digit buf (i - buf)).
    replace (i - buf + buf) with i in Hd by lia.
    apply Hd; lia.
  - assert (buf = 0) by lia. subst buf. split; [| done].
    unfold fen_pending. auto.
Qed.

Lemma fen_put_piece (i : Z) (result : string) (c : ascii) :
  0 <= i < 64 -> b !! Z.to_nat i = Some c -> (c =c ".") = false ->
  fen_pending b i (result, 0) ->
  fen_pending b (i + 1) (result +:+ String c "", 0).
Proof.
  intros Hi Hc Hdot (_ & _ & _ & Hp). unfold fen_pending.
  rewrite Z.sub_0_r in *.
  split; [lia |]. split; [lia |]. split; [intros; lia |].
  eapply parses_app; [exact Hp |].
  replace (Z.to_nat (i + 1)) with (S (Z.to_nat i)) by lia.
  rewrite (take_S_r _ _ c) by done.
  rewrite slots_from_app. cbn [slots_from]. rewrite Hdot, app_nil_r.
  rewrite length_take, Hlen.
  replace (0 + Z.of_nat (Z.to_nat i `min` 64)) with i by lia.
  apply parses_piece; [| lia].
  by eapply Forall_lookup_1.
Qed.

Lemma fen_put_dot (i : Z) (result : string) (buf : Z) :
  0 <= i < 64 -> board_at b i = Ok "."%char -> buf <= 7 ->
  fen_pending b i (result, buf) ->
  fen_pending b (i + 1) (result, buf + 1).
Proof.
  intros Hi Hc Hbuf (Hb & Hle & Hdots & Hp). unfold fen_pending.
  replace (i + 1 - (buf + 1)) with (i - buf) by lia.
  split; [lia |]. split; [lia |]. split; [| done].
  intros j Hj. destruct (decide (j = i)) as [-> | Hne]; [done |].
  apply Hdots. lia.
Qed.

Lemma fen_put_slash (i : Z) (result : string) :
  i < 64 -> fen_pending b i (result, 0) ->
  fen_pending b i (result +:+ "/", 0).
Proof.
  intros Hi (Hb & Hle & Hdots & Hp). unfold fen_pending.
  split; [lia |]. split; [lia |]. split; [done |].
  eapply parses_app; [exact Hp |]. apply parses_slash. lia.
Qed.

Lemma fen_square_step (i : Z) (st : string * Z) :
  0 <= i < 64 -> fen_inv b i st ->
  exists st', fen_square b i st = Ok st' /\ fen_inv b (i + 1) st'.
Proof.
  intros Hi [Hp Hrow]. destruct st as [result buf]. cbn [snd] in Hrow.
  destruct (lookup_lt_is_Some_2 b (Z.to_nat i)) as [c Hc]; [lia |].
  assert (Hat : board_at b i = Ok c) by (by apply board_at_Ok).
  assert (Hbuf : 0 <= buf <= 8) by (by destruct Hp).
  assert (Hmod : 0 <= i mod 8 < 8) by (apply Z.mod_pos_bound; lia).
  unfold fen_square. rewrite Hat. cbn [bind fst snd].
  assert (Hst : exists r1 b1,
    (if c =c "." then (result, int_add buf 1)
     else let '(r, e) := flush_empty (result, buf) in
          (r +:+ String c "", e)) = (r1, b1) /\
    fen_pending b (i + 1) (r1, b1) /\ 0 <= b1 <= i mod 8 + 1).
  { destruct (c =c ".") eqn:E.
    - apply char_eqb_eq in E. subst c. exists result, (buf + 1).
      rewrite int_add_small by lia.
      split; [done |]. split; [apply fen_put_dot; [done | done | lia | done] |].
      lia.
    - destruct (fen_flush i (result, buf)) as [Hf H0]; [lia | done |].
      destruct (flush_empty (result, buf)) as [r e]. cbn [snd] in H0. subst e.
      exists (r +:+ String c ""), 0. split; [done |].
      split; [by apply fen_put_piece | lia]. }
  destruct Hst as (r1 & b1 & -> & Hp1 & Hb1).
  unfold int_rem. rewrite Z.rem_mod_nonneg by lia.
  assert (Hmod' : 0 <= (i + 1) mod 8 < 8) by (apply Z.mod_pos_bound; lia).
  destruct (Z.eqb_spec (i mod 8) 7) as [Hend | Hmid].
  - destruct (fen_flush (i + 1) (r1, b1)) as [Hf H0]; [lia | done |].
    destruct (flush_empty (r1, b1)) as [r e]. cbn [snd] in H0. subst e.
    destruct (Z.eqb_spec i 63) as [-> | Hne]; cbn [negb].
    + eexists. split; [done |]. split; [done |]. cbn [snd]. lia.
    + eexists. split; [done |].
      split; [apply fen_put_slash; [lia | done] |]. cbn [snd]. lia.
  - eexists. split; [done |]. split; [done |]. cbn [snd].
    assert ((i + 1) mod 8 = i mod 8 + 1); [| lia].
    rewrite Z.add_mod by lia.
    change (1 mod 8) with 1. apply Z.mod_small. lia.
Qed.

(** The loop of [get_fen] over the squares ends, with a text that the
    reader takes for the 64 squares of the board. *)
Lemma fen_squares :
  exists result buf,
    for_each (seqZ 0 64) ("", 0) (fen_square b) = Ok (result, buf) /\
    parses result 0 [] [] 64 b (slots_from 0 b).
Proof.
  destruct (for_each_seqZ (fen_inv b) (fen_square b) 64 0 ("", 0))
    as ([result buf] & E & [(Hbuf & _ & _ & Hp) Hrow]).
  - split; [| done]. unfold fen_pending.
    split; [lia |]. split; [lia |]. split; [intros; lia |]. apply parses_nil.
  - intros i s0 Hi. apply fen_square_step. lia.
  - exists result, buf. split; [exact E |].
    cbn [snd] in Hrow. change ((0 + Z.of_nat 64) mod 8) with 0 in Hrow.
    assert (buf = 0) by lia. subst buf.
    change (0 + Z.of_nat 64 - 0) with 64 in Hp.
    by rewrite take_ge in Hp by lia.
Qed.
End round_trip.

Lemma append_cons (c : ascii) (s t : string) :
  String c s +:+ t = String c (s +:+ t).
Proof. reflexivity. Qed.

Lemma append_nil (t : string) : "" +:+ t = t.
Proof. reflexivity. Qed.

Lemma squares_read_back (sq : Z) :
  0 <= sq < 64 -> square_read_back sq = true.
Proof.
  intros Hsq.
  assert (Hall : forallb square_read_back (seqZ 0 64) = true)
    by (vm_compute; reflexivity).
  rewrite forallb_forall in Hall. apply Hall.
  apply list_elem_of_In, elem_of_seqZ. lia.
Qed.

(** What the reader makes of the fields that follow the board. *)
Lemma Position_of_FEN_fields (result : string) (b : list ascii) (ps : slots)
    (to_move : ascii) (ep : Z) :
  parses result 0 [] [] 64 b ps ->
  ep = -1 \/ 0 <= ep < 64 ->
  Position_of_FEN
    (((((result +:+ " ") +:+ String to_move "") +:+ " - ") +:+
      (if ep =? -1 then "-" else square_string ep)) +:+ " 0 1") =
  Ok (mkPosition b to_move ep ps []).
Proof.
  intros Hp Hep. unfold Position_of_FEN.
  rewrite !append_assoc, Hp. cbn [fen_board]. 
  change (negb (64 <? 64)) with true. cbn [bind].
  rewrite !append_cons, !append_nil.
  destruct Hep as [-> | Hep].
  - reflexivity.
  - destruct (Z.eqb_spec ep (-1)) as [-> | _]; [lia |].
    assert (Hsq := squares_read_back ep Hep). unfold square_read_back in Hsq.
    destruct (square_string ep) as [|c1 [|c2 [|]]]; try discriminate.
    apply andb_prop in Hsq as [Hc1 Hsq].
    rewrite !append_cons, !append_nil. cbn.
    destruct (c1 =c "-"); [discriminate |]. cbn.
    destruct (get_square_str (str2 c1 c2)) as [sq'|]; [| discriminate].
    apply Z.eqb_eq in Hsq. by subst sq'.
Qed.

(** X19 (the round trip of claim C9).  A position whose board and piece
    table agree, whose squares hold no digit and no row separator (empty squares and piece letters do not),
    and whose en-passant square is absent or on the board, is read back
    from its FEN: [get_fen] returns a text, the reader accepts it, and the
    position read has the same 64 squares, the same side to move, the same
    en-passant square and the same multiset of (piece, square) pairs. *)
Theorem fen_round_trip (pos : Position) :
  wf pos ->
  Forall fen_safe (m_board pos) ->
  m_en_passant pos = -1 \/ 0 <= m_en_passant pos < 64 ->
  exists text pos',
    get_fen pos = Ok text /\
    Position_of_FEN text = Ok pos' /\
    m_board pos' = m_board pos /\
    m_to_move pos' = m_to_move pos /\
    m_en_passant pos' = m_en_passant pos /\
    pieces_set (m_pieces pos') = pieces_set (m_pieces pos).
Proof.
  intros Hwf Hsafe Hep.
  destruct Hwf as [Hlen Hagree _].
  destruct (fen_squares (m_board pos) Hlen Hsafe) as (result & buf & E & Hp).
  unfold get_fen. rewrite E. cbn [bind].
  eexists. eexists. split; [reflexivity |].
  split.
  - rewrite <- (Position_of_FEN_fields result _ _ (m_to_move pos) _ Hp Hep).
    by destruct (m_en_passant pos =? -1).
  - cbn [m_board m_to_move m_en_passant m_pieces].
    split; [done |]. split; [done |]. split; [done |].
    rewrite pieces_set_slots_from. symmetry. exact Hagree.
Qed.

Lemma wf_after_e4_position : wf after_e4_position.
Proof.
  apply (Position_of_FEN_wf
           "rnbqkbnr/pppppppp/8/8/4P3/8/PPPP1PPP/RNBQKBNR b KQkq e3 0 1");
    [by_computation | by_computation | by_computation | by right].
Defined.

(** The position after e2-e4, en-passant square e3, is read back from
    its FEN. *)
Lemma fen_round_trip_witness :
  exists text pos',
    get_fen after_e4_position = Ok text /\
    Position_of_FEN text = Ok pos' /\
    m_board pos' = m_board after_e4_position /\
    m_to_move pos' = m_to_move after_e4_position /\
    m_en_passant pos' = m_en_passant after_e4_position /\
    pieces_set (m_pieces pos') = pieces_set (m_pieces after_e4_position).
Proof.
  apply (fen_round_trip after_e4_position).
  - exact wf_after_e4_position.
  - apply (bool_decide_unpack _). vm_compute. exact I.
  - right. unfold after_e4_position. cbn [m_en_passant]. lia.
Defined.

(** ** C8: the evaluation of the position with the colours swapped *)

Lemma swap_case_involutive (c : ascii) : swap_case (swap_case c) = c.
Proof. destruct c as [[] [] [] [] [] [] [] []]; reflexivity. Qed.

Lemma tolower_swap_case (c : ascii) : tolower (swap_case c) = tolower c.
Proof. destruct c as [[] [] [] [] [] [] [] []]; reflexivity. Qed.

Lemma swap_case_eqb (a c : ascii) : (swap_case a =c swap_case c) = (a =c c).
Proof.
  destruct (a =c c) eqn:E.
  - apply char_eqb_eq in E. subst. apply char_eqb_refl.
  - apply char_eqb_neq. intros Heq. apply char_eqb_neq in E. apply E.
    by rewrite <- (swap_case_involutive a), Heq, swap_case_involutive.
Qed.

Lemma swap_case_dot (c : ascii) : (swap_case c =c ".") = (c =c ".").
Proof. exact (swap_case_eqb c "."). Qed.

Lemma swap_case_NUL (c : ascii) : (swap_case c =c NUL) = (c =c NUL).
Proof. exact (swap_case_eqb c NUL). Qed.

Ltac officer_cases H :=
  unfold officer_or_empty, officer in H; cbn [existsb] in H;
  repeat match type of H with
         | (?c =c ?x) || _ = true =>
             let E := fresh "E" in
             destruct (c =c x) eqn:E;
             [apply char_eqb_eq in E; subst c; clear H | cbn [orb] in H]
         | false = true => discriminate H
         end.

Lemma officer_upper (c : ascii) :
  officer c = true -> is_upper (swap_case c) = negb (is_upper c).
Proof. intros H. officer_cases H; reflexivity. Qed.

Lemma officer_swap (c : ascii) :
  officer c = true -> officer (swap_case c) = true.
Proof. intros H. officer_cases H; reflexivity. Qed.

Lemma officer_or_empty_swap (c : ascii) :
  officer_or_empty c = true -> officer_or_empty (swap_case c) = true.
Proof. intros H. officer_cases H; reflexivity. Qed.

Lemma officer_not_pawn (c : ascii) :
  officer_or_empty c = true -> (tolower c =c "p") = false.
Proof. intros H. officer_cases H; reflexivity. Qed.

Lemma officer_real (c : ascii) : officer c = true -> (c =c ".") = false.
Proof. intros H. officer_cases H; reflexivity. Qed.

Lemma officer_or_empty_cases (c : ascii) :
  officer_or_empty c = true -> c = "."%char \/ officer c = true.
Proof.
  unfold officer_or_empty. destruct (c =c ".") eqn:E; [| by right].
  left. by apply char_eqb_eq.
Qed.

Lemma flip_to_move_white (c : ascii) :
  (flip_to_move c =c "w") = negb (c =c "w").
Proof. unfold flip_to_move. by destruct (c =c "w"). Qed.

Lemma res_map_bind {A B A' B' : Type} (f : A -> A') (g : B -> B')
    (r : res A) (k : A -> res B) (k' : A' -> res B') :
  (forall a, r = Ok a -> k' (f a) = res_map g (k a)) ->
  bind (res_map f r) k' = res_map g (bind r k).
Proof. intros Hk. destruct r as [a|e]; simpl; [by apply Hk | done]. Qed.

Lemma swap_entry_inj (e1 e2 : entry) :
  swap_entry e1 = swap_entry e2 -> e1 = e2.
Proof.
  destruct e1 as [c1 s1], e2 as [c2 s2]. unfold swap_entry. simpl.
  intros [= Hc ->]. f_equal.
  by rewrite <- (swap_case_involutive c1), Hc, swap_case_involutive.
Qed.

Lemma board_at_swap (b : list ascii) (sq : Z) :
  board_at (swap_case <$> b) sq = res_map swap_case (board_at b sq).
Proof.
  unfold board_at. destruct ((0 <=? sq) && (sq <? 64)); [| done].
  rewrite list_lookup_fmap. by destruct (b !! Z.to_nat sq).
Qed.

Lemma board_set_swap (b : list ascii) (sq : Z) (c : ascii) :
  board_set (swap_case <$> b) sq (swap_case c) =
  res_map (fmap swap_case) (board_set b sq c).
Proof.
  unfold board_set. rewrite length_fmap.
  destruct ((0 <=? sq) && (sq <? 64) && (Z.to_nat sq <? length b)%nat);
    [| done].
  simpl. by rewrite list_fmap_insert.
Qed.

Lemma list_find_swap (P Q : option entry -> Prop)
    `{!forall x, Decision (P x)} `{!forall x, Decision (Q x)} (ps : slots) :
  (forall o, P (option_map swap_entry o) <-> Q o) ->
  fst <$> list_find P (swap_slots ps) = fst <$> list_find Q ps.
Proof.
  intros HPQ. unfold swap_slots.
  induction ps as [|o ps IH]; [done |].
  rewrite fmap_cons. cbn [list_find].
  destruct (decide (P (option_map swap_entry o))) as [HP | HP],
           (decide (Q o)) as [HQ | HQ]; try done.
  - by apply HPQ in HP.
  - by apply HPQ in HQ.
  - rewrite <- !option_fmap_compose.
    destruct (list_find P _) as [[i x]|], (list_find Q ps) as [[j y]|];
      simpl in *; congruence.
Qed.

Lemma get_piece_swap (ps : slots) (piece : ascii) (square : Z) :
  get_piece (swap_slots ps) (swap_case piece) square = get_piece ps piece square.
Proof.
  unfold get_piece. apply list_find_swap. intros [e|]; cbn [option_map];
    [| done].
  change (swap_case piece, square) with (swap_entry (piece, square)).
  split; intros He.
  - f_equal. apply swap_entry_inj. congruence.
  - congruence.
Qed.

Lemma pieces_find_swap (ps : slots) (key : ascii) :
  pieces_find (swap_case key) (swap_slots ps) = pieces_find key ps.
Proof.
  unfold pieces_find. apply list_find_swap. intros [[c s]|]; simpl; [| done].
  split; intros He; f_equal.
  - injection He as He.
    by rewrite <- (swap_case_involutive c), He, swap_case_involutive.
  - congruence.
Qed.

Lemma deref_swap (ps : slots) (it : nat) :
  deref (swap_slots ps) it = res_map swap_entry (deref ps it).
Proof.
  unfold deref, swap_slots. rewrite list_lookup_fmap.
  by destruct (ps !! it) as [[e|]|].
Qed.

Lemma pieces_erase_swap (it : nat) (ps : slots) :
  pieces_erase it (swap_slots ps) = res_map swap_slots (pieces_erase it ps).
Proof.
  unfold pieces_erase. rewrite deref_swap.
  destruct (deref ps it); simpl; [| done].
  unfold swap_slots. by rewrite list_fmap_insert.
Qed.

Lemma set_second_swap (it : nat) (square : Z) (ps : slots) :
  set_second it square (swap_slots ps) =
  res_map swap_slots (set_second it square ps).
Proof.
  unfold set_second. rewrite deref_swap.
  destruct (deref ps it); simpl; [| done].
  unfold swap_slots. by rewrite list_fmap_insert.
Qed.

Lemma pieces_insert_swap (e : entry) (ps : slots) :
  pieces_insert (swap_entry e) (swap_slots ps) =
  swap_slots (pieces_insert e ps).
Proof. unfold pieces_insert, swap_slots. by rewrite fmap_app. Qed.

Lemma live_swap (ps : slots) : live (swap_slots ps) = swap_entry <$> live ps.
Proof.
  unfold live, swap_slots. induction ps as [|[e|] ps IH]; [done | |].
  - change (swap_entry e :: omap id (option_map swap_entry <$> ps) =
            swap_entry e :: (swap_entry <$> omap id ps)).
    by rewrite IH.
  - exact IH.
Qed.

Lemma pieces_size_swap (ps : slots) :
  pieces_size (swap_slots ps) = pieces_size ps.
Proof. unfold pieces_size. by rewrite live_swap, length_fmap. Qed.

Lemma found_or_throw_map (it : option nat) (msg : string) :
  found_or_throw it msg = res_map id (found_or_throw it msg).
Proof. by destruct it. Qed.

Lemma perform_move_swap (pos : Position) (m : Move) :
  m_special m = NUL ->
  perform_move (swap_colors pos) (swap_move m) =
  res_map swap_colors (perform_move pos m).
Proof.
  intros Hsp. unfold perform_move.
  cbn [swap_colors swap_move m_board m_to_move m_en_passant m_pieces
       m_prev_moves m_from m_to m_piece m_captured m_special].
  rewrite get_piece_swap.
  destruct (found_or_throw (get_piece (m_pieces pos) (m_piece m) (m_from m)) _)
    as [moved|]; [| done].
  cbn [bind]. rewrite swap_case_dot, get_piece_swap.
  assert (Herase :
    (if negb (m_captured m =c ".")
     then do taken_piece <-
            found_or_throw
              (get_piece (m_pieces pos) (m_captured m) (m_to m))
              "taken piece not found";
          pieces_erase taken_piece (swap_slots (m_pieces pos))
     else Ok (swap_slots (m_pieces pos))) =
    res_map swap_slots
      (if negb (m_captured m =c ".")
       then do taken_piece <-
              found_or_throw
                (get_piece (m_pieces pos) (m_captured m) (m_to m))
                "taken piece not found";
            pieces_erase taken_piece (m_pieces pos)
       else Ok (m_pieces pos))).
  { destruct (negb (m_captured m =c ".")); [| done].
    destruct (found_or_throw _ _) as [taken|]; [| done].
    cbn [bind]. apply pieces_erase_swap. }
  rewrite Herase. clear Herase.
  destruct (if negb (m_captured m =c ".") then _ else _) as [ps|]; [| done].
  cbn [bind res_map]. rewrite set_second_swap.
  destruct (set_second moved (m_to m) ps) as [ps1|]; [| done].
  cbn [bind res_map].
  change "."%char with (swap_case ".") at 1. rewrite board_set_swap.
  destruct (board_set (m_board pos) (m_from m) ".") as [b1|]; [| done].
  cbn [bind res_map]. rewrite board_set_swap.
  destruct (board_set b1 (m_to m) (m_piece m)) as [b2|]; [| done].
  cbn [bind res_map]. rewrite swap_case_NUL, Hsp, char_eqb_refl.
  cbn [negb bind]. by rewrite tolower_swap_case.
Qed.

Lemma undo_move_swap (pos : Position) :
  (forall m prev, m_prev_moves pos = m :: prev -> m_special m = NUL) ->
  undo_move (swap_colors pos) = res_map swap_colors (undo_move pos).
Proof.
  intros Hsp. unfold undo_move.
  cbn [swap_colors m_board m_to_move m_en_passant m_pieces m_prev_moves].
  destruct (m_prev_moves pos) as [|m prev]; [done |].
  specialize (Hsp m prev eq_refl). rewrite fmap_cons.
  cbn [swap_move m_from m_to m_piece m_captured m_special m_last_enpassant].
  rewrite board_at_swap.
  destruct (board_at (m_board pos) (m_to m)) as [c|]; [| done].
  cbn [bind res_map]. rewrite get_piece_swap.
  destruct (found_or_throw _ _) as [moved|]; [| done].
  cbn [bind]. rewrite swap_case_dot.
  assert (Hins :
    (if negb (m_captured m =c ".")
     then pieces_insert (swap_case (m_captured m), m_to m)
            (swap_slots (m_pieces pos))
     else swap_slots (m_pieces pos)) =
    swap_slots (if negb (m_captured m =c ".")
                then pieces_insert (m_captured m, m_to m) (m_pieces pos)
                else m_pieces pos)).
  { destruct (negb (m_captured m =c ".")); [| done].
    exact (pieces_insert_swap (m_captured m, m_to m) (m_pieces pos)). }
  rewrite Hins. clear Hins. rewrite set_second_swap.
  destruct (set_second moved (m_from m) _) as [ps1|]; [| done].
  cbn [bind res_map]. rewrite board_set_swap.
  destruct (board_set (m_board pos) (m_from m) (m_piece m)) as [b1|]; [| done].
  cbn [bind res_map]. rewrite board_set_swap.
  destruct (board_set b1 (m_to m) (m_captured m)) as [b2|]; [| done].
  cbn [bind res_map]. rewrite swap_case_NUL, Hsp, char_eqb_refl.
  cbn [negb bind]. reflexivity.
Qed.

(** *** The attack test on a board without pawns *)

Section swap_board.
Variable b : list ascii.
Hypothesis Hlen : length b = 64%nat.
Hypothesis Hclean : Forall (fun c => officer_or_empty c = true) b.

Lemma read_clean (sq : Z) (t : ascii) :
  board_at b sq = Ok t -> officer_or_empty t = true.
Proof.
  intros [_ Ht]%board_at_Ok.
  by apply (Forall_lookup_1 _ _ _ _ Hclean Ht).
Qed.

Lemma upper_swap_read (sq : Z) (t : ascii) :
  board_at b sq = Ok t -> (t =c ".") = false ->
  is_upper (swap_case t) = negb (is_upper t).
Proof.
  intros Ht Hdot. apply officer_upper.
  destruct (officer_or_empty_cases t (read_clean _ _ Ht)) as [-> | Ho];
    [discriminate | done].
Qed.

Lemma offset_hit_swap (col row : Z) (by_white : bool) (kind : ascii)
    (offs : list (Z * Z)) :
  (kind =c ".") = false ->
  offset_hit (swap_case <$> b) col row (negb by_white) kind offs =
  offset_hit b col row by_white kind offs.
Proof.
  intros Hkind. induction offs as [|cds offs IH]; [done |].
  cbn [offset_hit]. rewrite IH.
  destruct (negb (are_valid_coords _ _)); [done |].
  destruct (get_square _ _) as [sq|]; [| done]. cbn [bind].
  rewrite board_at_swap.
  destruct (board_at b sq) as [p|] eqn:Hp; [| done]. cbn [bind res_map].
  rewrite tolower_swap_case.
  destruct (p =c ".") eqn:Hdot.
  - apply char_eqb_eq in Hdot. subst p.
    change (tolower ".") with "."%char.
    rewrite (proj2 (char_eqb_neq "." kind)); [done |].
    intros <-. by rewrite char_eqb_refl in Hkind.
  - rewrite (upper_swap_read _ _ Hp Hdot).
    by destruct by_white, (is_upper p).
Qed.

Lemma offset_hit_no_pawn (col row : Z) (by_white : bool)
    (offs : list (Z * Z)) :
  offset_hit b col row by_white "p" offs = Ok false.
Proof.
  induction offs as [|cds offs IH]; [done |].
  cbn [offset_hit]. rewrite IH.
  destruct (are_valid_coords _ _) eqn:Hv; [| done]. cbn [negb].
  rewrite (get_square_valid _ _ Hv). cbn [bind].
  destruct (board_at_valid b _ _ _ Hlen (get_square_valid _ _ Hv)) as [p Hp].
  rewrite Hp. cbn [bind].
  by rewrite (officer_not_pawn _ (read_clean _ _ Hp)).
Qed.

Lemma ray_hit_swap (fuel : nat) (by_white : bool) (k1 k2 : ascii)
    (cds curr : Z * Z) :
  ray_hit fuel (swap_case <$> b) (negb by_white) k1 k2 cds curr =
  ray_hit fuel b by_white k1 k2 cds curr.
Proof.
  revert curr. induction fuel as [|fuel IH]; intros curr; [done |].
  cbn [ray_hit]. rewrite IH.
  destruct (are_valid_coords _ _); [| done].
  destruct (get_square _ _) as [sq|]; [| done]. cbn [bind].
  rewrite board_at_swap.
  destruct (board_at b sq) as [p|] eqn:Hp; [| done]. cbn [bind res_map].
  rewrite swap_case_dot, tolower_swap_case.
  destruct (p =c ".") eqn:Hdot; [done |]. cbn [negb].
  rewrite (upper_swap_read _ _ Hp Hdot).
  by destruct by_white, (is_upper p).
Qed.

Lemma rays_hit_swap (col row : Z) (by_white : bool) (k1 k2 : ascii)
    (dirs : list (Z * Z)) :
  rays_hit (swap_case <$> b) col row (negb by_white) k1 k2 dirs =
  rays_hit b col row by_white k1 k2 dirs.
Proof.
  induction dirs as [|cds dirs IH]; [done |].
  cbn [rays_hit]. by rewrite ray_hit_swap, IH.
Qed.
End swap_board.

Lemma clean_swap (b : list ascii) :
  Forall (fun c => officer_or_empty c = true) b ->
  Forall (fun c => officer_or_empty c = true) (swap_case <$> b).
Proof.
  intros H. apply Forall_fmap. eapply Forall_impl; [exact H |].
  intros c. apply officer_or_empty_swap.
Qed.

Lemma square_hit_board_swap (b : list ascii) (square : Z) (by_white : bool) :
  length b = 64%nat ->
  Forall (fun c => officer_or_empty c = true) b ->
  square_hit_board (swap_case <$> b) square (negb by_white) =
  square_hit_board b square by_white.
Proof.
  intros Hlen Hclean. unfold square_hit_board.
  rewrite !(offset_hit_swap b Hclean) by done.
  rewrite !(rays_hit_swap b Hclean).
  by rewrite !(offset_hit_no_pawn b Hlen Hclean).
Qed.

(** *** The moves of the officers *)

Lemma for_each_swap {A A' St St' : Type} (g : A -> A') (f : St -> St')
    (I : St -> Prop) (l : list A) (l' : list A') (s : St) (s' : St')
    (body : A -> St -> res St) (body' : A' -> St' -> res St') :
  l' = g <$> l -> s' = f s -> I s ->
  (forall x s0, x ∈ l -> I s0 ->
     body' (g x) (f s0) = res_map f (body x s0) /\
     (forall s1, body x s0 = Ok s1 -> I s1)) ->
  for_each l' s' body' = res_map f (for_each l s body) /\
  (forall s1, for_each l s body = Ok s1 -> I s1).
Proof.
  intros -> ->. revert s. induction l as [|x l IH]; intros s Hs Hbody.
  - split; [done |]. by intros s1 [= <-].
  - rewrite fmap_cons. cbn [for_each].
    destruct (Hbody x s) as [Heq Hinv]; [by left | done |].
    rewrite Heq. destruct (body x s) as [s1|]; [| by split].
    cbn [res_map bind]. apply IH; [by apply Hinv |].
    intros y s0 Hy. apply Hbody. by right.
Qed.

Lemma eqb_negb (a c : bool) : eqb (negb a) (negb c) = eqb a c.
Proof. by destruct a, c. Qed.

Section swap_moves.
Variable b : list ascii.
Hypothesis Hlen : length b = 64%nat.
Hypothesis Hclean : Forall (fun c => officer_or_empty c = true) b.
Variables (ep : Z) (piece : ascii) (square : Z).
Hypothesis Hpiece : officer piece = true.

Lemma officer_generated (sq : Z) (t : ascii) :
  board_at b sq = Ok t -> officer_move (mkMove square sq piece t NUL ep).
Proof. intros Ht. split; [done | by eapply read_clean | done]. Qed.

Lemma swap_generated (sq : Z) (t : ascii) (result : list Move) :
  (swap_move <$> result) ++
    [mkMove square sq (swap_case piece) (swap_case t) NUL ep] =
  swap_move <$> (result ++ [mkMove square sq piece t NUL ep]).
Proof. by rewrite fmap_app. Qed.

Lemma step_moves_swap (col row : Z) (offs : list (Z * Z)) :
  step_moves (swap_case <$> b) ep (swap_case piece) square col row offs =
  res_map (fmap swap_move) (step_moves b ep piece square col row offs) /\
  (forall ms, step_moves b ep piece square col row offs = Ok ms ->
              Forall officer_move ms).
Proof.
  unfold step_moves.
  apply (for_each_swap id (fmap swap_move) (Forall officer_move) offs);
    [by rewrite list_fmap_id | done | constructor |].
  intros cds result _ Hres. unfold id.
  destruct (negb (are_valid_coords _ _)); [split; [done | by intros ? [= <-]] |].
  destruct (get_square _ _) as [sq|]; [| by split]. cbn [bind].
  rewrite board_at_swap.
  destruct (board_at b sq) as [t|] eqn:Ht; [| by split]. cbn [bind res_map].
  rewrite swap_case_dot, (officer_upper piece Hpiece).
  destruct (t =c ".") eqn:Hdot; cbn [orb].
  - split; [by rewrite swap_generated |].
    intros ? [= <-]. apply Forall_app. split; [done |].
    apply Forall_singleton. by apply officer_generated.
  - rewrite (upper_swap_read b Hclean _ _ Ht Hdot), eqb_negb.
    destruct (negb (eqb _ _)).
    + split; [by rewrite swap_generated |].
      intros ? [= <-]. apply Forall_app. split; [done |].
      apply Forall_singleton. by apply officer_generated.
    + split; [done | by intros ? [= <-]].
Qed.

Lemma ray_moves_swap (fuel : nat) (cds curr : Z * Z) (result : list Move) :
  ray_moves fuel (swap_case <$> b) ep (swap_case piece) square cds curr
            (swap_move <$> result) =
  res_map (fmap swap_move)
          (ray_moves fuel b ep piece square cds curr result) /\
  (Forall officer_move result ->
   forall ms, ray_moves fuel b ep piece square cds curr result = Ok ms ->
              Forall officer_move ms).
Proof.
  revert curr result. induction fuel as [|fuel IH]; intros curr result;
    [by split |].
  cbn [ray_moves].
  destruct (are_valid_coords _ _); [| split; [done | by intros ? ? [= <-]]].
  destruct (get_square _ _) as [sq|]; [| by split]. cbn [bind].
  rewrite board_at_swap.
  destruct (board_at b sq) as [t|] eqn:Ht; [| by split]. cbn [bind res_map].
  rewrite swap_case_dot, (officer_upper piece Hpiece).
  destruct (t =c ".") eqn:Hdot; cbn [negb andb].
  - rewrite swap_generated.
    destruct (IH (fst curr + fst cds, snd curr + snd cds)
                 (result ++ [mkMove square sq piece t NUL ep])) as [Heq Hinv].
    split; [exact Heq |].
    intros Hres ms. apply Hinv. apply Forall_app. split; [done |].
    apply Forall_singleton. by apply officer_generated.
  - rewrite (upper_swap_read b Hclean _ _ Ht Hdot), eqb_negb.
    destruct (eqb _ _).
    + split; [done | by intros ? ? [= <-]].
    + split; [by rewrite swap_generated |].
      intros Hres ? [= <-]. apply Forall_app. split; [done |].
      apply Forall_singleton. by apply officer_generated.
Qed.

Lemma slide_moves_swap (col row : Z) (dirs : list (Z * Z)) :
  slide_moves (swap_case <$> b) ep (swap_case piece) square col row dirs =
  res_map (fmap swap_move) (slide_moves b ep piece square col row dirs) /\
  (forall ms, slide_moves b ep piece square col row dirs = Ok ms ->
              Forall officer_move ms).
Proof.
  unfold slide_moves.
  apply (for_each_swap id (fmap swap_move) (Forall officer_move) dirs);
    [by rewrite list_fmap_id | done | constructor |].
  intros cds result _ Hres. unfold id.
  destruct (ray_moves_swap 9 cds (col + fst cds, row + snd cds) result)
    as [Heq Hinv].
  split; [exact Heq | by apply Hinv].
Qed.
End swap_moves.

(** * Further properties of the code *)

(** ** Squares and their names *)

Lemma square_string_shape (sq : Z) :
  0 <= sq < 64 ->
  exists c1 c2,
    square_string sq = String c1 (String c2 "") /\
    97 <= char_code c1 <= 104 /\
    get_square_str (str2 c1 c2) = Ok sq.
Proof.
  intros Hsq.
  assert (Hall : forallb (fun sq =>
            match square_string sq with
            | String c1 (String c2 EmptyString) =>
                (97 <=? char_code c1) && (char_code c1 <=? 104) &&
                match get_square_str (str2 c1 c2) with
                | Ok sq' => sq' =? sq
                | Err _ => false
                end
            | _ => false
            end) (seqZ 0 64) = true) by (vm_compute; reflexivity).
  rewrite forallb_forall in Hall.
  specialize (Hall sq). cbv beta in Hall.
  destruct (square_string sq) as [|c1 [|c2 [|]]];
    try (discriminate Hall; apply list_elem_of_In, elem_of_seqZ; lia).
  exists c1, c2. split; [done |].
  assert (Hin : In sq (seqZ 0 64)) by (apply list_elem_of_In, elem_of_seqZ; lia).
  apply Hall in Hin. apply andb_prop in Hin as [Hc Hg].
  apply andb_prop in Hc as [Hlo Hhi].
  split; [lia |].
  destruct (get_square_str (str2 c1 c2)) as [sq'|]; [| discriminate].
  apply Z.eqb_eq in Hg. by subst.
Qed.

(** X1.  The name [square_string] gives a square of the board is read back
    by [get_square(std::string)] as that square: the two functions are
    inverse on the 64 squares, so different squares have different names. *)
Theorem square_name_round_trip (sq : Z) :
  0 <= sq < 64 ->
  get_square_str (square_string sq) = Ok sq /\
  (forall sq', 0 <= sq' < 64 -> square_string sq' = square_string sq ->
               sq' = sq).
Proof.
  intros Hsq.
  destruct (square_string_shape sq Hsq) as (c1 & c2 & Hs & _ & Hg).
  assert (Hback : get_square_str (square_string sq) = Ok sq)
    by (by rewrite Hs).
  split; [done |].
  intros sq' Hsq' Heq.
  destruct (square_string_shape sq' Hsq') as (d1 & d2 & Hs' & _ & Hg').
  unfold str2 in Hg'. rewrite <- Hs', Heq, Hback in Hg'. by injection Hg'.
Qed.

Lemma square_name_round_trip_witness :
  get_square_str (square_string 36) = Ok 36 /\
  (forall sq', 0 <= sq' < 64 -> square_string sq' = square_string 36 ->
               sq' = 36).
Proof. apply (square_name_round_trip 36). lia. Defined.

(** X2.  A square of the board has exactly one pair of coordinates that
    [get_square(int, int)] accepts for it: column [square % 8] and row
    [square / 8]. *)
Theorem get_square_coordinates (sq col row : Z) :
  0 <= sq < 64 ->
  (get_square col row = Ok sq <->
   col = int_rem sq 8 /\ row = int_div sq 8).
Proof.
  intros Hsq. destruct (square_coords sq Hsq) as (Hsplit & Hcol & Hrow).
  split.
  - intros (Hv & -> & _)%get_square_Ok.
    apply are_valid_coords_spec in Hv.
    unfold int_rem, int_div in *.
    rewrite Z.rem_mod_nonneg, Z.quot_div_nonneg in * by lia.
    assert (Hd : (col + 8 * row) / 8 = row).
    { Z.to_euclidean_division_equations. lia. }
    assert (Hm : (col + 8 * row) mod 8 = col).
    { Z.to_euclidean_division_equations. lia. }
    rewrite Hd, Hm. split; [done |].
    symmetry. apply wrap32_id. unfold is_int, INT_MIN, INT_MAX. lia.
  - intros [-> ->]. rewrite get_square_valid.
    + by rewrite <- Hsplit.
    + apply are_valid_coords_spec. lia.
Qed.

Lemma get_square_coordinates_witness :
  get_square 4 4 = Ok 36 <-> 4 = int_rem 36 8 /\ 4 = int_div 36 8.
Proof. apply (get_square_coordinates 36 4 4). lia. Defined.

Lemma toupper_no_file (c : ascii) :
  (97 <=? char_code (toupper c)) && (char_code (toupper c) <=? 104) = false.
Proof. destruct c as [[] [] [] [] [] [] [] []]; reflexivity. Qed.

Lemma string_cons_append (c : ascii) (s t : string) :
  String c s +:+ t = String c (s +:+ t).
Proof. reflexivity. Qed.

Lemma string_nil_append (t : string) : "" +:+ t = t.
Proof. reflexivity. Qed.

(** X3.  The long notation of a move names its two squares: two moves on
    the board with the same [to_full_string] leave from the same square and
    arrive on the same square, whatever their pieces are. *)
Theorem full_string_names_squares (m m' : Move) :
  0 <= m_from m < 64 -> 0 <= m_to m < 64 ->
  0 <= m_from m' < 64 -> 0 <= m_to m' < 64 ->
  Move_to_full_string m = Move_to_full_string m' ->
  m_from m = m_from m' /\ m_to m = m_to m'.
Proof.
  intros Hf Ht Hf' Ht'.
  destruct (square_string_shape _ Hf) as (f1 & f2 & Hsf & Hcf & Hgf).
  destruct (square_string_shape _ Ht) as (t1 & t2 & Hst & Hct & Hgt).
  destruct (square_string_shape _ Hf') as (f1' & f2' & Hsf' & Hcf' & Hgf').
  destruct (square_string_shape _ Ht') as (t1' & t2' & Hst' & Hct' & Hgt').
  pose proof (toupper_no_file (m_piece m)) as Hu.
  pose proof (toupper_no_file (m_piece m')) as Hu'.
  unfold Move_to_full_string. rewrite Hsf, Hst, Hsf', Hst'.
  cbn [str0 str1]. unfold str2 in *.
  destruct (tolower (m_piece m) =c "p"), (tolower (m_piece m') =c "p"),
           (negb (m_captured m =c ".")), (negb (m_captured m' =c ".")),
           (negb (m_special m =c NUL) && negb (tolower (m_special m) =c "e")),
           (negb (m_special m' =c NUL) && negb (tolower (m_special m') =c "e"));
    repeat (rewrite string_cons_append || rewrite string_nil_append);
    intros Heq; injection Heq as ?; subst;
    try (rewrite Hgf in Hgf'; rewrite Hgt in Hgt';
         injection Hgf' as <-; injection Hgt' as <-; done);
    exfalso; lia.
Qed.

(** Two records with the long notation e2-e4. *)
Lemma full_string_names_squares_witness :
  m_from (mkMove 52 36 "P" "." NUL (-1)) = m_from (mkMove 52 36 "p" "." NUL 20) /\
  m_to (mkMove 52 36 "P" "." NUL (-1)) = m_to (mkMove 52 36 "p" "." NUL 20).
Proof.
  apply (full_string_names_squares (mkMove 52 36 "P" "." NUL (-1))
                                   (mkMove 52 36 "p" "." NUL 20));
    cbn [m_from m_to]; try lia; reflexivity.
Defined.

(** ** The comparator and the mate-distance function *)

(** X4.  [sort_moves] is a comparator [std::sort] may be used with: a
    strict weak ordering of the (guess, move) pairs.  It is irreflexive and
    transitive, and being unordered by it is transitive too. *)
Theorem sort_moves_strict_weak_ordering :
  (forall a, Engine.sort_moves a a = false) /\
  (forall a b c, Engine.sort_moves a b = true -> Engine.sort_moves b c = true ->
                 Engine.sort_moves a c = true) /\
  (forall a b c,
     Engine.sort_moves a b = false -> Engine.sort_moves b a = false ->
     Engine.sort_moves b c = false -> Engine.sort_moves c b = false ->
     Engine.sort_moves a c = false /\ Engine.sort_moves c a = false).
Proof.
  unfold Engine.sort_moves. repeat split; intros; lia.
Qed.

Lemma process_eval_value (x : Z) :
  INT_MIN < x <= INT_MAX ->
  Engine.process_eval x =
  if Z.abs x <? 2000 then x else if x >=? 2000 then x - 1 else x + 1.
Proof.
  intros Hx. unfold Engine.process_eval, Engine.MATE_THRESHOLD.
  rewrite (int_abs_small x Hx).
  unfold int_sub, int_add, INT_MIN, INT_MAX in *.
  destruct (Z.ltb_spec (Z.abs x) 2000); [done |].
  destruct (Z.geb_spec x 2000);
    apply wrap32_id; unfold is_int, INT_MIN, INT_MAX; lia.
Qed.

(** X5.  [process_eval] respects the order of the evaluations and the
    change of sides: on the [int] values other than [INT_MIN] it is
    non-decreasing, it commutes with negation, and it never moves a value
    away from zero. *)
Theorem process_eval_monotone_odd (x y : Z) :
  INT_MIN < x <= INT_MAX -> INT_MIN < y <= INT_MAX ->
  (x <= y -> Engine.process_eval x <= Engine.process_eval y) /\
  Engine.process_eval (- x) = - Engine.process_eval x /\
  Z.abs (Engine.process_eval x) <= Z.abs x.
Proof.
  intros Hx Hy.
  assert (Hnx : INT_MIN < - x <= INT_MAX)
    by (unfold INT_MIN, INT_MAX in *; lia).
  rewrite !process_eval_value by done.
  destruct (Z.ltb_spec (Z.abs x) 2000), (Z.ltb_spec (Z.abs y) 2000),
           (Z.ltb_spec (Z.abs (- x)) 2000),
           (Z.geb_spec x 2000), (Z.geb_spec y 2000), (Z.geb_spec (- x) 2000);
    lia.
Qed.

Lemma process_eval_monotone_odd_witness :
  (1999 <= 2000 -> Engine.process_eval 1999 <= Engine.process_eval 2000) /\
  Engine.process_eval (- 1999) = - Engine.process_eval 1999 /\
  Z.abs (Engine.process_eval 1999) <= Z.abs 1999.
Proof.
  apply (process_eval_monotone_odd 1999 2000);
    unfold INT_MIN, INT_MAX; lia.
Defined.

(** ** The cache of the search *)

Lemma cache_grows_refl (c : Engine.Cache) : cache_grows c c.
Proof. by intros h. Qed.

Lemma cache_grows_trans (c1 c2 c3 : Engine.Cache) :
  cache_grows c1 c2 -> cache_grows c2 c3 -> cache_grows c1 c3.
Proof. intros H12 H23 h Hh. by apply H23, H12. Qed.

Lemma cache_insert_grows (hash : Z) (v : Z * Z) (c : Engine.Cache) :
  cache_grows c (Engine.cache_insert hash v c) /\
  is_Some (Engine.cache_insert hash v c !! hash).
Proof.
  unfold Engine.cache_insert. destruct (c !! hash) as [w|] eqn:E.
  - split; [apply cache_grows_refl | by rewrite E].
  - split; [| by rewrite lookup_insert_eq].
    intros h Hh. destruct (decide (h = hash)) as [-> | Hne].
    + by rewrite lookup_insert_eq.
    + by rewrite lookup_insert_ne.
Qed.

Lemma cache_store_grows (cached : option (Z * Z)) (hash : Z) (v : Z * Z)
    (c : Engine.Cache) :
  cache_grows c (Engine.cache_store cached hash v c) /\
  is_Some (Engine.cache_store cached hash v c !! hash).
Proof.
  unfold Engine.cache_store. destruct cached; [| apply cache_insert_grows].
  split; [| by rewrite lookup_insert_eq].
  intros h Hh. destruct (decide (h = hash)) as [-> | Hne].
  - by rewrite lookup_insert_eq.
  - by rewrite lookup_insert_ne.
Qed.

Section cache.
Context `{StdHash} `{StdSort}.

Lemma search_grows recurse (maxdepth side beta : Z)
    (ordered : list (Z * Move)) :
  (forall p d c a b v p' c',
     recurse p d c a b = Ok (v, p', c') -> cache_grows c c') ->
  forall p cache eval alfa exit p' cache',
  Engine.search recurse maxdepth side beta ordered p cache eval alfa
    = Ok (exit, p', cache') ->
  cache_grows cache cache'.
Proof.
  intros Hrec. induction ordered as [|pr rest IH];
    intros p cache eval alfa exit p' cache' Hs; simpl in Hs.
  - injection Hs as <- <- <-. apply cache_grows_refl.
  - bind_inv Hs as p1 E1. bind_inv Hs as [[v p2] c2] E2.
    apply Hrec in E2.
    destruct (int_mul v side >? eval); bind_inv Hs as p3 E3;
      (destruct (_ >=? _);
       [by injection Hs as <- <- <- |
        eapply cache_grows_trans; [exact E2 | by eapply IH]]).
Qed.

Lemma evaluate_rec_grows (fuel : nat) (pos : Position) (d : Z)
    (cache : Engine.Cache) (a b v : Z) (pos' : Position)
    (cache' : Engine.Cache) :
  Engine.evaluate_rec fuel pos d cache a b = Ok (v, pos', cache') ->
  cache_grows cache cache'.
Proof.
  revert pos d cache a b v pos' cache'.
  induction fuel as [|fuel IH]; intros pos d cache a b v pos' cache' Hev;
    simpl in Hev;
    (destruct (Engine.cache_hit _ _);
     [injection Hev as <- <- <-; apply cache_grows_refl |]);
    bind_inv Hev as [pos1 moves] Eg;
    bind_inv Hev as early Ee.
  1, 2: assert (Hearly : forall v0 c0, early = Some (v0, c0) ->
                          cache_grows cache c0).
  1, 3: intros v0 c0 ->;
        destruct (_ =? _)%nat;
        [ bind_inv Ee as k Ek; bind_inv Ee as hit Eh;
          destruct hit; injection Ee as <- <-; apply cache_insert_grows
        | destruct (_ <=? 2); [| discriminate];
          injection Ee as <- <-; apply cache_insert_grows ].
  - destruct early as [[v0 c0]|].
    { injection Hev as <- <- <-. by eapply Hearly. }
    destruct (d <=? 0); [| discriminate].
    bind_inv Hev as result Em. injection Hev as <- <- <-.
    apply cache_store_grows.
  - destruct early as [[v0 c0]|].
    { injection Hev as <- <- <-. by eapply Hearly. }
    destruct (d <=? 0).
    { bind_inv Hev as result Em. injection Hev as <- <- <-.
      apply cache_store_grows. }
    bind_inv Hev as [pos2 ordered] Eguess.
    bind_inv Hev as [[exit pos3] c3] Esearch.
    apply (search_grows _ _ _ _ _ IH) in Esearch.
    destruct exit; injection Hev as <- <- <-; [done |].
    eapply cache_grows_trans; [exact Esearch | apply cache_store_grows].
Qed.

(** X6.  The search never forgets: every hash that has an entry in the
    cache when [evaluate] or [iter_evaluate] is called still has one when
    the call returns. *)
Theorem evaluate_keeps_cache_entries (pos : Position) (d : Z)
    (cache : Engine.Cache) :
  (forall a b v pos' cache',
     Engine.evaluate pos d cache a b = Ok (v, pos', cache') ->
     cache_grows cache cache') /\
  (forall v pos' cache',
     Engine.iter_evaluate pos d cache = Ok (v, pos', cache') ->
     cache_grows cache cache').
Proof.
  split.
  - intros a b v pos' cache'. apply evaluate_rec_grows.
  - intros v pos' cache' Hit. unfold Engine.iter_evaluate in Hit.
    bind_inv Hit as [p1 c1] Eloop.
    assert (Hloop : cache_grows cache c1).
    { revert Eloop.
      apply (for_each_inv (fun st => cache_grows cache (snd st)));
        [apply cache_grows_refl |].
      intros depth [p c] [p' c'] _ Hc Hb. simpl in *.
      bind_inv Hb as [[v0 p0] c0] Ev. injection Hb as <- <-.
      eapply cache_grows_trans; [exact Hc |].
      by eapply evaluate_rec_grows. }
    eapply cache_grows_trans; [exact Hloop |].
    by eapply evaluate_rec_grows.
Qed.
End cache.

Section stored.
Context `{StdHash} `{StdSort}.


End stored.


(** ** The position after the engine's entry points *)

Section entry_points.
Context `{StdHash} `{StdSort}.
Hypothesis Hsort : sort_permutes.

Lemma fastest_mate_loop_preserves (depths : list Z) :
  forall pos cache s pos' cache',
  wf pos ->
  Engine.fastest_mate_loop depths pos cache = Ok (s, pos', cache') ->
  same_position pos' pos.
Proof.
  induction depths as [|depth rest IH]; intros pos cache s pos' cache' Hwf Hl;
    simpl in Hl.
  - injection Hl as <- <- <-. apply same_position_refl.
  - bind_inv Hl as [[eval p1] c1] Ev.
    destruct (evaluate_preserves Hsort _ _ _ _ _ _ _ _ Hwf Ev) as [Hs1 Hw1].
    destruct (int_abs eval >? Engine.MATE_THRESHOLD).
    + by injection Hl as <- <- <-.
    + eapply same_position_trans; [by eapply IH | done].
Qed.

(** X8.  [iter_evaluate] and [find_fastest_mate] give the position back:
    when they return, the board, the side to move, the en-passant square
    and the history are as on entry, and the piece table holds the same
    pieces. *)
Theorem entry_points_give_position_back (pos : Position) (d : Z)
    (cache : Engine.Cache) :
  wf pos ->
  (forall v pos' cache',
     Engine.iter_evaluate pos d cache = Ok (v, pos', cache') ->
     same_position pos' pos) /\
  (forall s pos' cache',
     Engine.find_fastest_mate pos d cache = Ok (s, pos', cache') ->
     same_position pos' pos).
Proof.
  intros Hwf. split.
  - intros v pos' cache' Hit.
    by destruct (iter_evaluate_preserves Hsort _ _ _ _ _ _ Hwf Hit).
  - intros s pos' cache'. unfold Engine.find_fastest_mate.
    by apply fastest_mate_loop_preserves.
Qed.

(** X9.  [is_solution] tries the move and takes it back: for a move that
    matches the board, the position it returns with is the position it was
    called on, whatever the answer. *)
Theorem is_solution_gives_position_back (puzzle : Position) (move : Move)
    (cache : Engine.Cache) (answer : bool) (puzzle' : Position)
    (cache' : Engine.Cache) :
  wf puzzle ->
  move_ok (m_board puzzle) (m_en_passant puzzle) move ->
  Engine.is_solution puzzle move cache = Ok (answer, puzzle', cache') ->
  same_position puzzle' puzzle.
Proof.
  intros Hwf Hok Hsol. unfold Engine.is_solution in Hsol.
  bind_inv Hsol as [[eval p1] c1] Ev.
  destruct (evaluate_preserves Hsort _ _ _ _ _ _ _ _ Hwf Ev) as [Hs1 Hw1].
  bind_inv Hsol as p2 Eperf. bind_inv Hsol as [[v p3] c3] Eit.
  assert (Hok1 : move_ok (m_board p1) (m_en_passant p1) move).
  { destruct Hs1 as [Hb _ He _ _]. by rewrite Hb, He. }
  assert (Hw2 : wf p2).
  { pose proof Hok1 as [_ _ _ _ _ Hlast]. rewrite <- Hlast in Hok1.
    by destruct (perform_move_inv _ _ _ Hw1 Hok1 Eperf) as (_&_&_&_&_&?). }
  destruct (iter_evaluate_preserves Hsort _ _ _ _ _ _ Hw2 Eit) as [Hs3 Hw3].
  assert (Hback : forall p4, undo_move p3 = Ok p4 -> same_position p4 puzzle).
  { intros p4 Eundo.
    destruct (perform_then_undo _ _ _ _ _ Hw1 Hok1 Eperf Hs3 Hw3 Eundo)
      as [Hs4 _].
    by eapply same_position_trans. }
  destruct (_ =? _); bind_inv Hsol as p4 Eundo; injection Hsol as <- <- <-;
    by apply Hback.
Qed.
End entry_points.

Lemma wf_back_rank_position : wf back_rank_position.
Proof.
  apply (Position_of_FEN_wf "7k/5ppp/8/8/8/8/8/R5K1 w - - 0 1");
    [by_computation | by_computation | by_computation | by left].
Defined.

(** Two rounds of [iter_evaluate] on the back-rank position. *)
Lemma entry_points_give_position_back_witness :
  exists v pos' cache',
    @Engine.iter_evaluate demo_hash demo_sort back_rank_position 2 ∅
      = Ok (v, pos', cache') /\
    same_position pos' back_rank_position.
Proof.
  eexists. eexists. eexists. split; [by_computation |].
  eapply (proj1 (@entry_points_give_position_back demo_hash demo_sort
                   demo_sort_permutes back_rank_position 2 ∅
                   wf_back_rank_position)).
  by_computation.
Defined.

(** The rook move a1-a8 mates: [is_solution] answers [true] and the rook is
    back on a1. *)
Lemma is_solution_gives_position_back_witness :
  exists pos' cache',
    @Engine.is_solution demo_hash demo_sort back_rank_position
      (mkMove 56 0 "R" "." NUL (-1)) ∅ = Ok (true, pos', cache') /\
    same_position pos' back_rank_position.
Proof.
  eexists. eexists. split; [by_computation |].
  eapply (@is_solution_gives_position_back demo_hash demo_sort
            demo_sort_permutes back_rank_position
            (mkMove 56 0 "R" "." NUL (-1)) ∅ true).
  - exact wf_back_rank_position.
  - by split.
  - by_computation.
Defined.

(** ** Making a move *)

(** X10.  [perform_move] changes the board only where the move says: the
    square left becomes empty, the side to move changes, the move is pushed
    on the history, and every square other than the two of the move (and,
    for a special move, the square of the pawn an en-passant capture takes)
    holds what it held. *)
Theorem perform_move_frame (pos pos1 : Position) (m : Move) :
  wf pos ->
  move_ok (m_board pos) (m_last_enpassant m) m ->
  perform_move pos m = Ok pos1 ->
  board_at (m_board pos1) (m_from m) = Ok "."%char /\
  m_to_move pos1 = flip_to_move (m_to_move pos) /\
  m_prev_moves pos1 = m :: m_prev_moves pos /\
  (m_special m = NUL -> board_at (m_board pos1) (m_to m) = Ok (m_piece m)) /\
  (forall sq, sq <> m_from m -> sq <> m_to m ->
     m_special m = NUL \/ (sq <> m_to m - 8 /\ sq <> m_to m + 8) ->
     board_at (m_board pos1) sq = board_at (m_board pos) sq).
Proof.
  intros Hwf Hok Hperf.
  destruct (perform_move_inv _ _ _ Hwf Hok Hperf)
    as (Hs & Hb & Htm & _ & Hhist & _).
  destruct Hwf as [Hlen _ _].
  pose proof Hok as [Hp Hpr Hc Hd Hsp _].
  destruct (proj1 (board_at_Ok _ _ _) Hp) as [Hfrom _].
  destruct (proj1 (board_at_Ok _ _ _) Hc) as [Hto _].
  rewrite Hb. unfold board_after.
  split; [| split; [done | split; [done | split]]].
  - destruct Hs as [-> | (_ & He & HE)].
    + rewrite char_eqb_refl. board_reads.
    + destruct (m_special m =c NUL); [board_reads |].
      destruct (m_special m =c "e") eqn:Ee.
      { apply char_eqb_eq in Ee.
        destruct (proj1 (board_at_Ok _ _ _) (He Ee)) as [Hv _]. board_reads. }
      destruct (m_special m =c "E") eqn:EE.
      { apply char_eqb_eq in EE.
        destruct (proj1 (board_at_Ok _ _ _) (HE EE)) as [Hv _]. board_reads. }
      board_reads.
  - intros ->. rewrite char_eqb_refl. board_reads.
  - intros sq Hnf Hnt Hrest.
    destruct Hs as [-> | (_ & He & HE)].
    + rewrite char_eqb_refl. board_reads.
    + destruct (m_special m =c NUL); [board_reads |].
      destruct Hrest as [Hnul | [Hn8 Hp8]].
      { destruct (m_special m =c "e") eqn:Ee.
        { apply char_eqb_eq in Ee. rewrite Hnul in Ee. discriminate. }
        destruct (m_special m =c "E") eqn:EE.
        { apply char_eqb_eq in EE. rewrite Hnul in EE. discriminate. }
        board_reads. }
      destruct (m_special m =c "e") eqn:Ee.
      { apply char_eqb_eq in Ee.
        destruct (proj1 (board_at_Ok _ _ _) (He Ee)) as [Hv _]. board_reads. }
      destruct (m_special m =c "E") eqn:EE.
      { apply char_eqb_eq in EE.
        destruct (proj1 (board_at_Ok _ _ _) (HE EE)) as [Hv _]. board_reads. }
      board_reads.
Qed.

(** The opening move e2-e4. *)
Lemma perform_move_frame_witness :
  let m := mkMove 52 36 "P" "." NUL (-1) in
  exists pos1,
    perform_move start_position m = Ok pos1 /\
    board_at (m_board pos1) 52 = Ok "."%char /\
    m_to_move pos1 = flip_to_move (m_to_move start_position) /\
    m_prev_moves pos1 = m :: m_prev_moves start_position /\
    (m_special m = NUL -> board_at (m_board pos1) 36 = Ok "P"%char) /\
    (forall sq, sq <> 52 -> sq <> 36 ->
       m_special m = NUL \/ (sq <> 36 - 8 /\ sq <> 36 + 8) ->
       board_at (m_board pos1) sq = board_at (m_board start_position) sq).
Proof.
  intros m. eexists. split; [by_computation |].
  eapply (perform_move_frame start_position _ m).
  - exact wf_start_position.
  - by split.
  - by_computation.
Defined.

(** ** The legal moves *)

(** X11.  [get_possible_moves] gives the position back, and every move it
    returns is written for this board: its two squares are different squares
    of the board, [m_piece] is the piece standing on the first, [m_captured]
    is what stands on the second, and [m_last_enpassant] is the en-passant
    square of the position. *)
Theorem legal_moves_match_board (pos pos' : Position) (legal : list Move) :
  wf pos ->
  get_possible_moves pos = Ok (pos', legal) ->
  same_position pos' pos /\
  forall m, m ∈ legal ->
    0 <= m_from m < 64 /\ 0 <= m_to m < 64 /\ m_from m <> m_to m /\
    board_at (m_board pos) (m_from m) = Ok (m_piece m) /\
    m_piece m <> "."%char /\
    board_at (m_board pos) (m_to m) = Ok (m_captured m) /\
    m_last_enpassant m = m_en_passant pos.
Proof.
  intros Hwf Hget.
  destruct (legal_moves_ok _ _ _ Hwf Hget) as (Hall & _ & Hsame).
  split; [done |].
  intros m Hm.
  destruct (proj1 (Forall_forall _ _) Hall m Hm) as [Hp Hpr Hc Hd _ Hl].
  destruct (proj1 (board_at_Ok _ _ _) Hp) as [Hfrom _].
  destruct (proj1 (board_at_Ok _ _ _) Hc) as [Hto _].
  done.
Qed.

(** The twenty moves of the starting position. *)
Lemma legal_moves_match_board_witness :
  exists pos' legal,
    get_possible_moves start_position = Ok (pos', legal) /\
    length legal = 20%nat /\
    same_position pos' start_position /\
    forall m, m ∈ legal ->
      0 <= m_from m < 64 /\ 0 <= m_to m < 64 /\ m_from m <> m_to m /\
      board_at (m_board start_position) (m_from m) = Ok (m_piece m) /\
      m_piece m <> "."%char /\
      board_at (m_board start_position) (m_to m) = Ok (m_captured m) /\
      m_last_enpassant m = m_en_passant start_position.
Proof.
  eexists. eexists. split; [by_computation |]. split; [reflexivity |].
  eapply (legal_moves_match_board start_position).
  - exact wf_start_position.
  - by_computation.
Defined.

Section captures.
Variables (b : list ascii) (ep : Z) (piece : ascii) (square : Z).
Hypothesis Hep : forall t, board_at b ep = Ok t -> t = "."%char.

Lemma takes_enemy_push (result : list Move) (sq : Z) (t sp : ascii) :
  Forall (takes_enemy piece) result ->
  t = "."%char \/ is_upper t <> is_upper piece ->
  Forall (takes_enemy piece) (result ++ [mkMove square sq piece t sp ep]).
Proof.
  intros Hres Ht. apply Forall_app. split; [done |].
  apply Forall_singleton. by split.
Qed.

Lemma pawn_arrivals_take_enemy (sq : Z) (t : ascii) (target_row : Z) :
  t = "."%char \/ is_upper t <> is_upper piece ->
  Forall (takes_enemy piece) (pawn_arrivals square sq piece t ep target_row).
Proof.
  intros Ht. unfold pawn_arrivals.
  repeat case_match; simpl; repeat (constructor; [by split |]); constructor.
Qed.

Lemma step_moves_take_enemy (col row : Z) (offs : list (Z * Z))
    (ms : list Move) :
  step_moves b ep piece square col row offs = Ok ms ->
  Forall (takes_enemy piece) ms.
Proof.
  unfold step_moves. apply for_each_inv; [constructor |].
  intros cds s0 s1 _ Hs0 H.
  destruct (negb (are_valid_coords _ _)); [by simplify_eq |].
  bind_inv H as sq Esq. bind_inv H as t Et.
  destruct ((t =c ".") || negb (eqb (is_upper piece) (is_upper t))) eqn:Hc;
    [| by simplify_eq].
  simpl in H. simplify_eq. apply takes_enemy_push; [done |].
  apply orb_prop in Hc as [Hc | Hc].
  - left. by apply char_eqb_eq.
  - right. apply negb_true_iff, eqb_false_iff in Hc. congruence.
Qed.

Lemma ray_moves_take_enemy (fuel : nat) (cds curr : Z * Z)
    (result ms : list Move) :
  Forall (takes_enemy piece) result ->
  ray_moves fuel b ep piece square cds curr result = Ok ms ->
  Forall (takes_enemy piece) ms.
Proof.
  revert curr result. induction fuel as [|fuel IH]; intros curr result Hres H;
    simpl in H; [discriminate |].
  destruct (are_valid_coords _ _); [| by simplify_eq].
  bind_inv H as sq Esq. bind_inv H as t Et.
  destruct (negb (t =c ".") && eqb (is_upper piece) (is_upper t)) eqn:Hc;
    [by simplify_eq |].
  simpl in H.
  assert (Hnew : Forall (takes_enemy piece)
                   (result ++ [mkMove square sq piece t NUL ep])).
  { apply takes_enemy_push; [done |].
    apply andb_false_iff in Hc as [Hc | Hc].
    - left. apply negb_false_iff in Hc. by apply char_eqb_eq.
    - right. apply eqb_false_iff in Hc. congruence. }
  destruct (negb (t =c ".")); [by simplify_eq |].
  eapply IH; eauto.
Qed.

Lemma slide_moves_take_enemy (col row : Z) (dirs : list (Z * Z))
    (ms : list Move) :
  slide_moves b ep piece square col row dirs = Ok ms ->
  Forall (takes_enemy piece) ms.
Proof.
  unfold slide_moves. apply for_each_inv; [constructor |].
  intros cds s0 s1 _ Hs0 H. eapply ray_moves_take_enemy; eauto.
Qed.

Lemma pawn_moves_take_enemy (col row : Z) (ms : list Move) :
  pawn_moves b ep piece square col row = Ok ms ->
  Forall (takes_enemy piece) ms.
Proof.
  unfold pawn_moves. intros H.
  set (dir := if is_upper piece then -1 else 1) in *.
  bind_inv H as r1 E1.
  assert (Hr1 : Forall (takes_enemy piece) r1).
  { revert E1. apply for_each_inv; [constructor |].
    intros c_dir s0 s1 Hin Hs0 Hb.
    destruct (negb (are_valid_coords _ _)); [by simplify_eq |].
    bind_inv Hb as sq Esq. bind_inv Hb as t Et.
    destruct (negb (t =c ".") && negb (eqb (is_upper t) (is_upper piece)))
      eqn:Hc.
    - simplify_eq. apply Forall_app. split; [done |].
      apply pawn_arrivals_take_enemy.
      apply andb_prop in Hc as [_ Hc].
      right. by apply negb_true_iff, eqb_false_iff in Hc.
    - destruct (Z.eqb_spec sq ep) as [-> | Hne]; simplify_eq; [| done].
      apply takes_enemy_push; [done |]. left. by apply Hep. }
  bind_inv H as sq1 Esq1. bind_inv H as t1 Et1.
  bind_inv H as r2 E2.
  assert (Hr2 : Forall (takes_enemy piece) r2).
  { destruct (t1 =c ".") eqn:Ht1; [| by simplify_eq].
    simpl in E2. simplify_eq.
    apply Forall_app. split; [done |].
    apply pawn_arrivals_take_enemy. by left. }
  destruct (_ || _); [| by simplify_eq].
  simpl in H.
  destruct (t1 =c "."); [| by simplify_eq].
  bind_inv H as s2 Es2. bind_inv H as u2 Eu2.
  destruct (u2 =c ".") eqn:Hu2; [| by simplify_eq].
  simpl in H. simplify_eq.
  apply takes_enemy_push; [done | by left].
Qed.

Lemma find_pseudo_legal_moves_take_enemy (pos : Position) (ms : list Move) :
  m_board pos = b -> m_en_passant pos = ep ->
  find_pseudo_legal_moves pos piece square = Ok ms ->
  Forall (takes_enemy piece) ms.
Proof.
  intros Hb He. unfold find_pseudo_legal_moves. rewrite Hb, He.
  repeat case_match; intros Hms;
    eauto using pawn_moves_take_enemy, step_moves_take_enemy,
                slide_moves_take_enemy.
  simplify_eq. constructor.
Qed.
End captures.

(** X12.  When the en-passant square is absent or empty, every legal move
    is a move of a piece of the side to move, and what it takes is nothing
    or a piece of the other side: the engine never takes its own piece. *)
Theorem legal_moves_take_enemy (pos pos' : Position) (legal : list Move) :
  wf pos ->
  (forall t, board_at (m_board pos) (m_en_passant pos) = Ok t -> t = "."%char) ->
  get_possible_moves pos = Ok (pos', legal) ->
  forall m, m ∈ legal ->
    is_upper (m_piece m) = (m_to_move pos =c "w") /\
    (m_captured m = "."%char \/
     is_upper (m_captured m) <> is_upper (m_piece m)).
Proof.
  intros Hwf Hep Hget.
  destruct (get_possible_moves_spec _ _ _ Hwf Hget)
    as (pseudo & Hps & _ & -> & _).
  assert (Hall : Forall (fun m =>
            is_upper (m_piece m) = (m_to_move pos =c "w") /\
            (m_captured m = "."%char \/
             is_upper (m_captured m) <> is_upper (m_piece m))) pseudo).
  { revert Hps. unfold pseudo_legal_moves, pseudo_legal_moves_in.
    apply for_each_inv; [constructor |].
    intros [piece square] s0 s1 _ Hs0 H. simpl in H.
    destruct (eqb (is_upper piece) (m_to_move pos =c "w")) eqn:Hside;
      simpl in H; [| by simplify_eq].
    bind_inv H as moves E. simplify_eq.
    apply Forall_app. split; [done |].
    apply eqb_prop in Hside.
    eapply Forall_impl;
      [by eapply (find_pseudo_legal_moves_take_enemy _ _ _ _ Hep) |].
    intros m [-> Hcap]. by split. }
  intros m Hm. apply list_elem_of_filter in Hm as [_ Hm].
  by apply (proj1 (Forall_forall _ _) Hall).
Qed.

Lemma legal_moves_take_enemy_witness :
  exists pos' legal,
    get_possible_moves pinned_rook_position = Ok (pos', legal) /\
    forall m, m ∈ legal ->
      is_upper (m_piece m) = (m_to_move pinned_rook_position =c "w") /\
      (m_captured m = "."%char \/
       is_upper (m_captured m) <> is_upper (m_piece m)).
Proof.
  eexists. eexists. split; [by_computation |].
  eapply (legal_moves_take_enemy pinned_rook_position).
  - exact wf_pinned_rook_position.
  - intros t Ht. discriminate Ht.
  - by_computation.
Defined.

(** ** The FEN reader and the attack test *)

Lemma cells_from_squares (b : list ascii) :
  length b = 64%nat \/ (length b = 65%nat /\ b !! 64%nat = Some "."%char) ->
  cells_from 0 b = cells_from 0 (take 64 b).
Proof.
  intros [Hlen | [Hlen Hend]].
  - by rewrite take_ge by lia.
  - rewrite <- (take_drop 64 b) at 1.
    rewrite cells_from_app.
    assert (Hdrop : drop 64 b = ["."%char]).
    { apply list_eq. intros [|n].
      - by rewrite lookup_drop, Nat.add_0_r, Hend.
      - rewrite lookup_drop. simpl. apply lookup_ge_None_2. lia. }
    rewrite Hdrop. simpl. rewrite cell_empty.
    by rewrite !(right_id_L ∅ (⊎)).
Qed.

(** X17.  When the FEN reader returns on a text without the character '.',
    the 64 squares it wrote and the piece table agree: the table holds
    exactly the (piece, square) pairs the squares show; the history is empty
    and the en-passant square is -1 or a square of the board.  The board
    ends with its 64th square, or, when the last run of empty squares
    passes the end by one, with one more '.' in the cell behind it, where
    [m_board] had its terminating NUL. *)
Theorem fen_position_consistent (FEN : string) (pos : Position) :
  no_dot FEN ->
  Position_of_FEN FEN = Ok pos ->
  (length (m_board pos) = 64%nat \/
   (length (m_board pos) = 65%nat /\ m_board pos !! 64%nat = Some "."%char)) /\
  pieces_set (m_pieces pos) = board_entries (take 64 (m_board pos)) /\
  m_prev_moves pos = [] /\
  (m_en_passant pos = -1 \/ 0 <= m_en_passant pos < 64).
Proof.
  unfold Position_of_FEN. intros Hnd H.
  bind_inv H as [[rest b] ps] E.
  apply fen_board_agree in E as [Hlen Hag];
    [| done | done | lia | done | done].
  bind_inv H as r1 E1. bind_inv H as r2 E2. bind_inv H as r3 E3.
  bind_inv H as r4 E4. bind_inv H as r5 E5. bind_inv H as ep Eep.
  injection H as <-. cbn [m_board m_pieces m_prev_moves m_en_passant].
  split; [done |]. split.
  { unfold board_entries. by rewrite <- cells_from_squares. }
  split; [done |].
  destruct (peek r5 =c "-").
  - left. by injection Eep as <-.
  - right. unfold get_square_str in Eep.
    by apply get_square_Ok in Eep as (_ & _ & ?).
Qed.

(** A last rank of nine squares, [6K2]: the reader returns, and the cell
    behind the board holds '.'. *)
Lemma fen_position_consistent_witness :
  exists pos,
    Position_of_FEN "7k/8/8/8/8/8/8/6K2 w - - 0 1" = Ok pos /\
    length (m_board pos) = 65%nat /\
    (length (m_board pos) = 64%nat \/
     (length (m_board pos) = 65%nat /\
      m_board pos !! 64%nat = Some "."%char)) /\
    pieces_set (m_pieces pos) = board_entries (take 64 (m_board pos)) /\
    m_prev_moves pos = [] /\
    (m_en_passant pos = -1 \/ 0 <= m_en_passant pos < 64).
Proof.
  eexists. split; [by_computation |]. split; [by_computation |].
  apply (fen_position_consistent "7k/8/8/8/8/8/8/6K2 w - - 0 1");
    by_computation.
Defined.

(** X18.  The attack test stays on the board: whatever square and colour
    [square_hit] is asked about, also a square that is none, it reads only
    squares of the board, its ray loops end, and it answers. *)
Theorem square_hit_answers (pos : Position) (square : Z) (by_white : bool) :
  length (m_board pos) = 64%nat ->
  exists hit, square_hit pos square by_white = Ok hit.
Proof. apply square_hit_total. Qed.

Lemma square_hit_answers_witness :
  exists hit, square_hit start_position (-5) true = Ok hit.
Proof. apply (square_hit_answers start_position (-5) true). reflexivity. Defined.

(** ** Pieces on and off the board *)

Lemma get_piece_None (ps : slots) (c : ascii) (s : Z) :
  Some (c, s) ∉ ps -> get_piece ps c s = None.
Proof.
  intros Hno. unfold get_piece.
  destruct (list_find _ ps) as [[i x]|] eqn:Hf; [| done].
  apply list_find_Some in Hf as (Hi & -> & _).
  destruct Hno. by eapply list_elem_of_lookup_2.
Qed.

(** X20.  [perform_move] refuses a move whose pieces are not in the piece
    table: when the table has no entry for [m_piece] on [m_from], it throws
    "moving piece not found"; when it has one but the move says it takes a
    piece that has no entry on [m_to], it throws "taken piece not found". *)
Theorem perform_move_missing_piece (pos : Position) (m : Move) :
  (Some (m_piece m, m_from m) ∉ m_pieces pos ->
   perform_move pos m = Err (Thrown "moving piece not found")) /\
  (Some (m_piece m, m_from m) ∈ m_pieces pos ->
   m_captured m <> "."%char ->
   Some (m_captured m, m_to m) ∉ m_pieces pos ->
   perform_move pos m = Err (Thrown "taken piece not found")).
Proof.
  split.
  - intros Hno. unfold perform_move. by rewrite (get_piece_None _ _ _ Hno).
  - intros Hin Hcap Hno. unfold perform_move.
    destruct (get_piece_found (m_pieces pos) (m_piece m) (m_from m)) as [i ->].
    { by apply elem_of_pieces_set. }
    cbn [found_or_throw bind].
    apply char_eqb_neq in Hcap. rewrite Hcap. cbn [negb].
    by rewrite (get_piece_None _ _ _ Hno).
Qed.

Lemma size_pieces_set (ps : slots) :
  Z.of_nat (size (pieces_set ps)) = pieces_size ps.
Proof.
  unfold pieces_size, pieces_set, size, gmultiset_size.
  f_equal. apply Permutation_length, elements_list_to_set_disj.
Qed.

(** X21.  [perform_move] on a consistent position changes the number of
    entries of the piece table as the move says: one entry less for a taken
    piece, one entry less for an en-passant capture, and none otherwise (a
    promotion replaces the pawn's entry by the new piece's). *)
Theorem perform_move_piece_count (pos pos1 : Position) (m : Move) :
  wf pos ->
  move_ok (m_board pos) (m_last_enpassant m) m ->
  perform_move pos m = Ok pos1 ->
  pieces_size (m_pieces pos1) =
  pieces_size (m_pieces pos)
  - (if m_captured m =c "." then 0 else 1)
  - (if (m_special m =c "e") || (m_special m =c "E") then 1 else 0).
Proof.
  intros Hwf Hok Hperf.
  destruct (perform_move_inv _ _ _ Hwf Hok Hperf)
    as (Hs & Hb & _ & _ & _ & Hwf1).
  destruct Hwf as [Hlen Hag _]. destruct Hwf1 as [_ Hag1 _].
  pose proof (board_entries_after _ _ Hlen Hok Hs) as Heq.
  rewrite <- Hb, <- Hag1, <- Hag in Heq.
  apply (f_equal size) in Heq.
  rewrite !gmultiset_size_disj_union, !gmultiset_size_singleton in Heq.
  rewrite <- !size_pieces_set.
  assert (Hcell : size (cell (m_captured m) (m_to m)) =
                  if m_captured m =c "." then 0%nat else 1%nat).
  { unfold cell. destruct (m_captured m =c ".").
    - apply gmultiset_size_empty.
    - apply gmultiset_size_singleton. }
  assert (Hvic : size (en_passant_victim m) =
                 if (m_special m =c "e") || (m_special m =c "E")
                 then 1%nat else 0%nat).
  { unfold en_passant_victim. destruct (m_special m =c "e"); cbn [orb].
    - apply gmultiset_size_singleton.
    - destruct (m_special m =c "E").
      + apply gmultiset_size_singleton.
      + apply gmultiset_size_empty. }
  rewrite Hcell, Hvic in Heq.
  destruct (m_captured m =c "."), ((m_special m =c "e") || (m_special m =c "E"));
    lia.
Qed.

(** The rook takes the rook: four pieces before, three after. *)
Lemma perform_move_piece_count_witness :
  let m := mkMove 52 4 "R" "r" NUL (-1) in
  exists pos1,
    perform_move pinned_rook_position m = Ok pos1 /\
    pieces_size (m_pieces pos1) =
    pieces_size (m_pieces pinned_rook_position)
    - (if m_captured m =c "." then 0 else 1)
    - (if (m_special m =c "e") || (m_special m =c "E") then 1 else 0).
Proof.
  intros m. eexists. split; [by_computation |].
  eapply (perform_move_piece_count pinned_rook_position _ m).
  - exact wf_pinned_rook_position.
  - by split.
  - by_computation.
Defined.

(** ** The colours swapped *)

Lemma perform_move_history (pos pos1 : Position) (m : Move) :
  m_special m = NUL ->
  perform_move pos m = Ok pos1 ->
  m_prev_moves pos1 = m :: m_prev_moves pos.
Proof.
  intros Hsp H. unfold perform_move in H.
  bind_inv H as i Ei. bind_inv H as ps1 E1. bind_inv H as ps2 E2.
  bind_inv H as b1 Eb1. bind_inv H as b2 Eb2.
  rewrite Hsp, char_eqb_refl in H. simpl in H. by injection H as <-.
Qed.

(** X13.  Swapping the colours commutes with making and taking back a move
    that is no promotion and no en-passant capture: the move with its
    letters swapped, made on the swapped position, gives the swapped result
    (or the same error), and so does taking it back. *)
Theorem colour_swap_commutes_with_moves (pos : Position) (m : Move) :
  m_special m = NUL ->
  perform_move (swap_colors pos) (swap_move m) =
    res_map swap_colors (perform_move pos m) /\
  (forall pos1, perform_move pos m = Ok pos1 ->
     undo_move (swap_colors pos1) = res_map swap_colors (undo_move pos1)).
Proof.
  intros Hsp. split; [by apply perform_move_swap |].
  intros pos1 Hperf. apply undo_move_swap.
  intros m' prev Hhist.
  rewrite (perform_move_history _ _ _ Hsp Hperf) in Hhist.
  by injection Hhist as <- _.
Qed.

(** The knight move g1-f3, and the same move of a black knight on the
    swapped board. *)
Lemma colour_swap_commutes_with_moves_witness :
  let m := mkMove 62 45 "N" "." NUL (-1) in
  perform_move (swap_colors start_position) (swap_move m) =
    res_map swap_colors (perform_move start_position m) /\
  (forall pos1, perform_move start_position m = Ok pos1 ->
     undo_move (swap_colors pos1) = res_map swap_colors (undo_move pos1)).
Proof.
  intros m. apply (colour_swap_commutes_with_moves start_position m).
  reflexivity.
Defined.

Lemma square_hit_swap (pos : Position) (square : Z) (by_white : bool) :
  pawn_free pos ->
  square_hit (swap_colors pos) square (negb by_white) =
  square_hit pos square by_white.
Proof.
  intros [Hlen Hb _]. unfold square_hit. cbn [swap_colors m_board].
  by apply square_hit_board_swap.
Qed.

(** X14.  On a board without pawns the attack test does not know the
    colours apart: a square is hit by White exactly when it is hit by Black
    on the board with the colours swapped. *)
Theorem square_hit_colour_swap (pos : Position) (square : Z)
    (by_white : bool) :
  pawn_free pos ->
  square_hit (swap_colors pos) square (negb by_white) =
  square_hit pos square by_white.
Proof. apply square_hit_swap. Qed.

Lemma pawn_free_pinned_rook_position : pawn_free pinned_rook_position.
Proof.
  split.
  - reflexivity.
  - apply (bool_decide_unpack _). vm_compute. exact I.
  - unfold pinned_rook_position. cbn [m_pieces].
    repeat (constructor; [intros e [= <-]; reflexivity |]). constructor.
Defined.

(** The white king on e1 is not hit by Black; swapped, the black king on e1
    is not hit by White. *)
Lemma square_hit_colour_swap_witness :
  square_hit (swap_colors pinned_rook_position) 60 (negb false) =
  square_hit pinned_rook_position 60 false.
Proof.
  apply (square_hit_colour_swap pinned_rook_position 60 false).
  exact pawn_free_pinned_rook_position.
Defined.

(** *** The legal moves of the swapped position *)

Lemma find_pseudo_legal_moves_swap (pos : Position) (piece : ascii)
    (square : Z) :
  pawn_free pos -> officer piece = true ->
  find_pseudo_legal_moves (swap_colors pos) (swap_case piece) square =
    res_map (fmap swap_move) (find_pseudo_legal_moves pos piece square) /\
  (forall ms, find_pseudo_legal_moves pos piece square = Ok ms ->
              Forall officer_move ms).
Proof.
  intros [Hlen Hb _] Hpiece. unfold find_pseudo_legal_moves.
  cbn [swap_colors m_board m_en_passant].
  rewrite tolower_swap_case.
  rewrite (officer_not_pawn piece)
    by (unfold officer_or_empty; rewrite Hpiece; apply orb_true_r).
  repeat case_match;
    first [ by apply step_moves_swap
          | by apply slide_moves_swap
          | split; [done | intros ? [= <-]; constructor] ].
Qed.

Lemma pseudo_legal_moves_swap (pos : Position) :
  pawn_free pos ->
  pseudo_legal_moves (swap_colors pos) =
    res_map (fmap swap_move) (pseudo_legal_moves pos) /\
  (forall ms, pseudo_legal_moves pos = Ok ms -> Forall officer_move ms).
Proof.
  intros Hfree. pose proof Hfree as [_ _ Hps].
  unfold pseudo_legal_moves, pseudo_legal_moves_in. cbn [swap_colors m_pieces m_to_move].
  apply (for_each_swap swap_entry (fmap swap_move) (Forall officer_move)
           (live (m_pieces pos)));
    [apply live_swap | done | constructor |].
  intros [piece square] result Hin Hres.
  assert (Hpiece : officer piece = true).
  { unfold live in Hin. apply list_elem_of_omap in Hin as (o & Ho & Hid).
    apply (proj1 (Forall_forall _ _) Hps o Ho (piece, square)).
    by destruct o; simplify_eq. }
  cbn [swap_entry fst snd].
  rewrite (officer_upper piece Hpiece), flip_to_move_white, eqb_negb.
  destruct (negb (eqb _ _)); [split; [done | by intros ? [= <-]] |].
  destruct (find_pseudo_legal_moves_swap pos piece square Hfree Hpiece)
    as [Heq Hinv].
  rewrite Heq.
  destruct (find_pseudo_legal_moves pos piece square) as [moves|];
    [| by split].
  cbn [bind res_map]. split; [by rewrite fmap_app |].
  intros ? [= <-]. apply Forall_app. split; [done | by apply Hinv].
Qed.

Lemma Forall_insert_slot (P : option entry -> Prop) (ps : slots) (i : nat)
    (o : option entry) :
  Forall P ps -> P o -> Forall P (<[i := o]> ps).
Proof. intros Hps Ho. by apply Forall_insert. Qed.

Lemma pawn_free_perform (pos pos1 : Position) (m : Move) :
  pawn_free pos -> officer_move m ->
  perform_move pos m = Ok pos1 ->
  pawn_free pos1.
Proof.
  intros [Hlen Hb Hps] [Hpiece Hcap Hsp] H. unfold perform_move in H.
  bind_inv H as i Ei. bind_inv H as ps1 E1.
  assert (Hps1 : Forall (fun o : option entry =>
            forall e, o = Some e -> officer (fst e) = true) ps1).
  { destruct (negb (m_captured m =c ".")); [| by simplify_eq].
    bind_inv E1 as j Ej. apply pieces_erase_Ok in E1 as (e & _ & ->).
    by apply Forall_insert_slot. }
  bind_inv H as ps2 E2. apply set_second_Ok in E2 as (e & He & ->).
  bind_inv H as b1 Eb1. apply board_set_Ok in Eb1 as [_ ->]; [| done].
  bind_inv H as b2 Eb2.
  apply board_set_Ok in Eb2 as [_ ->]; [| by rewrite put_length].
  rewrite Hsp, char_eqb_refl in H. simpl in H. injection H as <-.
  split; cbn [m_board m_pieces].
  - by rewrite !put_length.
  - unfold put. apply Forall_insert; [by apply Forall_insert |].
    unfold officer_or_empty. rewrite Hpiece. apply orb_true_r.
  - apply Forall_insert_slot; [done |].
    intros e' [= <-]. cbn [fst].
    apply (proj1 (Forall_forall _ _) Hps1 (Some e));
      [by eapply list_elem_of_lookup_2 | done].
Qed.

Lemma pawn_free_undo (pos pos1 : Position) (m : Move) (prev : list Move) :
  pawn_free pos -> m_prev_moves pos = m :: prev -> officer_move m ->
  undo_move pos = Ok pos1 ->
  pawn_free pos1.
Proof.
  intros [Hlen Hb Hps] Hhist [Hpiece Hcap Hsp] H. unfold undo_move in H.
  rewrite Hhist in H.
  bind_inv H as c Ec. bind_inv H as i Ei.
  set (ps1 := if negb (m_captured m =c ".")
              then pieces_insert (m_captured m, m_to m) (m_pieces pos)
              else m_pieces pos) in *.
  assert (Hps1 : Forall (fun o : option entry =>
            forall e, o = Some e -> officer (fst e) = true) ps1).
  { unfold ps1. destruct (m_captured m =c ".") eqn:Hdot; [done |].
    cbn [negb]. unfold pieces_insert. apply Forall_app. split; [done |].
    apply Forall_singleton. intros e [= <-]. cbn [fst].
    destruct (officer_or_empty_cases _ Hcap) as [Hc | Hc]; [| done].
    rewrite Hc in Hdot. discriminate. }
  bind_inv H as ps2 E2. apply set_second_Ok in E2 as (e & He & ->).
  bind_inv H as b1 Eb1. apply board_set_Ok in Eb1 as [_ ->]; [| done].
  bind_inv H as b2 Eb2.
  apply board_set_Ok in Eb2 as [_ ->]; [| by rewrite put_length].
  rewrite Hsp, char_eqb_refl in H. simpl in H. injection H as <-.
  split; cbn [m_board m_pieces].
  - by rewrite !put_length.
  - unfold put. apply Forall_insert; [apply Forall_insert; [done |] | done].
    unfold officer_or_empty. rewrite Hpiece. apply orb_true_r.
  - apply Forall_insert_slot; [done |].
    intros e' [= <-]. cbn [fst].
    apply (proj1 (Forall_forall _ _) Hps1 (Some e));
      [by eapply list_elem_of_lookup_2 | done].
Qed.

Lemma king_not_hit_swap (king : option nat) (pos : Position) :
  pawn_free pos ->
  king_not_hit king (swap_colors pos) = king_not_hit king pos.
Proof.
  intros [Hlen Hb Hps]. unfold king_not_hit.
  destruct king as [it|]; [| by cbn [bind]].
  cbn [swap_colors m_pieces]. rewrite deref_swap.
  destruct (deref (m_pieces pos) it) as [k|] eqn:Hk;
    cbn [res_map bind swap_entry fst snd]; [| reflexivity].
  assert (Hoff : officer (fst k) = true).
  { apply deref_Ok in Hk.
    apply (proj1 (Forall_forall _ _) Hps (Some k));
      [by eapply list_elem_of_lookup_2 | done]. }
  rewrite (officer_upper _ Hoff). unfold square_hit.
  cbn [m_board].
  by rewrite (square_hit_board_swap _ _ (negb (is_upper (fst k))) Hlen Hb).
Qed.

Lemma try_move_swap (king : option nat) (move : Move) (pos : Position)
    (legal : list Move) :
  pawn_free pos -> officer_move move ->
  try_move king (swap_move move) (swap_moves (pos, legal)) =
    res_map swap_moves (try_move king move (pos, legal)) /\
  (forall st1, try_move king move (pos, legal) = Ok st1 ->
               pawn_free (fst st1)).
Proof.
  intros Hfree Hmove. pose proof Hmove as [_ _ Hsp].
  unfold try_move, swap_moves. cbn [fst snd].
  rewrite (perform_move_swap _ _ Hsp).
  destruct (perform_move pos move) as [pos1|] eqn:Eperf;
    cbn [res_map bind]; [| split; [reflexivity | discriminate]].
  pose proof (pawn_free_perform _ _ _ Hfree Hmove Eperf) as Hfree1.
  rewrite (king_not_hit_swap _ _ Hfree1).
  destruct (king_not_hit king pos1) as [safe|];
    cbn [bind res_map]; [| split; [reflexivity | discriminate]].
  pose proof (perform_move_history _ _ _ Hsp Eperf) as Hhist.
  rewrite undo_move_swap
    by (intros m' prev Hm'; rewrite Hhist in Hm'; by injection Hm' as <- _).
  destruct (undo_move pos1) as [pos2|] eqn:Eundo;
    cbn [res_map bind fst snd]; [| split; [reflexivity | discriminate]].
  split.
  - destruct safe; [by rewrite fmap_app | done].
  - intros st1 [= <-]. cbn [fst].
    by eapply (pawn_free_undo _ _ _ _ Hfree1 Hhist Hmove).
Qed.

Lemma get_possible_moves_swap (pos : Position) :
  pawn_free pos ->
  get_possible_moves (swap_colors pos) =
    res_map swap_moves (get_possible_moves pos) /\
  (forall st, get_possible_moves pos = Ok st -> pawn_free (fst st)).
Proof.
  intros Hfree. unfold get_possible_moves, get_possible_moves_in.
  fold (pseudo_legal_moves (swap_colors pos)). fold (pseudo_legal_moves pos).
  destruct (pseudo_legal_moves_swap pos Hfree) as [Heq Hall].
  rewrite Heq.
  destruct (pseudo_legal_moves pos) as [pseudo|];
    cbn [res_map bind]; [| split; [reflexivity | discriminate]].
  specialize (Hall pseudo eq_refl).
  cbn [swap_colors m_to_move m_pieces].
  assert (Hking :
    pieces_find (if flip_to_move (m_to_move pos) =c "w" then "K" else "k")%char
                (swap_slots (m_pieces pos)) =
    pieces_find (if m_to_move pos =c "w" then "K" else "k")%char
                (m_pieces pos)).
  { rewrite flip_to_move_white.
    destruct (m_to_move pos =c "w"); cbn [negb].
    - exact (pieces_find_swap (m_pieces pos) "K").
    - exact (pieces_find_swap (m_pieces pos) "k"). }
  rewrite Hking.
  apply (for_each_swap swap_move swap_moves (fun st => pawn_free (fst st))
           pseudo); [done | done | done |].
  intros m [p legal] Hm Hp.
  apply try_move_swap; [done |].
  by apply (proj1 (Forall_forall _ _) Hall).
Qed.

(** ** The legal moves and the iteration order of the piece table *)


Section collect.
Context {A B : Type}.
Variable g : A -> res (list B).



End collect.













(** *** The evaluation of a leaf *)

Lemma int_add_neg (r v : Z) :
  int_add (int_neg r) (- v) = int_neg (int_add r v).
Proof.
  unfold int_add, int_neg, wrap32. f_equal.
  Z.to_euclidean_division_equations. lia.
Qed.

Lemma piece_values_swap (c : ascii) :
  officer c = true ->
  Engine.piece_values (swap_case c) = Z.opp <$> Engine.piece_values c.
Proof. intros H. officer_cases H; reflexivity. Qed.

Lemma material_swap (pos : Position) :
  pawn_free pos ->
  Engine.material (swap_colors pos) = res_map int_neg (Engine.material pos).
Proof.
  intros [_ _ Hps]. unfold Engine.material. cbn [swap_colors m_pieces].
  eapply proj1.
  apply (for_each_swap swap_entry int_neg (fun _ => True)
           (live (m_pieces pos)));
    [apply live_swap | reflexivity | done |].
  intros [piece square] result Hin _. split; [| done].
  assert (Hpiece : officer piece = true).
  { unfold live in Hin. apply list_elem_of_omap in Hin as (o & Ho & Hid).
    apply (proj1 (Forall_forall _ _) Hps o Ho (piece, square)).
    by destruct o; simplify_eq. }
  cbn [swap_entry fst snd]. rewrite (piece_values_swap _ Hpiece).
  destruct (Engine.piece_values piece) as [v|]; [| done].
  cbn [fmap option_fmap option_map res_map]. by rewrite int_add_neg.
Qed.

Lemma king_find_swap (pos : Position) :
  pieces_find (if m_to_move (swap_colors pos) =c "w" then "K" else "k")%char
              (m_pieces (swap_colors pos)) =
  pieces_find (if m_to_move pos =c "w" then "K" else "k")%char (m_pieces pos).
Proof.
  cbn [swap_colors m_to_move m_pieces]. rewrite flip_to_move_white.
  destruct (m_to_move pos =c "w"); cbn [negb].
  - exact (pieces_find_swap (m_pieces pos) "K").
  - exact (pieces_find_swap (m_pieces pos) "k").
Qed.

Section leaf.
Context `{StdHash} `{StdSort}.

(** X16.  Without pawns the evaluation of a leaf changes sign with the
    colours: when no cache entry answers, [evaluate] at a depth of 0 or
    less returns, for the position with the colours swapped, the negated
    value ([-v] as the code computes it on [int]), whether the position is
    a mate, a stalemate, bare kings or counted by material. *)
Theorem leaf_evaluation_colour_swap (pos : Position) (d : Z)
    (cache cache' : Engine.Cache) (a b a' b' v : Z) (p : Position)
    (c : Engine.Cache) :
  pawn_free pos -> d <= 0 ->
  cache !! get_hash pos = None ->
  cache' !! get_hash (swap_colors pos) = None ->
  Engine.evaluate pos d cache a b = Ok (v, p, c) ->
  exists c',
    Engine.evaluate (swap_colors pos) d cache' a' b'
    = Ok (int_neg v, swap_colors p, c').
Proof.
  intros Hfree Hd Hmiss Hmiss' Hev.
  unfold Engine.evaluate in *.
  replace (Z.to_nat d) with 0%nat in * by lia.
  cbn [Engine.evaluate_rec] in *.
  rewrite Hmiss in Hev. rewrite Hmiss'. cbn [Engine.cache_hit] in *.
  destruct (get_possible_moves_swap pos Hfree) as [Heq Hinv]. rewrite Heq.
  bind_inv Hev as [pos1 moves] Eg.
  specialize (Hinv _ eq_refl). cbn [fst] in Hinv.
  cbn [res_map bind swap_moves fst snd].
  rewrite length_fmap, king_find_swap, (material_swap _ Hinv).
  change (m_to_move (swap_colors pos1))
    with (flip_to_move (m_to_move pos1)).
  change (m_pieces (swap_colors pos1)) with (swap_slots (m_pieces pos1)).
  rewrite pieces_size_swap, flip_to_move_white.
  destruct (length moves =? 0)%nat.
  - destruct (pieces_find _ (m_pieces pos1)) as [it|];
      [| discriminate Hev].
    rewrite deref_swap.
    destruct (deref (m_pieces pos1) it) as [k|];
      cbn [bind res_map] in *; [| discriminate Hev].
    cbn [swap_entry snd].
    rewrite (square_hit_swap pos1 (snd k) _ Hinv).
    destruct (square_hit pos1 (snd k) _) as [hit|];
      cbn [bind] in *; [| discriminate Hev].
    destruct hit; cbn [bind] in *; injection Hev as <- <- <-;
      destruct (m_to_move pos1 =c "w"); eexists; reflexivity.
  - destruct (pieces_size (m_pieces pos1) <=? 2); cbn [bind] in *.
    + injection Hev as <- <- <-. eexists. reflexivity.
    + destruct (d <=? 0); [| discriminate Hev].
      destruct (Engine.material pos1) as [result|];
        cbn [bind res_map] in *; [| discriminate Hev].
      injection Hev as <- <- <-. eexists. reflexivity.
Qed.
End leaf.

Lemma pawn_free_rook_ending_position : pawn_free rook_ending_position.
Proof.
  split.
  - reflexivity.
  - apply (bool_decide_unpack _). vm_compute. exact I.
  - unfold rook_ending_position. cbn [m_pieces].
    repeat (constructor; [intros e [= <-]; reflexivity |]). constructor.
Defined.

(** King and rook against king: 5 for White's rook, -5 for Black's. *)
Lemma leaf_evaluation_colour_swap_witness :
  exists p c,
    @Engine.evaluate demo_hash demo_sort rook_ending_position 0 ∅
      (-1000000) 1000000 = Ok (5, p, c) /\
    exists c',
      @Engine.evaluate demo_hash demo_sort (swap_colors rook_ending_position)
        0 ∅ (-1000000) 1000000 = Ok (int_neg 5, swap_colors p, c').
Proof.
  eexists. eexists. split; [by_computation |].
  eapply (@leaf_evaluation_colour_swap demo_hash demo_sort
            rook_ending_position 0 ∅ ∅ (-1000000) 1000000
            (-1000000) 1000000 5).
  - exact pawn_free_rook_ending_position.
  - lia.
  - apply lookup_empty.
  - apply lookup_empty.
  - by_computation.
Defined.

(** ** The attack test and the rules *)

Section attack.
Variable b : list ascii.
Hypothesis Hlen : length b = 64%nat.

Lemma stands_read (col row : Z) (c : ascii) :
  are_valid_coords col row = true ->
  exists p, board_at b (col + 8 * row) = Ok p /\
            (stands b col row c <-> c = p).
Proof.
  intros Hv.
  destruct (board_at_valid b _ _ _ Hlen (get_square_valid _ _ Hv)) as [p Hp].
  exists p. split; [done |]. unfold stands. rewrite Hp. split.
  - by intros [_ [= ->]].
  - by intros ->.
Qed.

Lemma offset_hit_true (col row : Z) (by_white : bool) (kind : ascii)
    (offs : list (Z * Z)) :
  offset_hit b col row by_white kind offs = Ok true <->
  step_attack b col row by_white kind offs.
Proof.
  induction offs as [|cds offs IH].
  - cbn [offset_hit]. split; [discriminate |].
    intros (cds & c & Hin & _). by apply elem_of_nil in Hin.
  - cbn [offset_hit].
    destruct (are_valid_coords (col + fst cds) (row + snd cds)) eqn:Hv;
      cbn [negb].
    + rewrite (get_square_valid _ _ Hv). cbn [bind].
      destruct (stands_read _ _ "." Hv) as (p & Hp & _).
      rewrite Hp. cbn [bind].
      destruct ((tolower p =c kind) && eqb by_white (is_upper p)) eqn:Htest.
      * split; [intros _ | done].
        apply andb_prop in Htest as [Hk Hc].
        exists cds, p. split; [by left |]. split; [by split |].
        split; [by apply char_eqb_eq |]. symmetry. by apply eqb_prop.
      * rewrite IH. split.
        -- intros (cds' & c & Hin & Hrest). exists cds', c.
           split; [by right | done].
        -- intros (cds' & c & Hin & Hst & Hk & Hc).
           apply elem_of_cons in Hin as [-> | Hin].
           ++ destruct Hst as [_ Hst].
              rewrite Hp in Hst. injection Hst as <-.
              apply andb_false_iff in Htest as [Hf | Hf].
              ** apply char_eqb_neq in Hf. done.
              ** rewrite Hc in Hf. by destruct by_white.
           ++ by exists cds', c.
    + rewrite IH. split.
      * intros (cds' & c & Hin & Hrest). exists cds', c.
        split; [by right | done].
      * intros (cds' & c & Hin & Hst & Hrest).
        apply elem_of_cons in Hin as [-> | Hin];
          [destruct Hst; congruence |].
        by exists cds', c.
Qed.

Lemma stands_at (col row col' row' : Z) (c : ascii) :
  col' = col -> row' = row -> stands b col row c -> stands b col' row' c.
Proof. by intros -> ->. Qed.

Lemma ray_hit_true (by_white : bool) (k1 k2 : ascii) (cds : Z * Z)
    (fuel : nat) (curr : Z * Z) :
  ray_hit fuel b by_white k1 k2 cds curr = Ok true <->
  exists n c,
    0 <= n < Z.of_nat fuel /\
    (forall j, 0 <= j < n ->
       stands b (fst curr + j * fst cds) (snd curr + j * snd cds) ".") /\
    stands b (fst curr + n * fst cds) (snd curr + n * snd cds) c /\
    c <> "."%char /\ is_upper c = by_white /\
    (tolower c = k1 \/ tolower c = k2).
Proof.
  revert curr. induction fuel as [|fuel IH]; intros curr.
  - cbn [ray_hit]. split; [discriminate |]. intros (n & c & Hn & _). lia.
  - cbn [ray_hit].
    assert (Hfirst : forall n c,
      (forall j, 0 <= j < n ->
         stands b (fst curr + j * fst cds) (snd curr + j * snd cds) ".") ->
      stands b (fst curr + n * fst cds) (snd curr + n * snd cds) c ->
      0 <= n ->
      exists p, stands b (fst curr) (snd curr) p /\
                (n = 0 -> p = c) /\ (0 < n -> p = "."%char)).
    { intros n c Hbefore Hat Hn.
      destruct (decide (n = 0)) as [-> | Hne].
      - exists c. split; [| split; [done | lia]].
        eapply stands_at; [| | exact Hat]; lia.
      - exists "."%char. split; [| split; [lia | done]].
        eapply stands_at; [| | apply (Hbefore 0)]; lia. }
    destruct (are_valid_coords (fst curr) (snd curr)) eqn:Hv.
    + rewrite (get_square_valid _ _ Hv). cbn [bind].
      destruct (stands_read _ _ "." Hv) as (p & Hp & _).
      rewrite Hp. cbn [bind].
      assert (Hstands : forall q, stands b (fst curr) (snd curr) q -> q = p).
      { intros q [_ Hq]. rewrite Hp in Hq. by injection Hq. }
      destruct (p =c ".") eqn:Hdot; cbn [negb].
      * apply char_eqb_eq in Hdot. subst p. rewrite IH. cbn [fst snd]. split.
        -- intros (n & c & Hn & Hbefore & Hat & Hrest).
           exists (n + 1), c. split; [lia |]. split; [| split; [| done]].
           ++ intros j Hj. destruct (decide (j = 0)) as [-> | Hne].
              ** eapply stands_at; [| | by split]; lia.
              ** eapply stands_at; [| | apply (Hbefore (j - 1))]; lia.
           ++ eapply stands_at; [| | exact Hat]; lia.
        -- intros (n & c & Hn & Hbefore & Hat & Hreal & Hrest).
           destruct (Hfirst n c Hbefore Hat ltac:(lia)) as (q & Hq & H0 & _).
           apply Hstands in Hq. subst q.
           assert (n <> 0) by (intros Hz; specialize (H0 Hz); congruence).
           exists (n - 1), c. split; [lia |]. split; [| split; [| done]].
           ++ intros j Hj.
              eapply stands_at; [| | apply (Hbefore (j + 1))]; lia.
           ++ eapply stands_at; [| | exact Hat]; lia.
      * apply char_eqb_neq in Hdot.
        destruct (eqb by_white (is_upper p) &&
                  ((tolower p =c k1) || (tolower p =c k2))) eqn:Htest.
        -- split; [intros _ | done].
           apply andb_prop in Htest as [Hc Hk].
           exists 0, p. split; [lia |]. split; [intros; lia |].
           split; [eapply stands_at; [| | by split]; lia |].
           split; [done |]. split; [symmetry; by apply eqb_prop |].
           apply orb_prop in Hk as [Hk | Hk]; apply char_eqb_eq in Hk; auto.
        -- split; [discriminate |].
           intros (n & c & Hn & Hbefore & Hat & Hreal & Hc & Hk).
           destruct (Hfirst n c Hbefore Hat ltac:(lia)) as (q & Hq & H0 & H1).
           apply Hstands in Hq. subst q.
           destruct (decide (n = 0)) as [Hz | Hnz].
           ++ specialize (H0 Hz). subst c.
              apply andb_false_iff in Htest as [Hf | Hf].
              ** rewrite Hc in Hf. by destruct by_white.
              ** apply orb_false_iff in Hf as [Hf1 Hf2].
                 apply char_eqb_neq in Hf1. apply char_eqb_neq in Hf2.
                 by destruct Hk.
           ++ exfalso. apply Hdot, H1. lia.
    + split; [discriminate |].
      intros (n & c & Hn & Hbefore & Hat & _).
      destruct (Hfirst n c Hbefore Hat ltac:(lia)) as (q & [Hq _] & _).
      congruence.
Qed.

Lemma ray_within_board (col row : Z) (cds : Z * Z) (n : Z) :
  unit_dir cds -> 1 <= n ->
  are_valid_coords (col + fst cds) (row + snd cds) = true ->
  are_valid_coords (col + n * fst cds) (row + n * snd cds) = true ->
  n <= 8.
Proof.
  destruct cds as [dx dy]. cbn [fst snd].
  intros (Hx & Hy & Hnz) Hn H1%are_valid_coords_spec Hv%are_valid_coords_spec.
  cbn [fst snd] in Hx, Hy.
  assert (Hd : dx <> 0 \/ dy <> 0)
    by (destruct (decide (dx = 0)); [right; congruence | by left]).
  assert (Hdx : dx = -1 \/ dx = 0 \/ dx = 1) by lia.
  assert (Hdy : dy = -1 \/ dy = 0 \/ dy = 1) by lia.
  destruct Hdx as [-> | [-> | ->]], Hdy as [-> | [-> | ->]]; lia.
Qed.

Lemma ray_hit_from (col row : Z) (by_white : bool) (k1 k2 : ascii)
    (cds : Z * Z) :
  unit_dir cds ->
  ray_hit 9 b by_white k1 k2 cds (col + fst cds, row + snd cds) = Ok true <->
  ray_attack b col row by_white k1 k2 [cds].
Proof.
  intros Hunit. rewrite ray_hit_true. cbn [fst snd]. split.
  - intros (n & c & Hn & Hbefore & Hat & Hrest).
    exists cds, (n + 1), c. split; [by left |]. split; [lia |].
    split; [| split; [| done]].
    + intros j Hj. eapply stands_at; [| | apply (Hbefore (j - 1))]; lia.
    + eapply stands_at; [| | exact Hat]; lia.
  - intros (cds' & n & c & Hin & Hn & Hbefore & Hat & Hrest).
    apply list_elem_of_singleton in Hin. subst cds'.
    assert (Hfirst : are_valid_coords (col + fst cds) (row + snd cds) = true).
    { destruct (decide (n = 1)) as [-> | Hne].
      - destruct Hat as [Hv _]. by rewrite !Z.mul_1_l in Hv.
      - destruct (Hbefore 1 ltac:(lia)) as [Hv _]. by rewrite !Z.mul_1_l in Hv. }
    pose proof (ray_within_board col row cds n Hunit Hn Hfirst (proj1 Hat)).
    exists (n - 1), c. split; [lia |]. split; [| split; [| done]].
    + intros j Hj. eapply stands_at; [| | apply (Hbefore (j + 1))]; lia.
    + eapply stands_at; [| | exact Hat]; lia.
Qed.

Lemma ray_attack_cons (col row : Z) (by_white : bool) (k1 k2 : ascii)
    (cds : Z * Z) (dirs : list (Z * Z)) :
  ray_attack b col row by_white k1 k2 (cds :: dirs) <->
  ray_attack b col row by_white k1 k2 [cds] \/
  ray_attack b col row by_white k1 k2 dirs.
Proof.
  unfold ray_attack. split.
  - intros (cds' & n & c & Hin & Hrest).
    apply elem_of_cons in Hin as [-> | Hin].
    + left. exists cds, n, c. split; [by left | done].
    + right. by exists cds', n, c.
  - intros [(cds' & n & c & Hin & Hrest) | (cds' & n & c & Hin & Hrest)].
    + apply list_elem_of_singleton in Hin. subst.
      exists cds, n, c. split; [by left | done].
    + exists cds', n, c. split; [by right | done].
Qed.

Lemma rays_hit_true (col row : Z) (by_white : bool) (k1 k2 : ascii)
    (dirs : list (Z * Z)) :
  Forall unit_dir dirs ->
  rays_hit b col row by_white k1 k2 dirs = Ok true <->
  ray_attack b col row by_white k1 k2 dirs.
Proof.
  intros Hdirs. induction Hdirs as [|cds dirs Hu _ IH].
  - cbn [rays_hit]. split; [discriminate |].
    intros (cds & n & c & Hin & _). by apply elem_of_nil in Hin.
  - cbn [rays_hit]. rewrite ray_attack_cons, <- (ray_hit_from _ _ _ _ _ _ Hu).
    destruct (ray_hit_unit b by_white k1 k2 cds col row Hlen Hu) as [h Eh].
    rewrite Eh. cbn [bind]. destruct h.
    + split; [by left | done].
    + rewrite IH. split; [by right |]. by intros [? | ?].
Qed.
End attack.

(** X23.  [square_hit] answers [true] exactly when, by the rules, a piece
    of the asked colour attacks the square: a knight a knight step away, a
    pawn on one of the two squares it captures from, a king next to the
    square, or a rook, bishop or queen with nothing between it and the
    square along its line. *)
Theorem square_hit_iff_attacked (pos : Position) (square : Z)
    (by_white : bool) :
  length (m_board pos) = 64%nat ->
  square_hit pos square by_white = Ok true <->
  attacked (m_board pos) square by_white.
Proof.
  intros Hlen. unfold square_hit, square_hit_board, attacked.
  set (b := m_board pos) in *.
  set (col := int_rem square 8). set (row := int_div square 8).
  set (pawn_dirs := if by_white then [(1, 1); (-1, 1)]
                    else [(1, -1); (-1, -1)]).
  rewrite <- !(offset_hit_true b Hlen).
  rewrite <- (rays_hit_true b Hlen _ _ _ _ _ _ rook_dirs_unit).
  rewrite <- (rays_hit_true b Hlen _ _ _ _ _ _ bishop_dirs_unit).
  destruct (offset_hit_total b col row by_white "n" knight_offsets Hlen)
    as [h1 ->].
  destruct (offset_hit_total b col row by_white "p" pawn_dirs Hlen)
    as [h2 ->].
  destruct (offset_hit_total b col row by_white "k" king_offsets Hlen)
    as [h3 ->].
  destruct (rays_hit_total b col row by_white "r" "q" rook_dirs Hlen
              rook_dirs_unit) as [h4 ->].
  destruct (rays_hit_total b col row by_white "b" "q" bishop_dirs Hlen
              bishop_dirs_unit) as [h5 ->].
  cbn [bind].
  destruct h1, h2, h3, h4, h5; cbn [bind]; split; intros Hh;
    try done; try tauto; intuition discriminate.
Qed.

(** The white rook on e2 is attacked by the black rook on e8 along the
    open file. *)
Lemma square_hit_iff_attacked_witness :
  square_hit pinned_rook_position 52 false = Ok true <->
  attacked (m_board pinned_rook_position) 52 false.
Proof.
  apply (square_hit_iff_attacked pinned_rook_position 52 false). reflexivity.
Defined.

(** ** The position built from piece lists *)

Lemma place_piece_Ok (white : bool) (s : string) (b b1 : list ascii)
    (ps ps1 : slots) :
  length b = 64%nat ->
  place_piece white s (b, ps) = Ok (b1, ps1) ->
  exists c sq, 0 <= sq < 64 /\ b1 = put sq c b /\ ps1 = ps ++ [Some (c, sq)].
Proof.
  intros Hlen H. unfold place_piece in H.
  destruct (String.length s =? 2)%nat.
  - bind_inv H as sq Esq. bind_inv H as b' Eb. injection H as <- <-.
    apply board_set_Ok in Eb as [Hsq ->]; [| done]. by eexists _, _.
  - bind_inv H as sq Esq. bind_inv H as b' Eb. injection H as <- <-.
    apply board_set_Ok in Eb as [Hsq ->]; [| done]. by eexists _, _.
Qed.

Lemma place_pieces_prefix (white : bool) (l : list string) :
  forall b ps b' ps',
  length b = 64%nat ->
  for_each l (b, ps) (place_piece white) = Ok (b', ps') ->
  length b' = 64%nat /\ exists more, ps' = ps ++ more.
Proof.
  induction l as [|s l IH]; intros b ps b' ps' Hlen H; simpl in H.
  - injection H as <- <-. split; [done |]. exists []. by rewrite app_nil_r.
  - bind_inv H as [b1 ps1] E1.
    apply place_piece_Ok in E1 as (c & sq & Hsq & -> & ->); [| done].
    apply IH in H as [Hlen' [more ->]]; [| by rewrite put_length].
    split; [done |]. exists (Some (c, sq) :: more). by rewrite <- app_assoc.
Qed.

Lemma place_pieces_agree (white : bool) (l : list string) :
  forall b ps b' ps',
  length b = 64%nat ->
  pieces_set ps = board_entries b ->
  for_each l (b, ps) (place_piece white) = Ok (b', ps') ->
  NoDup (snd <$> live ps') ->
  (forall e, e ∈ live ps' -> fst e <> "."%char) ->
  pieces_set ps' = board_entries b'.
Proof.
  induction l as [|s l IH]; intros b ps b' ps' Hlen Hag H Hnd Hreal;
    simpl in H.
  - by injection H as <- <-.
  - bind_inv H as [b1 ps1] E1.
    apply place_piece_Ok in E1 as (c & sq & Hsq & -> & ->); [| done].
    pose proof H as Hrest.
    apply place_pieces_prefix in Hrest as [_ [more Hmore]];
      [| by rewrite put_length].
    assert (Hlive : live ps' = live ps ++ (c, sq) :: live more).
    { rewrite Hmore, <- app_assoc, live_app. f_equal. }
    assert (Hc : c <> "."%char).
    { apply (Hreal (c, sq)). rewrite Hlive. set_solver. }
    assert (Hfree : board_at b sq = Ok "."%char).
    { destruct (lookup_lt_is_Some_2 b (Z.to_nat sq) ltac:(lia)) as [c0 Hc0].
      assert (Hat : board_at b sq = Ok c0) by (by apply board_at_Ok).
      destruct (decide (c0 = "."%char)) as [-> | Hne]; [done |].
      exfalso.
      assert (Hin : (c0, sq) ∈ pieces_set ps).
      { rewrite Hag. by apply elem_of_board_entries. }
      unfold pieces_set in Hin. apply elem_of_list_to_set_disj in Hin.
      rewrite Hlive, fmap_app, fmap_cons in Hnd. cbn [snd] in Hnd.
      apply NoDup_app in Hnd as (_ & Hnd & _).
      apply (Hnd sq); [| by left].
      apply list_elem_of_fmap. by exists (c0, sq). }
    eapply (IH (put sq c b) (ps ++ [Some (c, sq)]));
      [by rewrite put_length | | exact H | done | done].
    pose proof (board_entries_put b sq c "." Hfree) as Hput.
    rewrite cell_empty, (cell_real _ _ Hc) in Hput.
    fold (pieces_insert (c, sq) ps). rewrite pieces_set_insert, Hag.
    rewrite <- Hput. ms_solve.
Qed.

(** X22.  The constructor from piece lists builds a consistent position
    when no two pieces are put on the same square and no piece letter is
    '.': the board has 64 squares and shows exactly the pieces of the
    table, the history is empty, the side to move is the one given, and the
    en-passant square is -1 or a square of the board. *)
Theorem pieces_position_consistent (white_pieces black_pieces : list string)
    (to_move : ascii) (en_passant_square : string) (pos : Position) :
  Position_of_pieces white_pieces black_pieces to_move en_passant_square
    = Ok pos ->
  NoDup (snd <$> live (m_pieces pos)) ->
  (forall e, e ∈ live (m_pieces pos) -> fst e <> "."%char) ->
  length (m_board pos) = 64%nat /\
  pieces_set (m_pieces pos) = board_entries (m_board pos) /\
  m_prev_moves pos = [] /\ m_to_move pos = to_move /\
  (m_en_passant pos = -1 \/ 0 <= m_en_passant pos < 64).
Proof.
  unfold Position_of_pieces. intros H Hnd Hreal.
  bind_inv H as [b1 ps1] Ew. bind_inv H as [b2 ps2] Eb. bind_inv H as ep Eep.
  injection H as <-.
  cbn [m_board m_pieces m_prev_moves m_to_move m_en_passant] in *.
  assert (Hlen0 : length (replicate 64 "."%char) = 64%nat)
    by apply length_replicate.
  destruct (place_pieces_prefix _ _ _ _ _ _ Hlen0 Ew) as [Hlen1 [more1 Hm1]].
  destruct (place_pieces_prefix _ _ _ _ _ _ Hlen1 Eb) as [Hlen2 [more2 Hm2]].
  simpl in Hm1. subst ps1.
  assert (Hlive : live ps2 = live more1 ++ live more2)
    by (by rewrite Hm2, live_app).
  assert (Hag1 : pieces_set more1 = board_entries b1).
  { eapply (place_pieces_agree true white_pieces _ []);
      [exact Hlen0 | by_computation | exact Ew | |].
    - rewrite Hlive, fmap_app in Hnd. by apply NoDup_app in Hnd as (? & _).
    - intros e He. apply Hreal. rewrite Hlive. set_solver. }
  split; [done |]. split.
  { by eapply (place_pieces_agree false black_pieces b1 more1). }
  split; [done |]. split; [done |].
  destruct (String.length en_passant_square =? 2)%nat.
  - right. unfold get_square_str in Eep.
    by apply get_square_Ok in Eep as (_ & _ & ?).
  - left. by injection Eep as <-.
Qed.

(** The rook ending of the header's example: Re7 and Kf5 against Kh8. *)
Lemma pieces_position_consistent_witness :
  exists pos,
    Position_of_pieces ["Re7"; "Kf5"] ["Kh8"] "w" "" = Ok pos /\
    length (m_board pos) = 64%nat /\
    pieces_set (m_pieces pos) = board_entries (m_board pos) /\
    m_prev_moves pos = [] /\ m_to_move pos = "w"%char /\
    (m_en_passant pos = -1 \/ 0 <= m_en_passant pos < 64).
Proof.
  eexists. split; [by_computation |].
  eapply (pieces_position_consistent ["Re7"; "Kf5"] ["Kh8"] "w" "").
  - by_computation.
  - apply (bool_decide_unpack _). vm_compute. exact I.
  - intros e He. cbn in He.
    repeat (apply elem_of_cons in He as [-> | He]; [discriminate |]).
    by apply elem_of_nil in He.
Defined.

(** ** When the move generator returns, and when it throws *)

Lemma for_each_total {A St : Type} (l : list A) (body : A -> St -> res St) :
  (forall x s, x ∈ l -> exists s', body x s = Ok s') ->
  forall s, exists s', for_each l s body = Ok s'.
Proof.
  induction l as [|x l IH]; intros Hbody s; simpl; [eauto |].
  destruct (Hbody x s) as [s1 ->]; [by left |]. cbn [bind].
  apply IH. intros y s0 Hy. apply Hbody. by right.
Qed.

Lemma step_moves_total (b : list ascii) (ep : Z) (piece : ascii)
    (square col row : Z) (offs : list (Z * Z)) :
  length b = 64%nat ->
  exists ms, step_moves b ep piece square col row offs = Ok ms.
Proof.
  intros Hlen. unfold step_moves. apply for_each_total. intros cds result _.
  destruct (are_valid_coords _ _) eqn:Hv; cbn [negb]; [| eauto].
  rewrite (get_square_valid _ _ Hv). cbn [bind].
  destruct (board_at_valid b _ _ _ Hlen (get_square_valid _ _ Hv)) as [c ->].
  cbn [bind]. destruct (_ || _); eauto.
Qed.

Lemma ray_moves_total (b : list ascii) (ep : Z) (piece : ascii) (square : Z)
    (cds : Z * Z) (n : nat) :
  length b = 64%nat ->
  forall fuel curr result,
  (n < fuel)%nat ->
  are_valid_coords (fst curr + Z.of_nat n * fst cds)
                   (snd curr + Z.of_nat n * snd cds) = false ->
  exists ms, ray_moves fuel b ep piece square cds curr result = Ok ms.
Proof.
  intros Hlen. induction n as [|n IH]; intros fuel curr result Hfuel Hout.
  - destruct fuel as [|fuel]; [lia |]. simpl.
    rewrite !Z.mul_0_l, !Z.add_0_r in Hout. rewrite Hout. eauto.
  - destruct fuel as [|fuel]; [lia |]. simpl.
    destruct (are_valid_coords (fst curr) (snd curr)) eqn:Hv; [| eauto].
    rewrite (get_square_valid _ _ Hv). simpl.
    destruct (board_at_valid b _ _ _ Hlen (get_square_valid _ _ Hv)) as [c Hc].
    rewrite Hc. simpl.
    destruct (negb (c =c ".") && _); [eauto |].
    destruct (negb (c =c ".")); [eauto |].
    apply IH; [lia |]. simpl.
    replace (fst curr + fst cds + Z.of_nat n * fst cds)
      with (fst curr + Z.of_nat (S n) * fst cds) by lia.
    replace (snd curr + snd cds + Z.of_nat n * snd cds)
      with (snd curr + Z.of_nat (S n) * snd cds) by lia.
    done.
Qed.

Lemma slide_moves_total (b : list ascii) (ep : Z) (piece : ascii)
    (square col row : Z) (dirs : list (Z * Z)) :
  length b = 64%nat -> Forall unit_dir dirs ->
  exists ms, slide_moves b ep piece square col row dirs = Ok ms.
Proof.
  intros Hlen Hdirs. unfold slide_moves. apply for_each_total.
  intros cds result Hin.
  rewrite Forall_forall in Hdirs. destruct (Hdirs cds Hin) as (Hx & Hy & Hnz).
  destruct (are_valid_coords (col + fst cds) (row + snd cds)) eqn:Hv.
  - apply (ray_moves_total b ep piece square cds 8 Hlen); [lia |].
    destruct cds as [dx dy]. simpl in *.
    apply are_valid_coords_spec in Hv. apply are_valid_coords_false.
    assert (dx <> 0 \/ dy <> 0) as [Hd | Hd]
      by (destruct (decide (dx = 0)); [right; congruence | by left]); lia.
  - apply (ray_moves_total b ep piece square cds 0 Hlen); [lia |].
    simpl. by rewrite !Z.add_0_r.
Qed.

Lemma king_offsets_unit : Forall unit_dir king_offsets.
Proof. repeat constructor; simpl; (lia || discriminate). Qed.

Lemma bishop_move_dirs_unit : Forall unit_dir bishop_move_dirs.
Proof. repeat constructor; simpl; (lia || discriminate). Qed.

(** The two capture squares of a pawn never stop the generator. *)
Lemma pawn_captures_total (b : list ascii) (ep : Z) (piece : ascii)
    (square col row dir : Z) :
  length b = 64%nat ->
  exists ms,
    for_each [1; -1] [] (fun c_dir result =>
      if negb (are_valid_coords (col + c_dir) (row + dir))
      then Ok result
      else
        do sq <- get_square (col + c_dir) (row + dir);
        do t <- board_at b sq;
        if negb (t =c ".") && negb (eqb (is_upper t) (is_upper piece))
        then Ok (result ++ pawn_arrivals square sq piece t ep (row + dir))
        else if sq =? ep
        then Ok (result ++ [mkMove square sq piece t
                              (if is_upper piece then "E" else "e")%char ep])
        else Ok result) = Ok ms.
Proof.
  intros Hlen. apply for_each_total. intros c_dir result _.
  destruct (are_valid_coords _ _) eqn:Hv; cbn [negb]; [| eauto].
  rewrite (get_square_valid _ _ Hv). cbn [bind].
  destruct (board_at_valid b _ _ _ Hlen (get_square_valid _ _ Hv)) as [c ->].
  cbn [bind]. destruct (_ && _); [eauto |]. destruct (_ =? _); eauto.
Qed.

(** A pawn that has a rank in front of it gets its moves. *)
Lemma pawn_moves_total (b : list ascii) (ep : Z) (piece : ascii)
    (square col row : Z) :
  length b = 64%nat ->
  are_valid_coords col (row + (if is_upper piece then -1 else 1)) = true ->
  exists ms, pawn_moves b ep piece square col row = Ok ms.
Proof.
  intros Hlen Hv. unfold pawn_moves.
  destruct (pawn_captures_total b ep piece square col row
              (if is_upper piece then -1 else 1) Hlen) as [caps ->].
  cbn [bind]. rewrite (get_square_valid _ _ Hv). cbn [bind].
  destruct (board_at_valid b _ _ _ Hlen (get_square_valid _ _ Hv)) as [c ->].
  cbn [bind].
  apply are_valid_coords_spec in Hv.
  destruct (c =c "."); cbn [bind].
  - destruct (is_upper piece) eqn:Hup; cbn [andb orb negb].
    + destruct (row =? 6) eqn:Hr; [| eauto].
      apply Z.eqb_eq in Hr. subst row.
      assert (Hv2 : are_valid_coords col (6 + 2 * -1) = true)
        by (apply are_valid_coords_spec; lia).
      rewrite (get_square_valid _ _ Hv2). cbn [bind].
      destruct (board_at_valid b _ _ _ Hlen (get_square_valid _ _ Hv2))
        as [c2 ->].
      cbn [bind]. destruct (c2 =c "."); eauto.
    + destruct (row =? 1) eqn:Hr; [| eauto].
      apply Z.eqb_eq in Hr. subst row.
      assert (Hv2 : are_valid_coords col (1 + 2 * 1) = true)
        by (apply are_valid_coords_spec; lia).
      rewrite (get_square_valid _ _ Hv2). cbn [bind].
      destruct (board_at_valid b _ _ _ Hlen (get_square_valid _ _ Hv2))
        as [c2 ->].
      cbn [bind]. destruct (c2 =c "."); eauto.
  - destruct (_ || _); eauto.
Qed.

(** A pawn with no rank in front of it stops the generator. *)
Lemma pawn_moves_throws (b : list ascii) (ep : Z) (piece : ascii)
    (square col row : Z) :
  length b = 64%nat ->
  are_valid_coords col (row + (if is_upper piece then -1 else 1)) = false ->
  pawn_moves b ep piece square col row
  = Err (Thrown "invalid square coordinates").
Proof.
  intros Hlen Hv. unfold pawn_moves.
  destruct (pawn_captures_total b ep piece square col row
              (if is_upper piece then -1 else 1) Hlen) as [caps ->].
  cbn [bind]. unfold get_square at 1. by rewrite Hv.
Qed.

Lemma find_pseudo_legal_moves_total (pos : Position) (piece : ascii)
    (square : Z) :
  length (m_board pos) = 64%nat ->
  (tolower piece = "p"%char ->
   are_valid_coords (int_rem square 8)
     (int_div square 8 + (if is_upper piece then -1 else 1)) = true) ->
  exists ms, find_pseudo_legal_moves pos piece square = Ok ms.
Proof.
  intros Hlen Hpawn. unfold find_pseudo_legal_moves.
  destruct (tolower piece =c "p") eqn:Hp.
  { apply char_eqb_eq in Hp. apply pawn_moves_total; auto. }
  destruct (tolower piece =c "n"); [by apply step_moves_total |].
  destruct (tolower piece =c "k"); [by apply step_moves_total |].
  destruct (tolower piece =c "q");
    [apply slide_moves_total; [done | apply king_offsets_unit] |].
  destruct (tolower piece =c "b");
    [apply slide_moves_total; [done | apply bishop_move_dirs_unit] |].
  destruct (tolower piece =c "r");
    [apply slide_moves_total; [done | apply rook_dirs_unit] |].
  eauto.
Qed.

(** The only way the generator of one piece fails on a full board. *)
Lemma find_pseudo_legal_moves_outcome (pos : Position) (piece : ascii)
    (square : Z) :
  length (m_board pos) = 64%nat ->
  (exists ms, find_pseudo_legal_moves pos piece square = Ok ms) \/
  find_pseudo_legal_moves pos piece square
  = Err (Thrown "invalid square coordinates").
Proof.
  intros Hlen.
  destruct (are_valid_coords (int_rem square 8)
              (int_div square 8 + (if is_upper piece then -1 else 1)))
    eqn:Hv.
  { left. by apply find_pseudo_legal_moves_total. }
  destruct (tolower piece =c "p") eqn:Hp.
  - right. unfold find_pseudo_legal_moves. rewrite Hp.
    by apply pawn_moves_throws.
  - left. apply find_pseudo_legal_moves_total; [done |].
    intros Hp'. apply char_eqb_neq in Hp. done.
Qed.

Section special.
Variables (b : list ascii) (ep : Z) (piece : ascii) (square : Z).
Hypothesis Hsq : 0 <= square < 64.
Hypothesis Hep :
  ep = -1 \/
  board_at b (if is_upper piece then ep + 8 else ep - 8)
  = Ok (if is_upper piece then "p" else "P")%char.

Lemma plain_special (sq : Z) (t : ascii) :
  special_sound b (mkMove square sq piece t NUL ep).
Proof. split; [by left | done]. Qed.

Lemma step_moves_special (col row : Z) (offs : list (Z * Z))
    (ms : list Move) :
  step_moves b ep piece square col row offs = Ok ms ->
  Forall (special_sound b) ms.
Proof.
  unfold step_moves. apply for_each_inv; [constructor |].
  intros cds s0 s1 _ Hs0 H.
  destruct (negb (are_valid_coords _ _)); [by simplify_eq |].
  bind_inv H as sq Esq. bind_inv H as t Et.
  destruct ((t =c ".") || _); [| by simplify_eq].
  simpl in H. simplify_eq.
  apply Forall_app. split; [done |]. constructor; [| constructor].
  apply plain_special.
Qed.

Lemma ray_moves_special (fuel : nat) (cds curr : Z * Z)
    (result ms : list Move) :
  Forall (special_sound b) result ->
  ray_moves fuel b ep piece square cds curr result = Ok ms ->
  Forall (special_sound b) ms.
Proof.
  revert curr result. induction fuel as [|fuel IH]; intros curr result Hres H;
    simpl in H; [discriminate |].
  destruct (are_valid_coords _ _); [| by simplify_eq].
  bind_inv H as sq Esq. bind_inv H as t Et.
  destruct (negb (t =c ".") && _); [by simplify_eq |].
  simpl in H.
  assert (Hnew : Forall (special_sound b)
                   (result ++ [mkMove square sq piece t NUL ep])).
  { apply Forall_app. split; [done |]. constructor; [| constructor].
    apply plain_special. }
  destruct (negb (t =c ".")); [by simplify_eq |].
  eapply IH; eauto.
Qed.

Lemma slide_moves_special (col row : Z) (dirs : list (Z * Z))
    (ms : list Move) :
  slide_moves b ep piece square col row dirs = Ok ms ->
  Forall (special_sound b) ms.
Proof.
  unfold slide_moves. apply for_each_inv; [constructor |].
  intros cds s0 s1 _ Hs0 H. eapply ray_moves_special; eauto.
Qed.

Lemma pawn_arrivals_special (sq : Z) (t : ascii) (target_row : Z) :
  tolower piece = "p"%char ->
  (target_row = 0 -> is_upper piece = true) ->
  (target_row = 7 -> is_upper piece = false) ->
  Forall (special_sound b) (pawn_arrivals square sq piece t ep target_row).
Proof.
  intros Hp H0 H7. unfold pawn_arrivals.
  destruct (target_row =? 0) eqn:E0.
  { apply Z.eqb_eq in E0. specialize (H0 E0).
    repeat constructor; try done; right; cbn [m_piece m_special];
      rewrite H0; by repeat split. }
  destruct (target_row =? 7) eqn:E7.
  { apply Z.eqb_eq in E7. specialize (H7 E7).
    repeat constructor; try done; right; cbn [m_piece m_special];
      rewrite H7; by repeat split. }
  constructor; [apply plain_special | constructor].
Qed.

Lemma pawn_moves_special (ms : list Move) :
  tolower piece = "p"%char ->
  pawn_moves b ep piece square (int_rem square 8) (int_div square 8) = Ok ms ->
  Forall (special_sound b) ms.
Proof.
  intros Hp.
  destruct (square_coords square Hsq) as (Hsplit & Hcol & Hrow).
  set (col := int_rem square 8) in *. set (row := int_div square 8) in *.
  unfold pawn_moves. intros H.
  set (dir := if is_upper piece then -1 else 1) in *.
  assert (H0 : row + dir = 0 -> is_upper piece = true)
    by (unfold dir; destruct (is_upper piece); [done | lia]).
  assert (H7 : row + dir = 7 -> is_upper piece = false)
    by (unfold dir; destruct (is_upper piece); [lia | done]).
  bind_inv H as r1 E1.
  assert (Hr1 : Forall (special_sound b) r1).
  { revert E1. apply for_each_inv; [constructor |].
    intros c_dir s0 s1 Hin Hs0 Hb.
    destruct (negb (are_valid_coords _ _)); [by simplify_eq |].
    bind_inv Hb as sq Esq. bind_inv Hb as t Et.
    destruct (get_square_Ok _ _ _ Esq) as (_ & _ & Hsq').
    destruct (negb (t =c ".") && _).
    - simplify_eq. apply Forall_app. split; [done |].
      by apply pawn_arrivals_special.
    - destruct (sq =? ep) eqn:Eep; simplify_eq; [| done].
      apply Z.eqb_eq in Eep. subst sq.
      destruct Hep as [-> | Hvictim]; [lia |].
      apply Forall_app. split; [done |]. constructor; [| constructor].
      split; [| done]. right. cbn [m_piece m_special m_to].
      destruct (is_upper piece); by repeat split. }
  bind_inv H as sq1 Esq1. bind_inv H as t1 Et1.
  bind_inv H as r2 E2.
  assert (Hr2 : Forall (special_sound b) r2).
  { destruct (t1 =c "."); [| by simplify_eq].
    simpl in E2. simplify_eq.
    apply Forall_app. split; [done |].
    by apply pawn_arrivals_special. }
  destruct (_ || _); [| by simplify_eq].
  simpl in H.
  destruct (t1 =c "."); [| by simplify_eq].
  bind_inv H as s2 Es2. bind_inv H as u2 Eu2.
  destruct (u2 =c "."); [| by simplify_eq].
  simpl in H. simplify_eq.
  apply Forall_app. split; [done |]. constructor; [| constructor].
  apply plain_special.
Qed.

Lemma find_pseudo_legal_moves_special (pos : Position) (ms : list Move) :
  m_board pos = b -> m_en_passant pos = ep ->
  find_pseudo_legal_moves pos piece square = Ok ms ->
  Forall (special_sound b) ms.
Proof.
  intros Hb Hepos. unfold find_pseudo_legal_moves. rewrite Hb, Hepos.
  destruct (tolower piece =c "p") eqn:Hp.
  { apply char_eqb_eq in Hp. by apply pawn_moves_special. }
  repeat case_match; intros Hms;
    eauto using step_moves_special, slide_moves_special.
  all: simplify_eq; constructor.
Qed.
End special.

Lemma tolower_pawn (c : ascii) :
  tolower c = "p"%char -> c = "p"%char \/ c = "P"%char.
Proof.
  destruct c as [[] [] [] [] [] [] [] []]; vm_compute; intros H;
    first [discriminate H | by left | by right].
Qed.

Lemma live_slot (ps : slots) (e : entry) : e ∈ live ps <-> Some e ∈ ps.
Proof.
  unfold live. rewrite list_elem_of_omap. split.
  - intros (o & Ho & Hid). simpl in Hid. by subst.
  - intros H. by exists (Some e).
Qed.

(** On a consistent position whose pawns have a rank in front of them the
    first loop of [get_possible_moves] collects its moves. *)
Lemma pseudo_legal_moves_total (pos : Position) :
  wf pos -> pawns_can_step pos ->
  exists pseudo, pseudo_legal_moves pos = Ok pseudo.
Proof.
  intros [Hlen Hag _] Hpawns. unfold pseudo_legal_moves, pseudo_legal_moves_in.
  apply for_each_total. intros [piece square] result Hin. cbn [fst snd].
  destruct (negb _); [eauto |].
  apply live_slot in Hin.
  destruct (entry_on_board _ _ _ Hlen Hag Hin) as [_ Hat]. cbn [fst snd] in Hat.
  apply board_at_Ok in Hat as [Hsq _].
  destruct (square_coords square Hsq) as (Hsplit & Hcol & Hrow).
  destruct (find_pseudo_legal_moves_total pos piece square Hlen) as [ms ->];
    [| cbn [bind]; eauto].
  intros Hp. apply are_valid_coords_spec.
  unfold pawns_can_step in Hpawns. rewrite Forall_forall in Hpawns.
  destruct (Hpawns (piece, square)) as [HP Hp']; [by apply live_slot |].
  cbn [fst snd] in HP, Hp'.
  apply tolower_pawn in Hp as [-> | ->].
  - specialize (Hp' eq_refl). change (is_upper "p") with false. cbv iota. lia.
  - specialize (HP eq_refl). change (is_upper "P") with true. cbv iota. lia.
Qed.

Lemma for_each_throws {A St : Type} (l : list A) (body : A -> St -> res St)
    (e : err) (x : A) :
  x ∈ l -> (forall s, body x s = Err e) ->
  (forall y s, y ∈ l -> (exists s', body y s = Ok s') \/ body y s = Err e) ->
  forall s, for_each l s body = Err e.
Proof.
  induction l as [|y l IH]; intros Hin Hx Hall s; [by apply elem_of_nil in Hin |].
  simpl. apply elem_of_cons in Hin as [<- | Hin].
  - by rewrite Hx.
  - destruct (Hall y s) as [[s' ->] | ->]; [by left | | done]. cbn [bind].
    apply IH; [done | done |]. intros z s0 Hz. apply Hall. by right.
Qed.

Lemma pseudo_legal_moves_throws (pos : Position) (s : Z) :
  wf pos -> pawn_on_last_rank pos s ->
  pseudo_legal_moves pos = Err (Thrown "invalid square coordinates").
Proof.
  intros [Hlen Hag _] Hlast. unfold pseudo_legal_moves, pseudo_legal_moves_in.
  assert (Hthrow : forall c, Some (c, s) ∈ m_pieces pos ->
            tolower c = "p"%char ->
            (if is_upper c then s < 8 else 56 <= s) ->
            find_pseudo_legal_moves pos c s
            = Err (Thrown "invalid square coordinates")).
  { intros c Hin Hp Hs.
    destruct (entry_on_board _ _ _ Hlen Hag Hin) as [_ Hat].
    cbn [fst snd] in Hat. apply board_at_Ok in Hat as [Hsq _].
    destruct (square_coords s Hsq) as (Hsplit & Hcol & Hrow).
    unfold find_pseudo_legal_moves.
    apply char_eqb_eq in Hp. rewrite Hp.
    apply pawn_moves_throws; [done |]. apply are_valid_coords_false.
    destruct (is_upper c); lia. }
  destruct Hlast as [(Hw & Hin & Hs) | (Hb & Hin & Hs)].
  - apply (for_each_throws _ _ _ ("P"%char, s)).
    + by apply live_slot.
    + intros acc. cbn [fst snd]. rewrite Hw.
      change (negb _) with false. cbv iota.
      by rewrite (Hthrow "P"%char Hin eq_refl Hs).
    + intros [c sq] acc _. cbn [fst snd]. destruct (negb _); [eauto |].
      destruct (find_pseudo_legal_moves_outcome pos c sq Hlen) as [[ms ->] | ->];
        [left; cbn [bind]; eauto | by right].
  - apply (for_each_throws _ _ _ ("p"%char, s)).
    + by apply live_slot.
    + intros acc. cbn [fst snd]. rewrite Hb.
      change (negb _) with false. cbv iota.
      by rewrite (Hthrow "p"%char Hin eq_refl Hs).
    + intros [c sq] acc _. cbn [fst snd]. destruct (negb _); [eauto |].
      destruct (find_pseudo_legal_moves_outcome pos c sq Hlen) as [[ms ->] | ->];
        [left; cbn [bind]; eauto | by right].
Qed.

Lemma pseudo_legal_moves_sound (pos : Position) (pseudo : list Move) :
  wf pos -> en_passant_ok pos ->
  pseudo_legal_moves pos = Ok pseudo ->
  Forall (sound_move (m_board pos) (m_to_move pos =c "w")) pseudo.
Proof.
  intros [Hlen Hag _] Hep. unfold pseudo_legal_moves, pseudo_legal_moves_in.
  apply for_each_inv; [constructor |].
  intros [piece square] s0 s1 Hin Hs0 H. cbn [fst snd] in H.
  destruct (eqb (is_upper piece) (m_to_move pos =c "w")) eqn:Hside;
    cbn [negb] in H; [| by simplify_eq].
  apply eqb_prop in Hside.
  bind_inv H as moves E. simplify_eq.
  apply Forall_app. split; [done |].
  apply list_elem_of_In, live_slot in Hin.
  destruct (entry_on_board _ _ _ Hlen Hag Hin) as [_ Hat]. cbn [fst snd] in Hat.
  apply board_at_Ok in Hat as [Hsq _].
  assert (Hsp : Forall (special_sound (m_board pos)) moves).
  { eapply (find_pseudo_legal_moves_special (m_board pos) (m_en_passant pos)
              piece square Hsq); [| done | done | exact E].
    rewrite Hside. destruct Hep as [Hnone | [_ Hvictim]]; [by left | by right]. }
  assert (Hen : Forall (takes_enemy piece) moves).
  { eapply (find_pseudo_legal_moves_take_enemy (m_board pos)
              (m_en_passant pos) piece square); [| done | done | exact E].
    intros t Ht. destruct Hep as [Hnone | [Hempty _]].
    - rewrite Hnone in Ht. discriminate Ht.
    - congruence. }
  rewrite Forall_forall in Hsp, Hen. apply Forall_forall. intros m Hm.
  destruct (Hen m Hm) as [Hpiece Hcap].
  split; [by apply Hsp |]. rewrite Hpiece, <- Hside. by split.
Qed.

(** A collected move leaves the node of the king of the side to move in
    place. *)
Lemma king_slot_stays (pos : Position) (m : Move) (s : Z) :
  sound_move (m_board pos) (m_to_move pos =c "w") m ->
  exists e1, slot_after m (king_letter pos, s) = Some e1.
Proof.
  intros ([_ Hpawn] & Hside & Hcap). unfold slot_after.
  assert (Hking : is_upper (king_letter pos) = (m_to_move pos =c "w") /\
                  tolower (king_letter pos) = "k"%char /\
                  king_letter pos <> "P"%char /\ king_letter pos <> "p"%char).
  { unfold king_letter. by destruct (m_to_move pos =c "w"). }
  destruct Hking as (Hup & Hlow & HnP & Hnp).
  case_decide as Hfrom.
  { injection Hfrom as Hpc _.
    destruct (is_promotion m) eqn:Hpr; [| eauto]. exfalso.
    unfold is_promotion in Hpr.
    destruct (m_special m =c NUL) eqn:Hnul; [discriminate Hpr |].
    apply char_eqb_neq in Hnul. specialize (Hpawn Hnul).
    rewrite <- Hpc, Hlow in Hpawn. discriminate Hpawn. }
  case_decide as Hto.
  { exfalso. injection Hto as Hc _. destruct Hcap as [Hdot | Hne].
    - rewrite Hdot in Hc. by apply (king_letter_real pos).
    - apply Hne. by rewrite <- Hc. }
  case_decide as Hvic; [| eauto].
  exfalso. unfold en_passant_victim in Hvic.
  destruct (m_special m =c "e").
  { apply gmultiset_elem_of_singleton in Hvic. by injection Hvic. }
  destruct (m_special m =c "E").
  { apply gmultiset_elem_of_singleton in Hvic. by injection Hvic. }
  by apply gmultiset_not_elem_of_empty in Hvic.
Qed.

(** The second loop of [get_possible_moves] gets through every collected
    move. *)
Lemma try_moves_total (it : nat) (s : Z) (pos : Position)
    (pseudo : list Move) :
  wf pos ->
  m_pieces pos !! it = Some (Some (king_letter pos, s)) ->
  Forall (move_ok (m_board pos) (m_en_passant pos)) pseudo ->
  Forall (sound_move (m_board pos) (m_to_move pos =c "w")) pseudo ->
  forall pk acc,
  tracks it pos pk ->
  exists pk' legal,
    for_each pseudo (pk, acc) (try_move (Some it)) = Ok (pk', legal).
Proof.
  intros Hwf Hit Hok Hsound.
  induction pseudo as [|m pseudo IH]; intros pk acc Htr;
    cbn [for_each]; [eauto |].
  apply Forall_cons in Hok as [Hm Hok].
  apply Forall_cons in Hsound as [Hsm Hsound].
  assert (Hstep : exists st, try_move (Some it) m (pk, acc) = Ok st).
  { pose proof Htr as [Hwfk Hb Ht He Hh Hs].
    unfold try_move.
    pose proof Hm as [_ _ _ _ _ Hlast].
    assert (Hokk : move_ok (m_board pk) (m_last_enpassant m) m)
      by (by rewrite Hb, Hlast).
    pose proof Hsm as ([Hsp _] & _).
    destruct (perform_move_total pk m Hwfk Hokk) as [pk1 Eperf];
      [by rewrite Hb |].
    rewrite Eperf. cbn [bind].
    destruct (perform_move_tracks _ _ _ _ _ _ Hwf Htr Hit Hm Eperf)
      as (pos1 & _ & _ & _ & Hslot).
    destruct (king_slot_stays pos m s Hsm) as [e1 He1].
    rewrite He1 in Hslot. apply deref_Ok in Hslot.
    unfold king_not_hit. rewrite Hslot. cbn [bind].
    destruct (perform_move_inv _ _ _ Hwfk Hokk Eperf)
      as (_ & _ & _ & _ & _ & [Hlen1 _ _]).
    destruct (square_hit_total pk1 (snd e1) (negb (is_upper (fst e1))) Hlen1)
      as [h ->].
    cbn [bind].
    assert (Hokk' : move_ok (m_board pk) (m_en_passant pk) m)
      by (by rewrite Hb, He).
    destruct (perform_undo _ _ _ Hwfk Hokk' Eperf) as (pk2 & -> & _).
    cbn [bind]. eauto. }
  destruct Hstep as [[pk' acc'] Estep]. rewrite Estep. cbn [bind].
  apply IH; [done | done |].
  by destruct (try_move_spec _ _ _ _ _ _ _ _ Hwf Htr Hit Hm Estep).
Qed.

(** X24.  [get_possible_moves] returns on a position in order: when board
    and piece table agree, the en-passant square is absent or is an empty
    square with the pawn to take behind it, no pawn stands on the rank it
    promotes on, and the king of the side to move is in the table, the
    call returns a list of moves (it neither throws nor leaves the board
    or the table) and the position it returns is the one it was given. *)
Theorem get_possible_moves_returns (pos : Position) (s : Z) :
  wf pos -> en_passant_ok pos -> pawns_can_step pos ->
  Some (king_letter pos, s) ∈ m_pieces pos ->
  exists pos' legal,
    get_possible_moves pos = Ok (pos', legal) /\ same_position pos' pos.
Proof.
  intros Hwf Hep Hpawns Hking.
  assert (Hret : exists pos' legal, get_possible_moves pos = Ok (pos', legal)).
  { unfold get_possible_moves, get_possible_moves_in.
    fold (pseudo_legal_moves pos).
    destruct (pseudo_legal_moves_total pos Hwf Hpawns) as [pseudo Eps].
    rewrite Eps. cbn [bind]. fold (king_letter pos).
    destruct (pieces_find_total (king_letter pos) s (m_pieces pos))
      as (it & s' & -> & Hit); [by apply live_slot |].
    apply (try_moves_total it s' pos pseudo Hwf Hit).
    - by apply pseudo_legal_moves_ok.
    - by apply pseudo_legal_moves_sound.
    - by apply tracks_refl. }
  destruct Hret as (pos' & legal & Hret). exists pos', legal.
  split; [done |]. by destruct (legal_moves_ok _ _ _ Hwf Hret) as (_ & _ & ?).
Qed.

(** After 1. e4: black to move, en-passant square e3. *)
Lemma get_possible_moves_returns_witness :
  exists pos' legal,
    get_possible_moves after_e4_position = Ok (pos', legal) /\
    same_position pos' after_e4_position.
Proof.
  apply (get_possible_moves_returns after_e4_position 4).
  - exact wf_after_e4_position.
  - right. split; by_computation.
  - apply (bool_decide_unpack _). vm_compute. exact I.
  - apply (bool_decide_unpack _). vm_compute. exact I.
Defined.

(** X25.  A pawn of the side to move on the rank it promotes on makes
    [get_possible_moves] throw "invalid square coordinates": the generator
    asks for the square in front of the pawn, which is off the board.  The
    FEN reader accepts such a position. *)
Theorem get_possible_moves_last_rank_pawn (pos : Position) (s : Z) :
  wf pos -> pawn_on_last_rank pos s ->
  get_possible_moves pos = Err (Thrown "invalid square coordinates").
Proof.
  intros Hwf Hlast. unfold get_possible_moves, get_possible_moves_in.
  fold (pseudo_legal_moves pos).
  by rewrite (pseudo_legal_moves_throws pos s Hwf Hlast).
Qed.

Lemma wf_last_rank_pawn_position : wf last_rank_pawn_position.
Proof.
  apply (Position_of_FEN_wf "P3k3/8/8/8/8/8/8/4K3 w - - 0 1");
    [by_computation | by_computation | by_computation | by left].
Defined.

(** The white pawn on a8. *)
Lemma get_possible_moves_last_rank_pawn_witness :
  Position_of_FEN "P3k3/8/8/8/8/8/8/4K3 w - - 0 1"
    = Ok last_rank_pawn_position /\
  get_possible_moves last_rank_pawn_position
    = Err (Thrown "invalid square coordinates").
Proof.
  split; [by_computation |].
  apply (get_possible_moves_last_rank_pawn last_rank_pawn_position 0).
  - exact wf_last_rank_pawn_position.
  - left. split; [reflexivity |]. split; [| lia].
    apply (bool_decide_unpack _). vm_compute. exact I.
Defined.

(** ** The printable board *)

(** X26.  [Position::to_string] prints a board of 64 squares as text of a
    fixed layout: after the heading of 23 characters every rank takes 22
    characters, and the square in column [j] of row [i] is shown at offset
    [26 + 22 * i + 2 * j]; the text ends with the side to move. *)
Theorem to_string_shows_board (pos : Position) :
  length (m_board pos) = 64%nat ->
  exists txt,
    Position_to_string pos = Ok txt /\
    String.length txt = 236%nat /\
    (forall i j : nat, (i < 8)%nat -> (j < 8)%nat ->
       String.get (26 + 22 * i + 2 * j) txt = m_board pos !! (j + 8 * i)%nat) /\
    substring 222 13 txt
    = (if m_to_move pos =c "w" then "white to move" else "black to move").
Proof.
  intros Hlen. destruct pos as [b tm ep ps prev]. cbn [m_board m_to_move] in *.
  do 64 (destruct b as [|? b]; [discriminate Hlen |]).
  destruct b; [| discriminate Hlen]. clear Hlen.
  unfold Position_to_string. cbn [m_board m_to_move].
  destruct (tm =c "w"); eexists; (split; [vm_compute; reflexivity |]);
    (split; [reflexivity |]); (split; [| reflexivity]);
    intros i j Hi Hj;
    do 8 (destruct i as [|i]; [do 8 (destruct j as [|j]; [reflexivity |]); lia |]);
    lia.
Qed.

(** The starting position. *)
Lemma to_string_shows_board_witness :
  exists txt,
    Position_to_string start_position = Ok txt /\
    String.length txt = 236%nat /\
    (forall i j : nat, (i < 8)%nat -> (j < 8)%nat ->
       String.get (26 + 22 * i + 2 * j) txt
       = m_board start_position !! (j + 8 * i)%nat) /\
    substring 222 13 txt
    = (if m_to_move start_position =c "w" then "white to move"
       else "black to move").
Proof.
  apply (to_string_shows_board start_position). reflexivity.
Defined.

